(** * The spot rescheduler: planning and control loop

    A shallow embedding of [rescheduler.go].  The Go program keeps pods and
    NodeInfo values behind pointers, writes a log, talks to a cluster and
    keeps one global, [nextDrainTime].  The embedding threads a [World]
    through every function: two heaps (pod objects, NodeInfo objects) whose
    addresses are list indices, the global, and the history of everything
    the process did that is visible from outside (log lines, metric
    updates, requests to collaborators).  Dereferencing an address that is
    not allocated is Go's nil dereference: the computation panics. *)

From Stdlib Require Import ZArith String List Lia Bool.
From stdpp Require Import base list strings.

Local Open Scope string_scope.
Local Open Scope Z_scope.
Local Open Scope list_scope.

(** ** API objects *)

Definition Time := Z.      (* an instant, in nanoseconds *)
Definition Duration := Z.  (* time.Duration: int64 nanoseconds *)

Definition PodRef := nat.       (* *apiv1.Pod *)
Definition NodeInfoRef := nat.  (* *nodes.NodeInfo *)

(** apiv1.Pod, reduced to the fields the rescheduler and the examples read:
    ObjectMeta.Namespace, ObjectMeta.Name, Spec.NodeName and the CPU the
    containers request (milli-cores). *)
Record Pod := mkPod {
  podNamespace : string;
  podName : string;
  specNodeName : string;
  podRequestCPU : Z
}.

(** apiv1.Node: ObjectMeta.Name, the label keys and the allocatable CPU. *)
Record Node := mkNode {
  nodeName : string;
  nodeLabels : list string;
  nodeAllocatableCPU : Z
}.

(** nodes.NodeInfo: [Node *apiv1.Node] and [Pods []*apiv1.Pod]. *)
Record NodeInfo := mkNodeInfo {
  Node_ : Node;
  Pods : list PodRef
}.

Definition NodeInfoArray := list NodeInfoRef.

Record PodDisruptionBudget := mkPDB { pdbName : string }.

(** A Go [error] value built by fmt.Errorf or handed back by a collaborator. *)
Inductive GoError := Errorf (format : string) (args : list string).

(** [error] as returned by Go functions: [None] is nil. *)
Definition error := option GoError.

(** ** What the process does that can be seen from outside *)

Inductive Arg :=
| AStr (s : string)
| ADur (d : Duration)
| AErr (e : GoError).

Inductive Call :=
| CallTimeNow
| CallListUnschedulablePods
| CallListNodes
| CallListPodsOnNode (node : string)
| CallListPDBs
| CallGetPodsForDeletion (pods : list PodRef)
| CallCopyNodeInfos (arr : NodeInfoArray)
| CallDrainNode (node : string) (pods : list PodRef) (seen : list Pod)
                (maxGracefulTermination : Z) (podEvictionTimeout : Duration).

Inductive Metric :=
| UpdateNodesMap (onDemand spot : nat)
| UpdateNodePodsCount (label node : string) (count : nat)
| UpdateNodeDrainCount (result node : string).

Inductive Event :=
| LogInfo (format : string) (args : list Arg)
| LogError (format : string) (args : list Arg)
| Request (c : Call)
| MetricUpdate (m : Metric).

Definition History := list Event.

(** ** The world *)

Record World := mkWorld {
  podHeap : list Pod;
  nodeInfoHeap : list NodeInfo;
  nextDrainTime : Time;
  history : History
}.

(** ** Collaborators

    Every answer of the outside world is a function of the history so far;
    each request is logged in the history before it is answered, so two
    requests never see the same history. *)

(** simulator.PredicateChecker: the scheduler's predicates for one pod
    against one node and the pods counted on that node; [None] is "fits". *)
Definition PredicateChecker := Pod -> Node -> list Pod -> error.

(** The API server as the rescheduler's packages use it. *)
Record KubeClient := mkKubeClient {
  podsOnNode : History -> string -> list Pod * error;
  copyNodeInfosError : History -> error;
  drainNodeResult : History -> error
}.

Record Environment := mkEnvironment {
  timeNow : History -> Time;
  unschedulablePodLister : History -> list Pod * error;
  nodeLister : History -> list Node * error;
  podDisruptionBudgetLister : History -> list PodDisruptionBudget * error;
  podsForDeletionOnNodeDrain :
    list (PodRef * Pod) -> list PodDisruptionBudget -> Time -> list PodRef * error
}.

(** The command-line flags. *)
Record Flags := mkFlags {
  housekeepingInterval : Duration;
  nodeDrainDelay : Duration;
  podEvictionTimeout : Duration;
  maxGracefulTermination : Duration;
  OnDemandNodeLabel : string;
  SpotNodeLabel : string
}.

(** ** The monad: state, with panics *)

Inductive Outcome (A : Type) :=
| Returns (a : A) (w : World)
| Panics (w : World).
Arguments Returns {A} a w.
Arguments Panics {A} w.

Definition M (A : Type) := World -> Outcome A.

Definition ret {A} (a : A) : M A := fun w => Returns a w.

Definition bind {A B} (m : M A) (f : A -> M B) : M B :=
  fun w => match m w with
           | Returns a w' => f a w'
           | Panics w' => Panics w'
           end.

Definition panic {A} : M A := fun w => Panics w.

Notation "x <- m ;; k" := (bind m (fun x => k))
  (at level 100, m at next level, right associativity).
Notation "m ;;; k" := (bind m (fun _ => k))
  (at level 100, right associativity).

Definition worldOf {A} (o : Outcome A) : World :=
  match o with Returns _ w => w | Panics w => w end.


(** ** Primitive operations on the world *)

Definition emit (e : Event) : M unit := fun w =>
  Returns tt (mkWorld (podHeap w) (nodeInfoHeap w) (nextDrainTime w)
                      (history w ++ [e])).

Definition getHistory : M History := fun w => Returns (history w) w.

Definition ask {A} (c : Call) (answer : History -> A) : M A :=
  emit (Request c) ;;; h <- getHistory ;; ret (answer h).

Definition glogInfof (format : string) (args : list Arg) : M unit :=
  emit (LogInfo format args).
Definition glogErrorf (format : string) (args : list Arg) : M unit :=
  emit (LogError format args).

(** [*pod] *)
Definition readPod (p : PodRef) : M Pod := fun w =>
  match podHeap w !! p with
  | Some v => Returns v w
  | None => Panics w
  end.

(** [*nodeInfo] *)
Definition readNodeInfo (r : NodeInfoRef) : M NodeInfo := fun w =>
  match nodeInfoHeap w !! r with
  | Some v => Returns v w
  | None => Panics w
  end.

Definition setSpecNodeName (v : Pod) (s : string) : Pod :=
  mkPod (podNamespace v) (podName v) s (podRequestCPU v).

(** [pod.Spec.NodeName = s] *)
Definition writePodNodeName (p : PodRef) (s : string) : M unit := fun w =>
  match podHeap w !! p with
  | Some v =>
      Returns tt (mkWorld (<[p := setSpecNodeName v s]> (podHeap w))
                          (nodeInfoHeap w) (nextDrainTime w) (history w))
  | None => Panics w
  end.

Definition writeNodeInfo (r : NodeInfoRef) (v : NodeInfo) : M unit := fun w =>
  match nodeInfoHeap w !! r with
  | Some _ =>
      Returns tt (mkWorld (podHeap w) (<[r := v]> (nodeInfoHeap w))
                          (nextDrainTime w) (history w))
  | None => Panics w
  end.

Definition allocPod (v : Pod) : M PodRef := fun w =>
  Returns (length (podHeap w))
          (mkWorld (podHeap w ++ [v]) (nodeInfoHeap w) (nextDrainTime w)
                   (history w)).

Definition allocNodeInfo (v : NodeInfo) : M NodeInfoRef := fun w =>
  Returns (length (nodeInfoHeap w))
          (mkWorld (podHeap w) (nodeInfoHeap w ++ [v]) (nextDrainTime w)
                   (history w)).

Definition getNextDrainTime : M Time := fun w => Returns (nextDrainTime w) w.

Definition setNextDrainTime (t : Time) : M unit := fun w =>
  Returns tt (mkWorld (podHeap w) (nodeInfoHeap w) t (history w)).

Fixpoint traverse {A B} (f : A -> M B) (l : list A) : M (list B) :=
  match l with
  | [] => ret []
  | x :: l' => y <- f x ;; ys <- traverse f l' ;; ret (y :: ys)
  end.

(** ** Packages the control loop calls *)

(** time.Until(t): t.Sub(time.Now()), which saturates at the bounds of
    int64 instead of wrapping. *)
Definition maxDuration : Duration := 9223372036854775807.
Definition minDuration : Duration := -9223372036854775808.

Definition timeSub (t u : Time) : Duration :=
  let d := t - u in
  if d <? minDuration then minDuration
  else if maxDuration <? d then maxDuration
  else d.

Definition timeUntil (env : Environment) (t : Time) : M Duration :=
  now <- ask CallTimeNow (timeNow env) ;; ret (timeSub t now).

(** int(d.Seconds()): the whole seconds of a duration. *)
Definition wholeSeconds (d : Duration) : Z := Z.quot d 1000000000.

(** schedulercache.NodeInfo: the pods it was built from, and its node. *)
Record KubeNodeInfo := mkKubeNodeInfo {
  kniPods : list PodRef;
  kniNode : option Node
}.

(** schedulercache.NewNodeInfo(pods...) walks over every pod it is given. *)
Definition NewNodeInfo (pods : list PodRef) : M KubeNodeInfo :=
  traverse readPod pods ;;; ret (mkKubeNodeInfo pods None).

Definition SetNode (k : KubeNodeInfo) (node : Node) : KubeNodeInfo :=
  mkKubeNodeInfo (kniPods k) (Some node).

(** predicateChecker.CheckPredicates(pod, kubeNodeInfo): the predicates see
    the pod and the node's pods as they are when the check runs. *)
Definition CheckPredicates (predicateChecker : PredicateChecker)
    (pod : PodRef) (k : KubeNodeInfo) : M error :=
  v <- readPod pod ;;
  vs <- traverse readPod (kniPods k) ;;
  match kniNode k with
  | Some node => ret (predicateChecker v node vs)
  | None => ret (Some (Errorf "node not found" []))
  end.

(** Modelled from the spec: nodes.NodeInfoArray.CopyNodeInfos is not under
    src/.  The spec (4.5, 9) has it produce an independent deep copy of the
    array: new NodeInfo values with pod collections of their own, sharing no
    mutable storage with the original.  The source shows that it can fail
    (it returns an error next to the array); when the client reports an
    error nothing is copied. *)
Definition copyNodeInfo (r : NodeInfoRef) : M NodeInfoRef :=
  v <- readNodeInfo r ;; allocNodeInfo (mkNodeInfo (Node_ v) (Pods v)).

Definition CopyNodeInfos (client : KubeClient) (n : NodeInfoArray)
  : M (NodeInfoArray * error) :=
  err <- ask (CallCopyNodeInfos n) (copyNodeInfosError client) ;;
  match err with
  | Some e => ret ([], Some e)
  | None => arr <- traverse copyNodeInfo n ;; ret (arr, None)
  end.

(** Modelled from the spec: nodes.NodeInfo.AddPod is not under src/.  The
    spec (4.5 step 2) has it append the pod to the NodeInfo's tentative pod
    set. *)
Definition AddPod (client : KubeClient) (n : NodeInfoRef) (pod : PodRef)
  : M unit :=
  v <- readNodeInfo n ;; writeNodeInfo n (mkNodeInfo (Node_ v) (Pods v ++ [pod])).

(** nodes.NodeMap: the NodeInfoArray of each role. *)
Inductive NodeType := OnDemand | Spot.

Record NodeMap := mkNodeMap {
  onDemandInfos : NodeInfoArray;
  spotInfos : NodeInfoArray
}.

Definition nodeMapGet (m : NodeMap) (t : NodeType) : NodeInfoArray :=
  match t with OnDemand => onDemandInfos m | Spot => spotInfos m end.

Definition hasLabel (key : string) (node : Node) : bool :=
  existsb (String.eqb key) (nodeLabels node).

(** Modelled from the spec: the node classifier (4.1) is not under src/.
    A node with the on-demand label is OnDemand, one with the spot label is
    Spot, any other node is ignored; a node with both labels is ignored
    too. *)
Definition classify (flags : Flags) (node : Node) : option NodeType :=
  match hasLabel (OnDemandNodeLabel flags) node,
        hasLabel (SpotNodeLabel flags) node with
  | true, false => Some OnDemand
  | false, true => Some Spot
  | _, _ => None
  end.

(** Modelled from the spec: nodes.NewNodeMap (4.2) is not under src/.  Each
    classified node becomes a NodeInfo holding the pods bound to it, in the
    order of the node listing; a failed pod listing fails the whole build
    and publishes no map. *)
Fixpoint buildNodeMap (flags : Flags) (client : KubeClient)
    (nodes : list Node) (acc : NodeMap) : M (NodeMap * error) :=
  match nodes with
  | [] => ret (acc, None)
  | node :: rest =>
      match classify flags node with
      | None =>
          glogInfof "Ignoring node %s." [AStr (nodeName node)] ;;;
          buildNodeMap flags client rest acc
      | Some role =>
          listed <- ask (CallListPodsOnNode (nodeName node))
                        (fun h => podsOnNode client h (nodeName node)) ;;
          match snd listed with
          | Some e => ret (mkNodeMap [] [], Some e)
          | None =>
              pods <- traverse allocPod (fst listed) ;;
              r <- allocNodeInfo (mkNodeInfo node pods) ;;
              buildNodeMap flags client rest
                (match role with
                 | OnDemand => mkNodeMap (onDemandInfos acc ++ [r]) (spotInfos acc)
                 | Spot => mkNodeMap (onDemandInfos acc) (spotInfos acc ++ [r])
                 end)
          end
      end
  end.

Definition NewNodeMap (flags : Flags) (client : KubeClient) (nodes : list Node)
  : M (NodeMap * error) :=
  buildNodeMap flags client nodes (mkNodeMap [] []).

(** Modelled from the spec: the metrics package is not under src/; each
    update is a fire-and-forget write to the metrics sink (6). *)
Definition metricsUpdateNodesMap (m : NodeMap) : M unit :=
  emit (MetricUpdate (UpdateNodesMap (length (onDemandInfos m))
                                     (length (spotInfos m)))).

Definition metricsUpdateNodePodsCount (label node : string) (count : nat)
  : M unit :=
  emit (MetricUpdate (UpdateNodePodsCount label node count)).

Definition metricsUpdateNodeDrainCount (result node : string) : M unit :=
  emit (MetricUpdate (UpdateNodeDrainCount result node)).

(** autoscaler_drain.GetPodsForDeletionOnNodeDrain reads the pods it is
    given and answers with the ones that have to move, or an error. *)
Definition GetPodsForDeletionOnNodeDrain (env : Environment)
    (pods : list PodRef) (pdbs : list PodDisruptionBudget) (now : Time)
  : M (list PodRef * error) :=
  vs <- traverse readPod pods ;;
  emit (Request (CallGetPodsForDeletion pods)) ;;;
  ret (podsForDeletionOnNodeDrain env (combine pods vs) pdbs now).

(** Modelled from the spec: drain.DrainNode is not under src/.  The drain
    executor (6) is one blocking request; it answers success or an error.
    The request records the pod objects as the executor finds them. *)
Definition DrainNode (client : KubeClient) (node : Node) (pods : list PodRef)
    (maxGracefulTermination : Z) (podEvictionTimeout : Duration) : M error :=
  seen <- traverse readPod pods ;;
  ask (CallDrainNode (nodeName node) pods seen maxGracefulTermination
                     podEvictionTimeout)
      (drainNodeResult client).

(** ** rescheduler.go *)

Section Rescheduler.

(** podId is defined in a file that is not under src/: it names a pod. *)
Variable podId : Pod -> string.

Variable flags : Flags.
Variable env : Environment.

(** Lines 261-275. *)
Fixpoint findSpotNodeForPod (client : KubeClient)
    (predicateChecker : PredicateChecker) (nodeInfos : NodeInfoArray)
    (pod : PodRef) : M (option NodeInfoRef) :=
  match nodeInfos with
  | [] => ret None
  | nodeInfo :: rest =>
      ni <- readNodeInfo nodeInfo ;;
      k <- NewNodeInfo (Pods ni) ;;
      let kubeNodeInfo := SetNode k (Node_ ni) in
      (* Pretend pod isn't scheduled *)
      writePodNodeName pod "" ;;;
      err <- CheckPredicates predicateChecker pod kubeNodeInfo ;;
      match err with
      | None => ret (Some nodeInfo)
      | Some _ => findSpotNodeForPod client predicateChecker rest pod
      end
  end.

(** Lines 287-298: the loop over the pods, on the copy. *)
Fixpoint planPods (kubeClient : KubeClient)
    (predicateChecker : PredicateChecker) (nodePlan : NodeInfoArray)
    (pods : list PodRef) : M error :=
  match pods with
  | [] => ret None
  | pod :: rest =>
      spotNodeInfo <- findSpotNodeForPod kubeClient predicateChecker nodePlan pod ;;
      match spotNodeInfo with
      | None =>
          v <- readPod pod ;;
          ret (Some (Errorf "Pod %s can't be rescheduled on any existing spot node."
                            [podId v]))
      | Some n =>
          v <- readPod pod ;;
          ni <- readNodeInfo n ;;
          glogInfof "Pod %s can be rescheduled on %v, adding to plan."
                    [AStr (podId v); AStr (nodeName (Node_ ni))] ;;;
          AddPod kubeClient n pod ;;;
          planPods kubeClient predicateChecker nodePlan rest
      end
  end.

(** Lines 279-299. *)
Definition buildDrainPlan (kubeClient : KubeClient)
    (predicateChecker : PredicateChecker) (nodeInfos : NodeInfoArray)
    (pods : list PodRef) : M error :=
  copied <- CopyNodeInfos kubeClient nodeInfos ;;
  match snd copied with
  | Some e => ret (Some e)
  | None => planPods kubeClient predicateChecker (fst copied) pods
  end.

(** Lines 303-314. *)
Definition drainNode (kubeClient : KubeClient) (node : Node)
    (pods : list PodRef) (maxGracefulTermination : Z)
    (podEvictionTimeout : Duration) : M error :=
  err <- DrainNode kubeClient node pods maxGracefulTermination podEvictionTimeout ;;
  match err with
  | Some e =>
      metricsUpdateNodeDrainCount "Failure" (nodeName node) ;;;
      now <- ask CallTimeNow (timeNow env) ;;
      setNextDrainTime (now + nodeDrainDelay flags) ;;;
      ret (Some e)
  | None =>
      metricsUpdateNodeDrainCount "Success" (nodeName node) ;;;
      now <- ask CallTimeNow (timeNow env) ;;
      setNextDrainTime (now + nodeDrainDelay flags) ;;;
      ret None
  end.

(** Lines 319-330. *)
Fixpoint updateSpotNodeMetrics (spotNodeInfos : NodeInfoArray)
    (pdbs : list PodDisruptionBudget) : M unit :=
  match spotNodeInfos with
  | [] => ret tt
  | nodeInfo :: rest =>
      ni <- readNodeInfo nodeInfo ;;
      now <- ask CallTimeNow (timeNow env) ;;
      found <- GetPodsForDeletionOnNodeDrain env (Pods ni) pdbs now ;;
      match snd found with
      | Some e =>
          glogErrorf "Failed to get pods on spot node: %v" [AErr e] ;;;
          updateSpotNodeMetrics rest pdbs
      | None =>
          metricsUpdateNodePodsCount (SpotNodeLabel flags) (nodeName (Node_ ni))
                                     (length (fst found)) ;;;
          updateSpotNodeMetrics rest pdbs
      end
  end.

(** Lines 189-223: the loop over the on-demand nodes. *)
Fixpoint processOnDemandNodes (kubeClient : KubeClient)
    (predicateChecker : PredicateChecker) (spotNodeInfos : NodeInfoArray)
    (allPDBs : list PodDisruptionBudget) (onDemandNodeInfos : NodeInfoArray)
  : M unit :=
  match onDemandNodeInfos with
  | [] => ret tt
  | nodeInfo :: rest =>
      ni <- readNodeInfo nodeInfo ;;
      now <- ask CallTimeNow (timeNow env) ;;
      found <- GetPodsForDeletionOnNodeDrain env (Pods ni) allPDBs now ;;
      let podsForDeletion := fst found in
      match snd found with
      | Some e =>
          glogErrorf "Failed to get pods for consideration: %v" [AErr e] ;;;
          processOnDemandNodes kubeClient predicateChecker spotNodeInfos allPDBs rest
      | None =>
          metricsUpdateNodePodsCount (OnDemandNodeLabel flags)
            (nodeName (Node_ ni)) (length podsForDeletion) ;;;
          if (length podsForDeletion <? 1)%nat then
            glogInfof "No pods on %s, skipping." [AStr (nodeName (Node_ ni))] ;;;
            processOnDemandNodes kubeClient predicateChecker spotNodeInfos allPDBs rest
          else
            glogInfof "Considering %s for removal" [AStr (nodeName (Node_ ni))] ;;;
            err <- buildDrainPlan kubeClient predicateChecker spotNodeInfos
                                  podsForDeletion ;;
            match err with
            | Some e =>
                glogErrorf "Failed to build plan: %v" [AErr e] ;;;
                processOnDemandNodes kubeClient predicateChecker spotNodeInfos
                                     allPDBs rest
            | None =>
                glogInfof "All pods on %v can be moved. Will drain node."
                          [AStr (nodeName (Node_ ni))] ;;;
                err <- drainNode kubeClient (Node_ ni) podsForDeletion
                         (wholeSeconds (maxGracefulTermination flags))
                         (podEvictionTimeout flags) ;;
                match err with
                | Some e => glogErrorf "Failed to drain node: %v" [AErr e]
                | None => ret tt
                end
                (* break *)
            end
      end
  end.

(** Lines 165-225 of main: the cycle, once the node map is built. *)
Definition reschedule (kubeClient : KubeClient)
    (predicateChecker : PredicateChecker) (nodeMap : NodeMap) : M unit :=
  (* Update metrics *)
  metricsUpdateNodesMap nodeMap ;;;
  (* Get PodDisruptionBudgets *)
  allPDBs <- ask CallListPDBs (podDisruptionBudgetLister env) ;;
  match snd allPDBs with
  | Some e => glogErrorf "Failed to list PDBs: %v" [AErr e]
  | None =>
      let onDemandNodeInfos := nodeMapGet nodeMap OnDemand in
      let spotNodeInfos := nodeMapGet nodeMap Spot in
      (* Update spot node metrics *)
      updateSpotNodeMetrics spotNodeInfos (fst allPDBs) ;;;
      (if (length onDemandNodeInfos <? 1)%nat
       then glogInfof "No nodes to process." []
       else ret tt) ;;;
      processOnDemandNodes kubeClient predicateChecker spotNodeInfos
                           (fst allPDBs) onDemandNodeInfos ;;;
      glogInfof "Finished processing nodes." []
  end.

(** Lines 149-163 of main: the cycle, once it is past the two gates. *)
Definition processNodes (kubeClient : KubeClient)
    (predicateChecker : PredicateChecker) : M unit :=
  glogInfof "Starting node processing." [] ;;;
  (* Get all nodes in the cluster *)
  allNodes <- ask CallListNodes (nodeLister env) ;;
  match snd allNodes with
  | Some e => glogErrorf "Failed to list nodes: %v" [AErr e]
  | None =>
      (* Build a map of nodeInfo structs *)
      built <- NewNodeMap flags kubeClient (fst allNodes) ;;
      match snd built with
      | Some e => glogErrorf "Failed to build node map; %v" [AErr e]
      | None => reschedule kubeClient predicateChecker (fst built)
      end
  end.

(** Lines 132-226: what main does at one tick of the housekeeping timer. *)
Definition housekeeping (kubeClient : KubeClient)
    (predicateChecker : PredicateChecker) : M unit :=
  (* Don't do anything if we are waiting for the drain delay timer *)
  t <- getNextDrainTime ;;
  remaining <- timeUntil env t ;;
  if 0 <? remaining then
    t <- getNextDrainTime ;;
    remaining <- timeUntil env t ;;
    glogInfof "Waiting %s for drain delay timer." [ADur remaining]
  else
    (* Don't run if pods are unschedulable *)
    unschedulable <- ask CallListUnschedulablePods (unschedulablePodLister env) ;;
    match snd unschedulable with
    | Some e => glogErrorf "Failed to get unschedulable pods: %v" [AErr e]
    | None => ret tt
    end ;;;
    if (0 <? length (fst unschedulable))%nat then
      glogInfof "Waiting for unschedulable pods to be scheduled." []
    else
      processNodes kubeClient predicateChecker.

(** The loop of main, cut off after [n] ticks. *)
Fixpoint mainLoop (kubeClient : KubeClient)
    (predicateChecker : PredicateChecker) (n : nat) : M unit :=
  match n with
  | O => ret tt
  | S n' =>
      housekeeping kubeClient predicateChecker ;;;
      mainLoop kubeClient predicateChecker n'
  end.

End Rescheduler.

(** ** The earlier version of the control loop (second half of the file) *)

Module Legacy.
Section Rescheduler.

Variable podId : Pod -> string.

(** Modelled from the spec: copyNodeInfos of the earlier version is not
    under src/; it is the same independent deep copy (4.5, 9). *)
Definition copyNodeInfos (client : KubeClient) (n : NodeInfoArray)
  : M (NodeInfoArray * error) :=
  err <- ask (CallCopyNodeInfos n) (copyNodeInfosError client) ;;
  match err with
  | Some e => ret ([], Some e)
  | None => arr <- traverse copyNodeInfo n ;; ret (arr, None)
  end.

(** Modelled from the spec: addPod of the earlier version is not under
    src/; it appends the pod to the NodeInfo's pod set (4.5 step 2). *)
Definition addPod (client : KubeClient) (n : NodeInfoRef) (pod : PodRef)
  : M unit :=
  v <- readNodeInfo n ;; writeNodeInfo n (mkNodeInfo (Node_ v) (Pods v ++ [pod])).

(** Lines 574-588. *)
Fixpoint findSpotNodeForPod (client : KubeClient)
    (predicateChecker : PredicateChecker) (nodeInfos : NodeInfoArray)
    (pod : PodRef) : M (option NodeInfoRef) :=
  match nodeInfos with
  | [] => ret None
  | nodeInfo :: rest =>
      ni <- readNodeInfo nodeInfo ;;
      k <- NewNodeInfo (Pods ni) ;;
      let kubeNodeInfo := SetNode k (Node_ ni) in
      (* Pretend pod isn't scheduled *)
      writePodNodeName pod "" ;;;
      err <- CheckPredicates predicateChecker pod kubeNodeInfo ;;
      match err with
      | None => ret (Some nodeInfo)
      | Some _ => findSpotNodeForPod client predicateChecker rest pod
      end
  end.

(** Lines 509-525: the loop over the pods of one on-demand node; the
    result is the flag unmoveablePods. *)
Fixpoint considerPods (kubeClient : KubeClient)
    (predicateChecker : PredicateChecker) (nodePlan : NodeInfoArray)
    (podsForDeletion : list PodRef) : M bool :=
  match podsForDeletion with
  | [] => ret false
  | pod :: rest =>
      spotNodeInfo <- findSpotNodeForPod kubeClient predicateChecker nodePlan pod ;;
      match spotNodeInfo with
      | None =>
          v <- readPod pod ;;
          glogInfof "Pod %s can't be rescheduled on any existing spot node. This node cannot be drained."
                    [AStr (podId v)] ;;;
          ret true
      | Some n =>
          v <- readPod pod ;;
          ni <- readNodeInfo n ;;
          glogInfof "Pod %s can be rescheduled on %v, adding to plan."
                    [AStr (podId v); AStr (nodeName (Node_ ni))] ;;;
          addPod kubeClient n pod ;;;
          considerPods kubeClient predicateChecker nodePlan rest
      end
  end.

(** Lines 491-495 and 509-525: the plan of one on-demand node, for pods
    already chosen.  [None]: the copy failed and the pod loop did not run. *)
Definition planNode (kubeClient : KubeClient)
    (predicateChecker : PredicateChecker) (spotNodeInfos : NodeInfoArray)
    (podsForDeletion : list PodRef) : M (option bool) :=
  copied <- copyNodeInfos kubeClient spotNodeInfos ;;
  match snd copied with
  | Some e => glogErrorf "Failed to build plan; %v" [AErr e] ;;; ret None
  | None =>
      unmoveablePods <- considerPods kubeClient predicateChecker (fst copied)
                                     podsForDeletion ;;
      ret (Some unmoveablePods)
  end.

(** *** The cycle of the earlier version *)

Variable env : Environment.

(** drain.MaxPodEvictionTime is a constant of a package that is not under
    src/. *)
Variable MaxPodEvictionTime : Duration.

(** Lines 377-378: the earlier version has its two labels as constants. *)
Definition workerNodeLabel : string := "node-role.kubernetes.io/worker".
Definition spotNodeLabel : string := "node-role.kubernetes.io/spot-worker".

(** Modelled from the spec: newNodeMap of the earlier version is not under
    src/; it is the node map of 4.2, built with the two constant labels. *)
Definition newNodeMap (client : KubeClient) (nodes : list Node)
  : M (NodeMap * error) :=
  buildNodeMap (mkFlags 0 0 0 0 workerNodeLabel spotNodeLabel) client nodes
               (mkNodeMap [] []).

(** Lines 486-538: the loop over the on-demand nodes.  The spot array is
    copied before the pods of the node are looked at. *)
Fixpoint processOnDemandNodes (kubeClient : KubeClient)
    (predicateChecker : PredicateChecker) (spotNodeInfos : NodeInfoArray)
    (allPDBs : list PodDisruptionBudget) (onDemandNodeInfos : NodeInfoArray)
  : M unit :=
  match onDemandNodeInfos with
  | [] => ret tt
  | nodeInfo :: rest =>
      copied <- copyNodeInfos kubeClient spotNodeInfos ;;
      match snd copied with
      | Some e =>
          glogErrorf "Failed to build plan; %v" [AErr e] ;;;
          processOnDemandNodes kubeClient predicateChecker spotNodeInfos allPDBs rest
      | None =>
          let nodePlan := fst copied in
          ni <- readNodeInfo nodeInfo ;;
          now <- ask CallTimeNow (timeNow env) ;;
          found <- GetPodsForDeletionOnNodeDrain env (Pods ni) allPDBs now ;;
          let podsForDeletion := fst found in
          match snd found with
          | Some e =>
              glogErrorf "Failed to get pods for consideration: %v" [AErr e] ;;;
              processOnDemandNodes kubeClient predicateChecker spotNodeInfos
                                   allPDBs rest
          | None =>
              if (length podsForDeletion <? 1)%nat then
                (* Nothing to do here *)
                glogInfof "No pods on %s, skipping." [AStr (nodeName (Node_ ni))] ;;;
                processOnDemandNodes kubeClient predicateChecker spotNodeInfos
                                     allPDBs rest
              else
                glogInfof "Considering %s for removal"
                          [AStr (nodeName (Node_ ni))] ;;;
                unmoveablePods <- considerPods kubeClient predicateChecker
                                               nodePlan podsForDeletion ;;
                if negb unmoveablePods then
                  glogInfof "All pods on %v can be moved. Will drain node."
                            [AStr (nodeName (Node_ ni))] ;;;
                  (* Drain the node *)
                  err <- DrainNode kubeClient (Node_ ni) podsForDeletion 60
                                   MaxPodEvictionTime ;;
                  match err with
                  | Some e => glogErrorf "Failed to drain node: %v" [AErr e]
                  | None => ret tt
                  end
                  (* break *)
                else
                  processOnDemandNodes kubeClient predicateChecker spotNodeInfos
                                       allPDBs rest
          end
      end
  end.

(** Lines 452-541: what main of the earlier version does at one tick. *)
Definition housekeeping (kubeClient : KubeClient)
    (predicateChecker : PredicateChecker) : M unit :=
  glogInfof "Starting node processing." [] ;;;
  (* All nodes in the cluster *)
  allNodes <- ask CallListNodes (nodeLister env) ;;
  match snd allNodes with
  | Some e => glogErrorf "Failed to list nodes: %v" [AErr e]
  | None =>
      (* Build a map of nodeInfo structs *)
      built <- newNodeMap kubeClient (fst allNodes) ;;
      match snd built with
      | Some e => glogErrorf "Failed to build node map; %v" [AErr e]
      | None =>
          let nodeMap := fst built in
          (* Get PodDisruptionBudgets *)
          allPDBs <- ask CallListPDBs (podDisruptionBudgetLister env) ;;
          match snd allPDBs with
          | Some e => glogErrorf "Failed to list PDBs: %v" [AErr e]
          | None =>
              (* Get onDemand and spot nodeInfos *)
              let onDemandNodeInfos := nodeMapGet nodeMap OnDemand in
              let spotNodeInfos := nodeMapGet nodeMap Spot in
              (if (length onDemandNodeInfos <? 1)%nat
               then glogInfof "No nodes to process." []
               else ret tt) ;;;
              processOnDemandNodes kubeClient predicateChecker spotNodeInfos
                                   (fst allPDBs) onDemandNodeInfos ;;;
              glogInfof "Finished processing nodes." []
          end
      end
  end.

(** The loop of main of the earlier version, cut off after [n] ticks. *)
Fixpoint mainLoop (kubeClient : KubeClient)
    (predicateChecker : PredicateChecker) (n : nat) : M unit :=
  match n with
  | O => ret tt
  | S n' =>
      housekeeping kubeClient predicateChecker ;;;
      mainLoop kubeClient predicateChecker n'
  end.

End Rescheduler.
End Legacy.

(** ** Reading a world *)

(** The pod objects behind a list of pointers, if all of them are allocated. *)
Fixpoint lookupPods (w : World) (ps : list PodRef) : option (list Pod) :=
  match ps with
  | [] => Some []
  | p :: ps' =>
      match podHeap w !! p, lookupPods w ps' with
      | Some v, Some vs => Some (v :: vs)
      | _, _ => None
      end
  end.

(** The pod set of a NodeInfo. *)
Definition podsOf (w : World) (r : NodeInfoRef) : option (list PodRef) :=
  match nodeInfoHeap w !! r with
  | Some ni => Some (Pods ni)
  | None => None
  end.

(** The predicates accept [pod] on the NodeInfo [r], as both are in [w]. *)
Definition feasible (predicateChecker : PredicateChecker) (w : World)
    (pod : PodRef) (r : NodeInfoRef) : bool :=
  match nodeInfoHeap w !! r, podHeap w !! pod with
  | Some ni, Some v =>
      match lookupPods w (Pods ni) with
      | Some vs =>
          match predicateChecker v (Node_ ni) vs with
          | None => true
          | Some _ => false
          end
      | None => false
      end
  | _, _ => false
  end.

(** The world after [pod.Spec.NodeName = ""]. *)
Definition clearNodeName (pod : PodRef) (w : World) : World :=
  match podHeap w !! pod with
  | Some v => mkWorld (<[pod := setSpecNodeName v ""]> (podHeap w))
                      (nodeInfoHeap w) (nextDrainTime w) (history w)
  | None => w
  end.

(** The world after [pod] was appended to the pod set of the NodeInfo [r]. *)
Definition placePod (r : NodeInfoRef) (pod : PodRef) (w : World) : World :=
  match nodeInfoHeap w !! r with
  | Some ni => mkWorld (podHeap w)
                       (<[r := mkNodeInfo (Node_ ni) (Pods ni ++ [pod])]>
                          (nodeInfoHeap w))
                       (nextDrainTime w) (history w)
  | None => w
  end.

(** ** Reading a history *)


(** How many events of a kind a history holds. *)
Fixpoint count (f : Event -> bool) (h : History) : nat :=
  match h with
  | [] => O
  | e :: h' => ((if f e then 1 else 0) + count f h')%nat
  end.


Definition isDrain (e : Event) : bool :=
  match e with
  | Request (CallDrainNode _ _ _ _ _) => true
  | _ => false
  end.

Definition isMetric (e : Event) : bool :=
  match e with
  | MetricUpdate _ => true
  | _ => false
  end.

Definition isNodeMapBuild (e : Event) : bool :=
  match e with
  | Request (CallListPodsOnNode _) => true
  | MetricUpdate (UpdateNodesMap _ _) => true
  | _ => false
  end.

Definition isPlanning (e : Event) : bool :=
  match e with
  | Request (CallCopyNodeInfos _) => true
  | _ => false
  end.

(** ** A small cluster to run the definitions on *)

Module Example.

Definition podId (v : Pod) : string := podNamespace v ++ "/" ++ podName v.

(** A pod fits when the node has the CPU it requests left. *)
Definition cpuFits : PredicateChecker := fun pod node pods =>
  if fold_right Z.add 0 (map podRequestCPU pods) + podRequestCPU pod
       <=? nodeAllocatableCPU node
  then None
  else Some (Errorf "Insufficient cpu" []).

Definition flags : Flags :=
  mkFlags 10000000000 600000000000 120000000000 120000000000
          "node-role.kubernetes.io/worker" "node-role.kubernetes.io/spot-worker".

Definition podA := mkPod "default" "a" "worker-1" 1000.
Definition podB := mkPod "default" "b" "worker-1" 1000.
Definition podS := mkPod "default" "s" "spot-1" 1000.

Definition worker1 := mkNode "worker-1" ["node-role.kubernetes.io/worker"] 4000.
Definition spot1 := mkNode "spot-1" ["node-role.kubernetes.io/spot-worker"] 2000.
Definition spot2 := mkNode "spot-2" ["node-role.kubernetes.io/spot-worker"] 1000.

(** Pods 0 and 1 run on worker-1, pod 2 on spot-1; NodeInfo 0 is worker-1,
    1 is spot-1 (1 CPU free) and 2 is spot-2 (1 CPU free). *)
Definition world0 : World :=
  mkWorld [podA; podB; podS]
          [mkNodeInfo worker1 [0%nat; 1%nat]; mkNodeInfo spot1 [2%nat];
           mkNodeInfo spot2 []]
          0 [].

Definition okClient : KubeClient :=
  mkKubeClient
    (fun _ node =>
       if String.eqb node "worker-1" then ([podA; podB], None)
       else if String.eqb node "spot-1" then ([podS], None)
       else ([], None))
    (fun _ => None)
    (fun _ => None).

Definition brokenClient : KubeClient :=
  mkKubeClient (fun _ _ => ([], None))
               (fun _ => Some (Errorf "connection refused" []))
               (fun _ => Some (Errorf "eviction timed out" [])).

(** The clock stands at [t]; the node lister knows the three nodes; every
    pod it is asked about has to move. *)
Definition envAt (t : Time) (unschedulable : list Pod * error) : Environment :=
  mkEnvironment (fun _ => t) (fun _ => unschedulable)
                (fun _ => ([worker1; spot1; spot2], None))
                (fun _ => ([], None))
                (fun pods _ _ => (map fst pods, None)).

(** The plan of worker-1 against both spot nodes, step by step. *)
Definition copied : World :=
  worldOf (CopyNodeInfos okClient [1%nat; 2%nat] world0).
Definition placedA : World :=
  worldOf (planPods podId okClient cpuFits [3%nat; 4%nat] [0%nat] copied).


End Example.

(** * Relations between worlds, and readings of a history *)

(** [preserves R m]: whatever [m] does, and however it ends, the world it
    leaves is related by [R] to the one it started in. *)
Definition preserves {A} (R : relation World) (m : M A) : Prop :=
  forall w, R w (worldOf (m w)).

(** [keeps proj]: a part of the world is the same before and after. *)
Definition keeps {B} (proj : World -> B) : relation World :=
  fun w w' => proj w' = proj w.

(** [frames n]: the first [n] NodeInfo objects are where and what they
    were. *)
Definition frames (n : nat) : relation World :=
  fun w w' =>
    (n <= length (nodeInfoHeap w))%nat ->
    (n <= length (nodeInfoHeap w'))%nat /\
    take n (nodeInfoHeap w') = take n (nodeInfoHeap w).

(** The first NodeInfo of an array, in its order, that the predicates
    accept. *)
Fixpoint firstFeasible (predicateChecker : PredicateChecker) (w : World)
    (pod : PodRef) (nodeInfos : NodeInfoArray) : option NodeInfoRef :=
  match nodeInfos with
  | [] => None
  | r :: rest =>
      if feasible predicateChecker w pod r then Some r
      else firstFeasible predicateChecker w pod rest
  end.

(** The world after one more event. *)
Definition withEvent (e : Event) (w : World) : World :=
  mkWorld (podHeap w) (nodeInfoHeap w) (nextDrainTime w) (history w ++ [e]).

(** The pod sets of the NodeInfos of an array. *)
Definition podSets (w : World) (arr : NodeInfoArray) : list (option (list PodRef)) :=
  map (podsOf w) arr.

(** The NodeInfo [r] counts [pod] among its pods. *)
Definition occupies (w : World) (r : NodeInfoRef) (pod : PodRef) : bool :=
  match podsOf w r with
  | Some ps => bool_decide (pod ∈ ps)
  | None => false
  end.

(** [keepsOccupant r pod]: a pod counted on a NodeInfo stays counted. *)
Definition keepsOccupant (r : NodeInfoRef) (pod : PodRef) : relation World :=
  fun w w' => occupies w r pod = true -> occupies w' r pod = true.

(** The pod object behind [pod] has an empty Spec.NodeName. *)
Definition nodeNameCleared (w : World) (pod : PodRef) : bool :=
  match podHeap w !! pod with
  | Some v => String.eqb (specNodeName v) ""
  | None => false
  end.

(** [keepsCleared pod]: a cleared node name stays cleared. *)
Definition keepsCleared (pod : PodRef) : relation World :=
  fun w w' => nodeNameCleared w pod = true -> nodeNameCleared w' pod = true.

(** Two outcomes that agree on everything a plan is: both panic in the same
    world, or both return, with nil on the one side exactly when the flag is
    false on the other, with the same heaps, and in the same world when the
    plan succeeded. *)
Definition samePlan (o : Outcome error) (o' : Outcome bool) : Prop :=
  match o, o' with
  | Returns err wa, Returns unmoveablePods wb =>
      (err = None <-> unmoveablePods = false) /\
      podHeap wa = podHeap wb /\
      nodeInfoHeap wa = nodeInfoHeap wb /\
      nextDrainTime wa = nextDrainTime wb /\
      (err = None -> wa = wb)
  | Panics wa, Panics wb => wa = wb
  | _, _ => False
  end.

(** [emitsOnly P]: the history grew, and only by events that satisfy [P]. *)
Definition emitsOnly (P : Event -> bool) : relation World :=
  fun w w' => exists evs, history w' = history w ++ evs /\ forallb P evs = true.

Definition notDrain (e : Event) : bool := negb (isDrain e).

(** How many drain requests a world has seen. *)
Definition drainAttempts (w : World) : nat := count isDrain (history w).

(** [atMostOneDrain]: at most one drain request was added. *)
Definition atMostOneDrain : relation World :=
  fun w w' => (drainAttempts w' <= drainAttempts w + 1)%nat.

(** The world after some more events. *)
Definition withEvents (evs : list Event) (w : World) : World :=
  mkWorld (podHeap w) (nodeInfoHeap w) (nextDrainTime w) (history w ++ evs).

(** [grows]: both heaps are what they were, with new objects after them. *)
Definition grows : relation World :=
  fun w w' =>
    (exists ps, podHeap w' = podHeap w ++ ps) /\
    (exists ns, nodeInfoHeap w' = nodeInfoHeap w ++ ns).


Definition isPodCount (e : Event) : bool :=
  match e with
  | MetricUpdate (UpdateNodePodsCount _ _ _) => true
  | _ => false
  end.

(** A NodeInfo reference that can be read, with pods that can be read. *)
Definition allocated (w : World) (r : NodeInfoRef) : bool :=
  match nodeInfoHeap w !! r with
  | Some ni =>
      match lookupPods w (Pods ni) with Some _ => true | None => false end
  | None => false
  end.

Definition mapAllocated (w : World) (m : NodeMap) : Prop :=
  Forall (fun r => allocated w r = true) (onDemandInfos m) /\
  Forall (fun r => allocated w r = true) (spotInfos m).

(** ** The worlds a cycle goes through *)

Section Readings.
Variable podId : Pod -> string.
Variable flags : Flags.
Variable env : Environment.
Variable client : KubeClient.
Variable pc : PredicateChecker.
Variable spot : NodeInfoArray.
Variable pdbs : list PodDisruptionBudget.

(** The line the plan writes to the log when it places [v] on [ni]. *)
Definition placementLine (v : Pod) (ni : NodeInfo) : Event :=
  LogInfo "Pod %s can be rescheduled on %v, adding to plan."
          [AStr (podId v); AStr (nodeName (Node_ ni))].

(** What drainNode does, when the pods it is handed are allocated: one
    request to the executor, one count of the outcome, one reading of the
    clock, and the deadline. *)
Definition drainRequest (node : Node) (pods : list PodRef) (seen : list Pod)
    (grace : Z) (timeout : Duration) : Event :=
  Request (CallDrainNode (nodeName node) pods seen grace timeout).

Definition drainOutcomeLabel (err : error) : string :=
  match err with Some _ => "Failure" | None => "Success" end.

Definition afterDrain (node : Node) (pods : list PodRef) (seen : list Pod)
    (grace : Z) (timeout : Duration) (w : World) : World :=
  let h1 := history w ++ [drainRequest node pods seen grace timeout] in
  let err := drainNodeResult client h1 in
  let h2 := h1 ++ [MetricUpdate (UpdateNodeDrainCount (drainOutcomeLabel err)
                                                      (nodeName node))] in
  let h3 := h2 ++ [Request CallTimeNow] in
  mkWorld (podHeap w) (nodeInfoHeap w)
          (timeNow env h3 + nodeDrainDelay flags) h3.

(** What the filter answers for the pods of a NodeInfo, asked in [w]. *)
Definition candidates (w : World) (ni : NodeInfo) (vs : list Pod)
  : list PodRef * error :=
  podsForDeletionOnNodeDrain env (combine (Pods ni) vs) pdbs
    (timeNow env (history w ++ [Request CallTimeNow])).

(** The world in which the loop goes on when the filter fails. *)
Definition filterFailed (w : World) (ni : NodeInfo) (e : GoError) : World :=
  withEvents [Request CallTimeNow; Request (CallGetPodsForDeletion (Pods ni));
              LogError "Failed to get pods for consideration: %v" [AErr e]] w.

(** The world in which the loop goes on when a node has nothing to move. *)
Definition skipped (w : World) (ni : NodeInfo) : World :=
  withEvents [Request CallTimeNow; Request (CallGetPodsForDeletion (Pods ni));
              MetricUpdate (UpdateNodePodsCount (OnDemandNodeLabel flags)
                                                (nodeName (Node_ ni)) 0);
              LogInfo "No pods on %s, skipping." [AStr (nodeName (Node_ ni))]] w.

(** The world in which the plan for the pods [found] of a node is built. *)
Definition considered (w : World) (ni : NodeInfo) (found : list PodRef) : World :=
  withEvents [Request CallTimeNow; Request (CallGetPodsForDeletion (Pods ni));
              MetricUpdate (UpdateNodePodsCount (OnDemandNodeLabel flags)
                              (nodeName (Node_ ni)) (length found));
              LogInfo "Considering %s for removal" [AStr (nodeName (Node_ ni))]] w.

Definition planFailed (e : GoError) (w1 : World) : World :=
  withEvents [LogError "Failed to build plan: %v" [AErr e]] w1.

Definition willDrain (ni : NodeInfo) : Event :=
  LogInfo "All pods on %v can be moved. Will drain node."
          [AStr (nodeName (Node_ ni))].

(** What the clock answers to the cooldown check of a cycle started in [w]. *)
Definition cycleStart (w : World) : Time :=
  timeNow env (history w ++ [Request CallTimeNow]).

(** The world a cycle leaves when it waits for the drain delay timer. *)
Definition waited (w : World) : World :=
  withEvents
    [Request CallTimeNow; Request CallTimeNow;
     LogInfo "Waiting %s for drain delay timer."
       [ADur (timeSub (nextDrainTime w)
                (timeNow env (history w ++ [Request CallTimeNow;
                                            Request CallTimeNow])))]] w.

(** What the lister of unschedulable pods answers in a cycle started in [w]. *)
Definition unschedulableAt (w : World) : list Pod * error :=
  unschedulablePodLister env
    (history w ++ [Request CallTimeNow; Request CallListUnschedulablePods]).

Definition listingLog (err : error) : list Event :=
  match err with
  | Some e => [LogError "Failed to get unschedulable pods: %v" [AErr e]]
  | None => []
  end.

(** The world of a cycle after its two gates. *)
Definition pastGates (w : World) : World :=
  withEvents ([Request CallTimeNow; Request CallListUnschedulablePods]
              ++ listingLog (snd (unschedulableAt w))) w.

(** The world a cycle leaves when it waits for unschedulable pods. *)
Definition gated (w : World) : World :=
  withEvents [LogInfo "Waiting for unschedulable pods to be scheduled." []]
             (pastGates w).

(** The world in which the nodes are listed, and what the lister answers. *)
Definition listingNodes (w : World) : World :=
  withEvents [LogInfo "Starting node processing." []; Request CallListNodes] w.

Definition nodesAt (w : World) : list Node * error :=
  nodeLister env (history (listingNodes w)).

(** The world in which the budgets are listed, and what the lister answers. *)
Definition listingPDBs (nodeMap : NodeMap) (w : World) : World :=
  withEvents [MetricUpdate (UpdateNodesMap (length (onDemandInfos nodeMap))
                                           (length (spotInfos nodeMap)));
              Request CallListPDBs] w.

Definition pdbsAt (nodeMap : NodeMap) (w : World)
  : list PodDisruptionBudget * error :=
  podDisruptionBudgetLister env (history (listingPDBs nodeMap w)).

End Readings.

(** ** Further readings of a world *)

(** The world after [pod.Spec.NodeName = s]. *)
Definition withNodeName (pod : PodRef) (s : string) (w : World) : World :=
  match podHeap w !! pod with
  | Some v => mkWorld (<[pod := setSpecNodeName v s]> (podHeap w))
                      (nodeInfoHeap w) (nextDrainTime w) (history w)
  | None => w
  end.

(** A pod object is what it was, or what it was with its node name cleared. *)
Definition sameButNodeName (v v' : Pod) : Prop :=
  v' = v \/ v' = setSpecNodeName v "".

(** [touchesOnly pods]: no pod object was added or removed, a pod of [pods]
    differs from what it was in its node name at most, and every other pod
    is what it was. *)
Definition touchesOnly (pods : list PodRef) : relation World :=
  fun w w' =>
    length (podHeap w') = length (podHeap w) /\
    forall p v,
      podHeap w !! p = Some v ->
      exists v', podHeap w' !! p = Some v' /\ sameButNodeName v v' /\
                 (~ In p pods -> v' = v).

(** How many pods the NodeInfos of an array hold, all together. *)
Definition totalPods (w : World) (arr : NodeInfoArray) : nat :=
  fold_right (fun r n =>
                (match podsOf w r with Some ps => length ps | None => O end
                 + n)%nat) O arr.

(** ** Further readings of a history *)

Definition isDrainCount (e : Event) : bool :=
  match e with
  | MetricUpdate (UpdateNodeDrainCount _ _) => true
  | _ => false
  end.

(** An event that is neither a drain request nor a count of one. *)
Definition calmEvent (e : Event) : bool :=
  negb (isDrain e) && negb (isDrainCount e).

(** [calm]: only such events were added, and the deadline is what it was. *)
Definition calm : relation World :=
  fun w w' => emitsOnly calmEvent w w' /\ nextDrainTime w' = nextDrainTime w.

(** [balanced]: as many drain requests were added as counts of a drain. *)
Definition balanced : relation World :=
  fun w w' =>
    (drainAttempts w' + count isDrainCount (history w) =
     drainAttempts w + count isDrainCount (history w'))%nat.

(** [cooled]: no drain request was taken back; without a new one the
    deadline is what it was, and with a new one it is a reading of the clock
    plus the drain delay. *)
Definition cooled (flags : Flags) (env : Environment) : relation World :=
  fun w w' =>
    (drainAttempts w <= drainAttempts w')%nat /\
    (drainAttempts w' = drainAttempts w -> nextDrainTime w' = nextDrainTime w) /\
    ((drainAttempts w < drainAttempts w')%nat ->
     exists h, nextDrainTime w' = timeNow env h + nodeDrainDelay flags).

Definition isFilterRequest (e : Event) : bool :=
  match e with
  | Request (CallGetPodsForDeletion _) => true
  | _ => false
  end.

Definition isSpotFailure (e : Event) : bool :=
  match e with
  | LogError format _ => String.eqb format "Failed to get pods on spot node: %v"
  | _ => false
  end.

(** An event that is neither a drain request nor a metric update. *)
Definition stillEvent (e : Event) : bool :=
  negb (isDrain e) && negb (isMetric e).

(** [still]: only such events were added, and the deadline is what it was. *)
Definition still : relation World :=
  fun w w' => emitsOnly stillEvent w w' /\ nextDrainTime w' = nextDrainTime w.

(** [stillButOneDrain]: at most one drain request was added, no metric was
    written and the deadline is what it was. *)
Definition stillButOneDrain : relation World :=
  fun w w' =>
    (drainAttempts w' <= drainAttempts w + 1)%nat /\
    count isMetric (history w') = count isMetric (history w) /\
    nextDrainTime w' = nextDrainTime w.


(** [kept]: every NodeInfo object that was there is there unchanged, and
    every pod object that was there is there, changed in its node name at
    most. *)
Definition kept : relation World :=
  fun w w' =>
    (forall r ni, nodeInfoHeap w !! r = Some ni -> nodeInfoHeap w' !! r = Some ni) /\
    (forall p v, podHeap w !! p = Some v ->
                 exists v', podHeap w' !! p = Some v' /\ sameButNodeName v v').

(** The filter of eviction candidates answers only with pods it was given. *)
Definition honestFilter (env : Environment) : Prop :=
  forall pods pdbs now p,
    In p (fst (podsForDeletionOnNodeDrain env pods pdbs now)) ->
    In p (map fst pods).

(** * Reasoning about computations *)

Lemma bind_Returns {A B} (m : M A) (f : A -> M B) w a w1 :
  m w = Returns a w1 -> bind m f w = f a w1.
Proof. intros H. unfold bind. now rewrite H. Qed.

Lemma bind_Panics {A B} (m : M A) (f : A -> M B) w w1 :
  m w = Panics w1 -> bind m f w = Panics w1.
Proof. intros H. unfold bind. now rewrite H. Qed.

Section Preserves.
Context (R : relation World) `{!PreOrder R}.

Lemma preserves_ret {A} (a : A) : preserves R (ret a).
Proof. intros w. simpl. reflexivity. Qed.

Lemma preserves_panic {A} : preserves R (@panic A).
Proof. intros w. simpl. reflexivity. Qed.

Lemma preserves_bind {A B} (m : M A) (f : A -> M B) :
  preserves R m -> (forall a, preserves R (f a)) -> preserves R (bind m f).
Proof.
  intros Hm Hf w. unfold bind. specialize (Hm w).
  destruct (m w) as [a w1|w1]; simpl in *.
  - etransitivity; [exact Hm | apply Hf].
  - exact Hm.
Qed.

(** The same, when the continuation is only known to behave on the values
    the first computation really returns. *)
Lemma preserves_bind_dep {A B} (m : M A) (f : A -> M B) :
  preserves R m ->
  (forall a w w1, m w = Returns a w1 -> preserves R (f a)) ->
  preserves R (bind m f).
Proof.
  intros Hm Hf w. unfold bind. specialize (Hm w).
  destruct (m w) as [a w1|w1] eqn:E; simpl in *.
  - etransitivity; [exact Hm | eapply Hf, E].
  - exact Hm.
Qed.

Lemma preserves_traverse {A B} (f : A -> M B) (l : list A) :
  (forall x, preserves R (f x)) -> preserves R (traverse f l).
Proof.
  intros Hf. induction l as [|x l IH]; simpl.
  - apply preserves_ret.
  - apply preserves_bind; [apply Hf | intros y].
    apply preserves_bind; [exact IH | intros ys]. apply preserves_ret.
Qed.

Lemma preserves_getHistory : preserves R getHistory.
Proof. intros w. simpl. reflexivity. Qed.

Lemma preserves_readPod p : preserves R (readPod p).
Proof. intros w. unfold readPod. destruct (podHeap w !! p); simpl; reflexivity. Qed.

Lemma preserves_readNodeInfo r : preserves R (readNodeInfo r).
Proof.
  intros w. unfold readNodeInfo. destruct (nodeInfoHeap w !! r); simpl; reflexivity.
Qed.

Lemma preserves_getNextDrainTime : preserves R getNextDrainTime.
Proof. intros w. simpl. reflexivity. Qed.

End Preserves.

(** Stepping through a computation: binds, and the case distinctions of
    the code. *)
Ltac step_preserves :=
  repeat first
    [ assumption
    | apply preserves_ret; typeclasses eauto
    | apply preserves_panic; typeclasses eauto
    | apply preserves_getHistory; typeclasses eauto
    | apply preserves_readPod; typeclasses eauto
    | apply preserves_readNodeInfo; typeclasses eauto
    | apply preserves_getNextDrainTime; typeclasses eauto
    | apply preserves_traverse; [typeclasses eauto | intros ?]
    | apply preserves_bind; [typeclasses eauto | | intros ?]
    | match goal with
      | |- preserves _ (match ?x with _ => _ end) => destruct x
      end ].

#[local] Instance keeps_preorder {B} (proj : World -> B) : PreOrder (keeps proj).
Proof.
  split.
  - intros w. reflexivity.
  - intros w1 w2 w3 H12 H23. unfold keeps in *. congruence.
Qed.

Ltac unfold_prims :=
  unfold ask, glogInfof, glogErrorf, metricsUpdateNodesMap,
    metricsUpdateNodePodsCount, metricsUpdateNodeDrainCount, emit, getHistory,
    readPod, readNodeInfo, writePodNodeName, writeNodeInfo, allocPod,
    allocNodeInfo, getNextDrainTime, setNextDrainTime, bind, ret, panic.

(** A primitive keeps a part of the world that it does not write. *)
Ltac keeps_prim :=
  let w := fresh "w" in
  intros w; unfold keeps; unfold_prims; simpl;
  repeat case_match; simpl; reflexivity.

Ltac keeps_tac := step_preserves; try keeps_prim.

#[local] Instance frames_preorder n : PreOrder (frames n).
Proof.
  split.
  - intros w H. split; [exact H | reflexivity].
  - intros w1 w2 w3 H12 H23 H. destruct (H12 H) as [H2 E2].
    destruct (H23 H2) as [H3 E3]. split; [exact H3 | congruence].
Qed.

Lemma keeps_frames {A} n (m : M A) :
  preserves (keeps nodeInfoHeap) m -> preserves (frames n) m.
Proof. intros Hk w H. rewrite (Hk w). split; [exact H | reflexivity]. Qed.

Lemma allocNodeInfo_frames n v : preserves (frames n) (allocNodeInfo v).
Proof.
  intros w H. cbn [worldOf allocNodeInfo nodeInfoHeap].
  rewrite length_app. split; [lia|]. now apply take_app_le.
Qed.

Lemma writeNodeInfo_frames n r v :
  (n <= r)%nat -> preserves (frames n) (writeNodeInfo r v).
Proof.
  intros Hr w H. unfold writeNodeInfo.
  case_match; cbn [worldOf nodeInfoHeap].
  - rewrite length_insert. split; [exact H|]. now apply take_insert_ge.
  - split; [exact H | reflexivity].
Qed.

Lemma emit_keeps_nodeInfoHeap e : preserves (keeps nodeInfoHeap) (emit e).
Proof. keeps_prim. Qed.

Lemma ask_keeps_nodeInfoHeap {A} c (f : History -> A) :
  preserves (keeps nodeInfoHeap) (ask c f).
Proof. keeps_prim. Qed.

Lemma writePodNodeName_keeps_nodeInfoHeap p s :
  preserves (keeps nodeInfoHeap) (writePodNodeName p s).
Proof. keeps_prim. Qed.

(** The search touches no NodeInfo. *)
Lemma findSpotNodeForPod_keeps_nodeInfoHeap client pc nodeInfos pod :
  preserves (keeps nodeInfoHeap) (findSpotNodeForPod client pc nodeInfos pod).
Proof.
  induction nodeInfos as [|r rest IH]; simpl.
  - keeps_tac.
  - unfold NewNodeInfo, CheckPredicates. keeps_tac.
Qed.

(** The search answers with one of the NodeInfos it was given. *)
Lemma findSpotNodeForPod_elem client pc nodeInfos pod w r w' :
  findSpotNodeForPod client pc nodeInfos pod w = Returns (Some r) w' ->
  r ∈ nodeInfos.
Proof.
  revert w. induction nodeInfos as [|r0 rest IH]; simpl; intros w H.
  - discriminate.
  - unfold bind in H.
    destruct (readNodeInfo r0 w) as [ni w1|]; [|discriminate].
    destruct (NewNodeInfo (Pods ni) w1) as [k w2|]; [|discriminate].
    destruct (writePodNodeName pod "" w2) as [[] w3|]; [|discriminate].
    destruct (CheckPredicates pc pod (SetNode k (Node_ ni)) w3) as [[e|] w4|];
      [|inversion H; subst; left|discriminate].
    right. eapply IH, H.
Qed.

(** Copies are allocated above everything that existed before. *)
Lemma copyNodeInfos_fresh n arr0 :
  forall w arr w',
    traverse copyNodeInfo arr0 w = Returns arr w' ->
    (n <= length (nodeInfoHeap w))%nat ->
    Forall (fun r => (n <= r)%nat) arr.
Proof.
  induction arr0 as [|r arr0 IH]; simpl; intros w arr w' H Hn.
  - inversion H; subst. constructor.
  - unfold bind in H.
    destruct (copyNodeInfo r w) as [r' w1|] eqn:E1; [|discriminate].
    destruct (traverse copyNodeInfo arr0 w1) as [rs w2|] eqn:E2; [|discriminate].
    inversion H; subst; clear H.
    unfold copyNodeInfo, bind, readNodeInfo, allocNodeInfo in E1.
    destruct (nodeInfoHeap w !! r); [|discriminate].
    inversion E1; subst; clear E1. constructor; [exact Hn|].
    eapply IH; [exact E2|]. simpl. rewrite length_app. lia.
Qed.

Lemma copyNodeInfo_frames n r : preserves (frames n) (copyNodeInfo r).
Proof.
  unfold copyNodeInfo. apply preserves_bind; [typeclasses eauto| |intros v].
  - apply keeps_frames. keeps_tac.
  - apply allocNodeInfo_frames.
Qed.

Lemma CopyNodeInfos_frames n client arr :
  preserves (frames n) (CopyNodeInfos client arr).
Proof.
  unfold CopyNodeInfos. apply preserves_bind; [typeclasses eauto| |intros err].
  - apply keeps_frames, ask_keeps_nodeInfoHeap.
  - destruct err as [e|]; [step_preserves|].
    apply preserves_bind; [typeclasses eauto| |intros arr'; step_preserves].
    apply preserves_traverse; [typeclasses eauto|intros r].
    apply copyNodeInfo_frames.
Qed.

Section PlanningFrame.
Variable podId : Pod -> string.

Lemma AddPod_frames n client r pod :
  (n <= r)%nat -> preserves (frames n) (AddPod client r pod).
Proof.
  intros Hr. unfold AddPod.
  apply preserves_bind; [typeclasses eauto| |intros v].
  - apply keeps_frames. keeps_tac.
  - now apply writeNodeInfo_frames.
Qed.

Lemma planPods_frames n client pc nodePlan pods :
  Forall (fun r => (n <= r)%nat) nodePlan ->
  preserves (frames n) (planPods podId client pc nodePlan pods).
Proof.
  intros Hplan. induction pods as [|pod rest IH]; simpl.
  - step_preserves.
  - apply preserves_bind_dep; [typeclasses eauto| |intros [r|] w w1 E].
    + apply keeps_frames, findSpotNodeForPod_keeps_nodeInfoHeap.
    + assert (Hr : (n <= r)%nat).
      { apply findSpotNodeForPod_elem in E.
        rewrite Forall_forall in Hplan. now apply Hplan. }
      apply preserves_bind; [typeclasses eauto| |intros v].
      { apply keeps_frames. keeps_tac. }
      apply preserves_bind; [typeclasses eauto| |intros ni].
      { apply keeps_frames. keeps_tac. }
      apply preserves_bind; [typeclasses eauto| |intros _].
      { apply keeps_frames. keeps_tac. }
      apply preserves_bind; [typeclasses eauto| |intros _].
      { now apply AddPod_frames. }
      exact IH.
    + step_preserves.
Qed.

End PlanningFrame.

(** * What the search does, exactly *)

Lemma traverse_readPod w ps :
  traverse readPod ps w =
  match lookupPods w ps with
  | Some vs => Returns vs w
  | None => Panics w
  end.
Proof.
  induction ps as [|p ps IH]; cbn [traverse lookupPods]; [reflexivity|].
  unfold bind at 1. unfold readPod at 1.
  destruct (podHeap w !! p) as [v|]; [|reflexivity].
  unfold bind at 1. rewrite IH. destruct (lookupPods w ps); reflexivity.
Qed.

Lemma setSpecNodeName_idem v s : setSpecNodeName (setSpecNodeName v s) s = setSpecNodeName v s.
Proof. reflexivity. Qed.

Lemma writePodNodeName_clear pod w :
  writePodNodeName pod "" w =
  match podHeap w !! pod with
  | Some _ => Returns tt (clearNodeName pod w)
  | None => Panics w
  end.
Proof.
  unfold writePodNodeName, clearNodeName.
  destruct (podHeap w !! pod); reflexivity.
Qed.

Lemma clearNodeName_lookup pod w v :
  podHeap w !! pod = Some v ->
  podHeap (clearNodeName pod w) !! pod = Some (setSpecNodeName v "").
Proof.
  intros H. unfold clearNodeName. rewrite H. simpl.
  apply list_lookup_insert_eq. eapply lookup_lt_Some, H.
Qed.

Lemma clearNodeName_lookup_ne pod w p :
  p <> pod -> podHeap (clearNodeName pod w) !! p = podHeap w !! p.
Proof.
  intros H. unfold clearNodeName. destruct (podHeap w !! pod); [|reflexivity].
  simpl. apply list_lookup_insert_ne. congruence.
Qed.

Lemma clearNodeName_idem pod w :
  clearNodeName pod (clearNodeName pod w) = clearNodeName pod w.
Proof.
  destruct (podHeap w !! pod) as [v|] eqn:E.
  - unfold clearNodeName at 1. rewrite (clearNodeName_lookup _ _ _ E).
    unfold clearNodeName. rewrite E. simpl.
    now rewrite list_insert_insert_eq.
  - unfold clearNodeName. now rewrite !E.
Qed.

Lemma clearNodeName_nodeInfoHeap pod w :
  nodeInfoHeap (clearNodeName pod w) = nodeInfoHeap w.
Proof. unfold clearNodeName. destruct (podHeap w !! pod); reflexivity. Qed.

Lemma clearNodeName_history pod w :
  history (clearNodeName pod w) = history w.
Proof. unfold clearNodeName. destruct (podHeap w !! pod); reflexivity. Qed.

Lemma clearNodeName_nextDrainTime pod w :
  nextDrainTime (clearNodeName pod w) = nextDrainTime w.
Proof. unfold clearNodeName. destruct (podHeap w !! pod); reflexivity. Qed.

Lemma firstFeasible_Some pc w pod nodeInfos r :
  firstFeasible pc w pod nodeInfos = Some r ->
  exists before after,
    nodeInfos = before ++ r :: after /\
    Forall (fun r' => feasible pc w pod r' = false) before /\
    feasible pc w pod r = true.
Proof.
  induction nodeInfos as [|r0 rest IH]; simpl; [discriminate|].
  destruct (feasible pc w pod r0) eqn:E; intros H.
  - inversion H; subst. exists [], rest. repeat split; [constructor | exact E].
  - destruct (IH H) as (before & after & -> & Hb & Hr).
    exists (r0 :: before), after. repeat split; [constructor; assumption | exact Hr].
Qed.

Lemma firstFeasible_None pc w pod nodeInfos :
  firstFeasible pc w pod nodeInfos = None ->
  Forall (fun r' => feasible pc w pod r' = false) nodeInfos.
Proof.
  induction nodeInfos as [|r0 rest IH]; simpl; [constructor|].
  destruct (feasible pc w pod r0) eqn:E; [discriminate|].
  intros H. constructor; [exact E | now apply IH].
Qed.

(** When the search returns, it has cleared the pod's node name (if it
    looked at any NodeInfo at all) and answers with the first NodeInfo that
    the predicates accept in the world it leaves. *)
Lemma findSpotNodeForPod_Returns client pc nodeInfos pod :
  forall w res w',
    findSpotNodeForPod client pc nodeInfos pod w = Returns res w' ->
    res = firstFeasible pc w' pod nodeInfos /\
    match nodeInfos with
    | [] => w' = w
    | _ :: _ => w' = clearNodeName pod w /\ is_Some (podHeap w !! pod)
    end.
Proof.
  induction nodeInfos as [|r rest IH]; intros w res w' H.
  - simpl in H. inversion H; subst. split; reflexivity.
  - simpl in H. unfold bind at 1 in H. unfold readNodeInfo in H.
    destruct (nodeInfoHeap w !! r) as [ni|] eqn:Er; [|discriminate].
    unfold bind at 1 in H. unfold NewNodeInfo, bind at 1 in H.
    rewrite traverse_readPod in H.
    destruct (lookupPods w (Pods ni)) as [vs0|]; [|discriminate].
    unfold ret at 1 in H. unfold bind at 1 in H.
    rewrite writePodNodeName_clear in H.
    destruct (podHeap w !! pod) as [v|] eqn:Ep; [|discriminate].
    unfold bind at 1 in H. unfold CheckPredicates, bind at 1 in H.
    unfold readPod in H. rewrite (clearNodeName_lookup _ _ _ Ep) in H.
    unfold bind at 1 in H. rewrite traverse_readPod in H. simpl kniPods in H.
    destruct (lookupPods (clearNodeName pod w) (Pods ni)) as [vs|] eqn:Evs;
      [|discriminate].
    cbn [kniNode SetNode] in H. unfold ret at 1 in H. cbn beta iota in H.
    assert (Hf : feasible pc (clearNodeName pod w) pod r =
                 match pc (setSpecNodeName v "") (Node_ ni) vs with
                 | None => true | Some _ => false end).
    { unfold feasible. rewrite clearNodeName_nodeInfoHeap, Er.
      rewrite (clearNodeName_lookup _ _ _ Ep), Evs. reflexivity. }
    destruct (pc (setSpecNodeName v "") (Node_ ni) vs) as [e|].
    + apply IH in H. destruct H as [Hres Hw].
      assert (Hw' : w' = clearNodeName pod w).
      { destruct rest; [exact Hw|]. destruct Hw as [-> _].
        apply clearNodeName_idem. }
      subst w'. split; [|split; [reflexivity | eexists; reflexivity]].
      simpl. now rewrite Hf.
    + inversion H; subst. split; [|split; [reflexivity | eexists; reflexivity]].
      simpl. now rewrite Hf.
Qed.

Lemma feasible_allocated pc w pod r :
  feasible pc w pod r = true ->
  exists ni v, nodeInfoHeap w !! r = Some ni /\ podHeap w !! pod = Some v.
Proof.
  unfold feasible. destruct (nodeInfoHeap w !! r) as [ni|]; [|discriminate].
  destruct (podHeap w !! pod) as [v|]; [|discriminate].
  intros _. eauto.
Qed.

Section PlanningSteps.
Variable podId : Pod -> string.
Variable client : KubeClient.
Variable pc : PredicateChecker.
Variable nodePlan : NodeInfoArray.

(** One round of the loop that finds a NodeInfo: the pod is appended to
    it, and the loop goes on in that world. *)
Lemma planPods_placed pod rest w r w1 :
  findSpotNodeForPod client pc nodePlan pod w = Returns (Some r) w1 ->
  exists v ni,
    podHeap w1 !! pod = Some v /\ nodeInfoHeap w1 !! r = Some ni /\
    planPods podId client pc nodePlan (pod :: rest) w =
    planPods podId client pc nodePlan rest
             (placePod r pod (withEvent (placementLine podId v ni) w1)).
Proof.
  intros H. pose proof (findSpotNodeForPod_Returns _ _ _ _ _ _ _ H) as [Hres _].
  symmetry in Hres. apply firstFeasible_Some in Hres.
  destruct Hres as (_ & _ & _ & _ & Hf).
  apply feasible_allocated in Hf. destruct Hf as (ni & v & Hni & Hv).
  exists v, ni. split; [exact Hv|]. split; [exact Hni|].
  cbn [planPods]. unfold bind at 1. rewrite H.
  unfold bind at 1. unfold readPod at 1. rewrite Hv.
  unfold bind at 1. unfold readNodeInfo at 1. rewrite Hni.
  unfold bind at 1. unfold glogInfof, emit.
  unfold bind at 1. unfold AddPod, bind at 1. unfold readNodeInfo at 1.
  cbn [nodeInfoHeap]. rewrite Hni. unfold writeNodeInfo. cbn [nodeInfoHeap].
  rewrite Hni. unfold placePod, withEvent. cbn [nodeInfoHeap]. rewrite Hni.
  reflexivity.
Qed.

(** One round of the loop that finds none: the plan fails there. *)
Lemma planPods_unplaceable pod rest w w1 v :
  findSpotNodeForPod client pc nodePlan pod w = Returns None w1 ->
  podHeap w1 !! pod = Some v ->
  planPods podId client pc nodePlan (pod :: rest) w =
  Returns (Some (Errorf "Pod %s can't be rescheduled on any existing spot node."
                        [podId v])) w1.
Proof.
  intros H Hv. cbn [planPods]. unfold bind at 1. rewrite H.
  unfold bind at 1. unfold readPod at 1. rewrite Hv. reflexivity.
Qed.


End PlanningSteps.

(** * The plan works on a copy *)

Lemma CopyNodeInfos_fresh n client arr0 w arr w' :
  CopyNodeInfos client arr0 w = Returns (arr, None) w' ->
  (n <= length (nodeInfoHeap w))%nat ->
  Forall (fun r => (n <= r)%nat) arr.
Proof.
  unfold CopyNodeInfos, ask, bind, emit, getHistory, ret. cbn [history].
  destruct (copyNodeInfosError client _) as [e|]; [discriminate|].
  destruct (traverse copyNodeInfo arr0 _) as [arr1 w1|] eqn:E; [|discriminate].
  intros H Hn. inversion H; subst. eapply copyNodeInfos_fresh; [exact E|exact Hn].
Qed.

Lemma buildDrainPlan_frames n podId client pc nodeInfos pods w :
  (n <= length (nodeInfoHeap w))%nat ->
  frames n w (worldOf (buildDrainPlan podId client pc nodeInfos pods w)).
Proof.
  intros Hn. unfold buildDrainPlan, bind.
  pose proof (CopyNodeInfos_frames n client nodeInfos w) as Hc.
  destruct (CopyNodeInfos client nodeInfos w) as [[arr [e|]] w1|] eqn:E;
    cbn [worldOf snd fst] in *; [exact Hc| |exact Hc].
  transitivity w1; [exact Hc|].
  apply planPods_frames. eapply CopyNodeInfos_fresh; [exact E|exact Hn].
Qed.

Lemma findSpotNodeForPod_keeps_nextDrainTime client pc nodeInfos pod :
  preserves (keeps nextDrainTime) (findSpotNodeForPod client pc nodeInfos pod).
Proof.
  induction nodeInfos as [|r rest IH]; cbn [findSpotNodeForPod].
  - keeps_tac.
  - unfold NewNodeInfo, CheckPredicates. keeps_tac.
Qed.

Lemma findSpotNodeForPod_keeps_history client pc nodeInfos pod :
  preserves (keeps history) (findSpotNodeForPod client pc nodeInfos pod).
Proof.
  induction nodeInfos as [|r rest IH]; cbn [findSpotNodeForPod].
  - keeps_tac.
  - unfold NewNodeInfo, CheckPredicates. keeps_tac.
Qed.

Lemma planPods_keeps_nextDrainTime podId client pc nodePlan pods :
  preserves (keeps nextDrainTime) (planPods podId client pc nodePlan pods).
Proof.
  induction pods as [|pod rest IH]; cbn [planPods]; [keeps_tac|].
  apply preserves_bind; [typeclasses eauto| |intros [r|]].
  - apply findSpotNodeForPod_keeps_nextDrainTime.
  - unfold AddPod. keeps_tac.
  - keeps_tac.
Qed.

Lemma buildDrainPlan_keeps_nextDrainTime podId client pc nodeInfos pods :
  preserves (keeps nextDrainTime) (buildDrainPlan podId client pc nodeInfos pods).
Proof.
  unfold buildDrainPlan, CopyNodeInfos.
  apply preserves_bind; [typeclasses eauto| |intros [arr [e|]]]; cbn [snd fst].
  - apply preserves_bind; [typeclasses eauto|keeps_prim|intros [e|]];
      [keeps_tac|].
    apply preserves_bind; [typeclasses eauto| |intros arr; keeps_tac].
    apply preserves_traverse; [typeclasses eauto|intros r].
    unfold copyNodeInfo. keeps_tac.
  - keeps_tac.
  - apply planPods_keeps_nextDrainTime.
Qed.

(** C1.  Whatever buildDrainPlan does and however it ends (nil, an error or
    a panic), every NodeInfo object that existed before the call is
    unchanged after it: the old NodeInfo heap is a prefix of the new one, so
    the pod sets of the real spot NodeInfoArray are the same lists of pods as
    before, and the tentative placements live only in objects allocated by
    the call.  (With CopyNodeInfos and AddPod as the spec describes them.) *)
Theorem buildDrainPlan_leaves_real_nodeInfos
    podId client pc (nodeInfos : NodeInfoArray) (pods : list PodRef) (w : World) :
  let w' := worldOf (buildDrainPlan podId client pc nodeInfos pods w) in
  take (length (nodeInfoHeap w)) (nodeInfoHeap w') = nodeInfoHeap w /\
  nextDrainTime w' = nextDrainTime w /\
  (Forall (fun r => is_Some (nodeInfoHeap w !! r)) nodeInfos ->
   podSets w' nodeInfos = podSets w nodeInfos).
Proof.
  intros w'.
  assert (Ht : take (length (nodeInfoHeap w)) (nodeInfoHeap w') = nodeInfoHeap w).
  { pose proof (buildDrainPlan_frames (length (nodeInfoHeap w)) podId client pc
                  nodeInfos pods w ltac:(lia) ltac:(lia)) as [_ Ht].
    fold w' in Ht. rewrite Ht. apply take_ge. lia. }
  split; [exact Ht|]. split.
  - apply buildDrainPlan_keeps_nextDrainTime.
  - intros Hall. unfold podSets. apply map_ext_in. intros r Hr.
    rewrite Forall_forall in Hall.
    assert (His : is_Some (nodeInfoHeap w !! r)).
    { apply Hall. now apply list_elem_of_In. }
    apply lookup_lt_is_Some in His.
    unfold podsOf. rewrite <- Ht in His |- *.
    rewrite lookup_take_lt; [reflexivity|].
    rewrite Ht in His. exact His.
Qed.

Lemma buildDrainPlan_leaves_real_nodeInfos_witness :
  podSets (worldOf (buildDrainPlan Example.podId Example.okClient Example.cpuFits
                      [1%nat; 2%nat] [0%nat; 1%nat] Example.world0))
          [1%nat; 2%nat] =
  podSets Example.world0 [1%nat; 2%nat].
Proof.
  apply (buildDrainPlan_leaves_real_nodeInfos Example.podId Example.okClient
           Example.cpuFits [1%nat; 2%nat] [0%nat; 1%nat] Example.world0).
  repeat constructor; vm_compute; eexists; reflexivity.
Defined.

(** * First fit, and placements that accumulate *)

#[local] Instance keepsOccupant_preorder r pod : PreOrder (keepsOccupant r pod).
Proof.
  split.
  - intros w H. exact H.
  - intros w1 w2 w3 H12 H23 H. apply H23, H12, H.
Qed.






(** * Failing plans *)

Lemma count_app f h1 h2 : count f (h1 ++ h2) = (count f h1 + count f h2)%nat.
Proof. induction h1 as [|e h1 IH]; simpl; [reflexivity|]. rewrite IH. lia. Qed.






(** * Planning writes to the caller's pods *)

#[local] Instance keepsCleared_preorder pod : PreOrder (keepsCleared pod).
Proof.
  split.
  - intros w H. exact H.
  - intros w1 w2 w3 H12 H23 H. apply H23, H12, H.
Qed.











(** * The two versions of the loop plan alike *)

Lemma Legacy_findSpotNodeForPod_eq client pc nodeInfos pod w :
  Legacy.findSpotNodeForPod client pc nodeInfos pod w =
  findSpotNodeForPod client pc nodeInfos pod w.
Proof.
  revert w. induction nodeInfos as [|r rest IH]; intros w; [reflexivity|].
  cbn [Legacy.findSpotNodeForPod findSpotNodeForPod]. unfold bind.
  destruct (readNodeInfo r w) as [ni w1|]; [|reflexivity].
  destruct (NewNodeInfo (Pods ni) w1) as [k w2|]; [|reflexivity].
  destruct (writePodNodeName pod "" w2) as [[] w3|]; [|reflexivity].
  destruct (CheckPredicates pc pod (SetNode k (Node_ ni)) w3) as [[e|] w4|];
    [apply IH|reflexivity|reflexivity].
Qed.

Lemma planPods_considerPods podId client pc nodePlan pods :
  forall w,
    samePlan (planPods podId client pc nodePlan pods w)
             (Legacy.considerPods podId client pc nodePlan pods w).
Proof.
  induction pods as [|pod rest IH]; intros w.
  - cbn. repeat split; reflexivity.
  - cbn [planPods Legacy.considerPods]. unfold bind.
    change (Legacy.findSpotNodeForPod client pc nodePlan pod w)
      with (findSpotNodeForPod client pc nodePlan pod w).
    destruct (findSpotNodeForPod client pc nodePlan pod w) as [[r|] w1|];
      [| |reflexivity].
    + destruct (readPod pod w1) as [v w2|]; [|reflexivity].
      destruct (readNodeInfo r w2) as [ni w3|]; [|reflexivity].
      destruct (glogInfof _ _ w3) as [[] w4|]; [|reflexivity].
      change (Legacy.addPod client r pod w4) with (AddPod client r pod w4).
      destruct (AddPod client r pod w4) as [[] w5|]; [|reflexivity].
      apply IH.
    + unfold readPod. destruct (podHeap w1 !! pod) as [v|]; [|reflexivity].
      cbn. repeat split; congruence.
Qed.

(** C9.  From the same world, for the same spot array, the same pods and
    the same predicates, buildDrainPlan returns nil exactly when the earlier
    version's copy succeeds and its loop over the pods leaves unmoveablePods
    false; the two leave the same pod and NodeInfo heaps; when the plan
    succeeds they leave the same world, log of the placements included.
    (With the copy and the append of both versions as the spec describes
    them.) *)
Theorem buildDrainPlan_agrees_with_earlier_version
    podId client pc (spotNodeInfos : NodeInfoArray) (pods : list PodRef)
    (w : World) :
  match buildDrainPlan podId client pc spotNodeInfos pods w,
        Legacy.planNode podId client pc spotNodeInfos pods w with
  | Returns err wa, Returns unmoveablePods wb =>
      (err = None <-> unmoveablePods = Some false) /\
      podHeap wa = podHeap wb /\
      nodeInfoHeap wa = nodeInfoHeap wb /\
      nextDrainTime wa = nextDrainTime wb /\
      (err = None -> wa = wb)
  | Panics wa, Panics wb => wa = wb
  | _, _ => False
  end.
Proof.
  unfold buildDrainPlan, Legacy.planNode, bind.
  change (Legacy.copyNodeInfos client spotNodeInfos w)
    with (CopyNodeInfos client spotNodeInfos w).
  destruct (CopyNodeInfos client spotNodeInfos w) as [[nodePlan [e|]] w0|];
    cbn [snd fst]; [| |reflexivity].
  - cbn. repeat split; congruence.
  - pose proof (planPods_considerPods podId client pc nodePlan pods w0) as H.
    unfold samePlan in H.
    destruct (planPods podId client pc nodePlan pods w0) as [err wa|wa],
             (Legacy.considerPods podId client pc nodePlan pods w0) as [flag wb|wb];
      try contradiction; [|exact H].
    unfold ret. destruct H as (Hiff & Hp & Hn & Ht & Hw).
    repeat split; try assumption.
    + intros He. f_equal. now apply Hiff.
    + intros Hf. apply Hiff. congruence.
Qed.

(** * Histories of the control loop *)

#[local] Instance emitsOnly_preorder P : PreOrder (emitsOnly P).
Proof.
  split.
  - intros w. exists []. split; [now rewrite app_nil_r | reflexivity].
  - intros w1 w2 w3 (e12 & H12 & P12) (e23 & H23 & P23).
    exists (e12 ++ e23). split.
    + now rewrite H23, H12, app_assoc.
    + rewrite forallb_app, P12, P23. reflexivity.
Qed.

Lemma keeps_emitsOnly {A} P (m : M A) :
  preserves (keeps history) m -> preserves (emitsOnly P) m.
Proof.
  intros Hk w. exists []. split; [|reflexivity].
  rewrite (Hk w). now rewrite app_nil_r.
Qed.

Lemma emit_emitsOnly P e : P e = true -> preserves (emitsOnly P) (emit e).
Proof.
  intros He w. exists [e]. split; [reflexivity|]. simpl. now rewrite He.
Qed.

Lemma ask_emitsOnly {A} P c (f : History -> A) :
  P (Request c) = true -> preserves (emitsOnly P) (ask c f).
Proof.
  intros He. unfold ask.
  apply preserves_bind; [typeclasses eauto|now apply emit_emitsOnly|intros _].
  step_preserves.
Qed.

Lemma emitsOnly_count P f w w' :
  (forall e, P e = true -> f e = false) ->
  emitsOnly P w w' -> count f (history w') = count f (history w).
Proof.
  intros HP (evs & -> & Hall). rewrite count_app.
  assert (count f evs = 0%nat); [|lia].
  induction evs as [|e evs IH]; [reflexivity|].
  simpl in Hall. apply andb_true_iff in Hall. destruct Hall as [He Hall].
  simpl. rewrite (HP e He), (IH Hall). reflexivity.
Qed.


(** A step that writes no event. *)
Ltac silent := apply keeps_emitsOnly; keeps_tac.

Section Emits.
Variable P : Event -> bool.
Hypothesis P_info : forall format args, P (LogInfo format args) = true.
Hypothesis P_error : forall format args, P (LogError format args) = true.
Hypothesis P_clock : P (Request CallTimeNow) = true.
Hypothesis P_copy : forall arr, P (Request (CallCopyNodeInfos arr)) = true.
Hypothesis P_pods : forall node, P (Request (CallListPodsOnNode node)) = true.
Hypothesis P_deletion : forall pods, P (Request (CallGetPodsForDeletion pods)) = true.
Hypothesis P_count :
  forall label node n, P (MetricUpdate (UpdateNodePodsCount label node n)) = true.

Variable podId : Pod -> string.
Variable flags : Flags.
Variable env : Environment.
Variable client : KubeClient.
Variable pc : PredicateChecker.

Lemma glogInfof_emitsOnly format args :
  preserves (emitsOnly P) (glogInfof format args).
Proof. apply emit_emitsOnly, P_info. Qed.

Lemma glogErrorf_emitsOnly format args :
  preserves (emitsOnly P) (glogErrorf format args).
Proof. apply emit_emitsOnly, P_error. Qed.

Lemma findSpotNodeForPod_emitsOnly nodeInfos pod :
  preserves (emitsOnly P) (findSpotNodeForPod client pc nodeInfos pod).
Proof. apply keeps_emitsOnly, findSpotNodeForPod_keeps_history. Qed.

Lemma planPods_emitsOnly nodePlan pods :
  preserves (emitsOnly P) (planPods podId client pc nodePlan pods).
Proof.
  induction pods as [|pod rest IH]; cbn [planPods]; [step_preserves|].
  apply preserves_bind; [typeclasses eauto| |intros [r|]].
  - apply findSpotNodeForPod_emitsOnly.
  - apply preserves_bind; [typeclasses eauto|step_preserves|intros v].
    apply preserves_bind; [typeclasses eauto|step_preserves|intros ni].
    apply preserves_bind; [typeclasses eauto|apply glogInfof_emitsOnly|intros _].
    apply preserves_bind; [typeclasses eauto| |intros _; exact IH].
    unfold AddPod. silent.
  - step_preserves.
Qed.

Lemma CopyNodeInfos_emitsOnly arr :
  preserves (emitsOnly P) (CopyNodeInfos client arr).
Proof.
  unfold CopyNodeInfos.
  apply preserves_bind; [typeclasses eauto| |intros [e|]]; [|step_preserves|].
  - apply ask_emitsOnly, P_copy.
  - apply preserves_bind; [typeclasses eauto| |intros arr'; step_preserves].
    apply preserves_traverse; [typeclasses eauto|intros r].
    unfold copyNodeInfo. silent.
Qed.

Lemma buildDrainPlan_emitsOnly nodeInfos pods :
  preserves (emitsOnly P) (buildDrainPlan podId client pc nodeInfos pods).
Proof.
  unfold buildDrainPlan.
  apply preserves_bind; [typeclasses eauto| |intros [arr [e|]]]; cbn [snd fst].
  - apply CopyNodeInfos_emitsOnly.
  - step_preserves.
  - apply planPods_emitsOnly.
Qed.

Lemma GetPodsForDeletionOnNodeDrain_emitsOnly pods pdbs now :
  preserves (emitsOnly P) (GetPodsForDeletionOnNodeDrain env pods pdbs now).
Proof.
  unfold GetPodsForDeletionOnNodeDrain.
  apply preserves_bind; [typeclasses eauto|step_preserves|intros vs].
  apply preserves_bind; [typeclasses eauto| |intros _; step_preserves].
  apply emit_emitsOnly, P_deletion.
Qed.

Lemma updateSpotNodeMetrics_emitsOnly spot pdbs :
  preserves (emitsOnly P) (updateSpotNodeMetrics flags env spot pdbs).
Proof.
  induction spot as [|r rest IH]; cbn [updateSpotNodeMetrics]; [step_preserves|].
  apply preserves_bind; [typeclasses eauto|step_preserves|intros ni].
  apply preserves_bind; [typeclasses eauto|apply ask_emitsOnly, P_clock|intros now].
  apply preserves_bind; [typeclasses eauto| |intros [found [e|]]]; cbn [snd fst].
  - apply GetPodsForDeletionOnNodeDrain_emitsOnly.
  - apply preserves_bind; [typeclasses eauto| |intros _; exact IH].
    apply glogErrorf_emitsOnly.
  - apply preserves_bind; [typeclasses eauto| |intros _; exact IH].
    apply emit_emitsOnly, P_count.
Qed.

Lemma buildNodeMap_emitsOnly nodes : forall acc,
  preserves (emitsOnly P) (buildNodeMap flags client nodes acc).
Proof.
  induction nodes as [|node rest IH]; intros acc; cbn [buildNodeMap];
    [step_preserves|].
  destruct (classify flags node) as [role|].
  - apply preserves_bind; [typeclasses eauto|apply ask_emitsOnly, P_pods|].
    intros [listed [e|]]; cbn [snd fst]; [step_preserves|].
    apply preserves_bind; [typeclasses eauto| |intros pods].
    { apply preserves_traverse; [typeclasses eauto|intros v]. silent. }
    apply preserves_bind; [typeclasses eauto|silent|intros r]. apply IH.
  - apply preserves_bind; [typeclasses eauto|apply glogInfof_emitsOnly|intros _].
    apply IH.
Qed.

Lemma NewNodeMap_emitsOnly nodes :
  preserves (emitsOnly P) (NewNodeMap flags client nodes).
Proof. apply buildNodeMap_emitsOnly. Qed.

End Emits.

(** * One drain attempt per cycle *)

Lemma notDrain_drainAttempts w w' :
  emitsOnly notDrain w w' -> drainAttempts w' = drainAttempts w.
Proof.
  apply emitsOnly_count. intros e He. unfold notDrain in He.
  now apply negb_true_iff.
Qed.

Lemma quiet_atMostOneDrain {A} (m : M A) :
  preserves (emitsOnly notDrain) m -> preserves atMostOneDrain m.
Proof.
  intros Hm w. unfold atMostOneDrain.
  rewrite (notDrain_drainAttempts _ _ (Hm w)). lia.
Qed.

Lemma quiet_then_atMostOneDrain {A B} (m : M A) (f : A -> M B) :
  preserves (emitsOnly notDrain) m ->
  (forall a, preserves atMostOneDrain (f a)) ->
  preserves atMostOneDrain (bind m f).
Proof.
  intros Hm Hf w. unfold bind. specialize (Hm w).
  destruct (m w) as [a w1|w1]; cbn [worldOf] in *.
  - specialize (Hf a w1). unfold atMostOneDrain in *.
    rewrite (notDrain_drainAttempts _ _ Hm) in Hf. exact Hf.
  - unfold atMostOneDrain. rewrite (notDrain_drainAttempts _ _ Hm). lia.
Qed.

Lemma atMostOneDrain_then_quiet {A B} (m : M A) (f : A -> M B) :
  preserves atMostOneDrain m ->
  (forall a, preserves (emitsOnly notDrain) (f a)) ->
  preserves atMostOneDrain (bind m f).
Proof.
  intros Hm Hf w. unfold bind. specialize (Hm w).
  destruct (m w) as [a w1|w1]; cbn [worldOf] in *; [|exact Hm].
  specialize (Hf a w1). unfold atMostOneDrain in *.
  rewrite (notDrain_drainAttempts _ _ Hf). exact Hm.
Qed.

Section Cycle.
Variable podId : Pod -> string.
Variable flags : Flags.
Variable env : Environment.
Variable client : KubeClient.
Variable pc : PredicateChecker.

Lemma drainNode_Returns node pods seen grace timeout w :
  lookupPods w pods = Some seen ->
  drainNode flags env client node pods grace timeout w =
  Returns (drainNodeResult client
             (history w ++ [drainRequest node pods seen grace timeout]))
          (afterDrain flags env client node pods seen grace timeout w).
Proof.
  intros Hseen. unfold drainNode, DrainNode, bind. rewrite traverse_readPod, Hseen.
  unfold ask, bind, emit, getHistory, ret. cbn [history].
  unfold afterDrain, drainRequest, drainOutcomeLabel.
  destruct (drainNodeResult client _) as [e|];
    unfold metricsUpdateNodeDrainCount, emit, setNextDrainTime;
    cbn [history podHeap nodeInfoHeap nextDrainTime]; reflexivity.
Qed.

Lemma drainNode_Panics node pods grace timeout w :
  lookupPods w pods = None ->
  drainNode flags env client node pods grace timeout w = Panics w.
Proof.
  intros Hseen. unfold drainNode, DrainNode, bind.
  now rewrite traverse_readPod, Hseen.
Qed.

Lemma afterDrain_drainAttempts node pods seen grace timeout w :
  drainAttempts (afterDrain flags env client node pods seen grace timeout w) =
  S (drainAttempts w).
Proof.
  unfold drainAttempts, afterDrain. cbn [history].
  rewrite !count_app. simpl. lia.
Qed.

Lemma drainNode_atMostOneDrain node pods grace timeout :
  preserves atMostOneDrain (drainNode flags env client node pods grace timeout).
Proof.
  intros w. unfold atMostOneDrain.
  destruct (lookupPods w pods) as [seen|] eqn:E.
  - rewrite (drainNode_Returns _ _ _ _ _ _ E). cbn [worldOf].
    rewrite afterDrain_drainAttempts. lia.
  - rewrite (drainNode_Panics _ _ _ _ _ E). cbn [worldOf]. lia.
Qed.

Lemma processOnDemandNodes_atMostOneDrain spot pdbs nodes :
  preserves atMostOneDrain
    (processOnDemandNodes podId flags env client pc spot pdbs nodes).
Proof.
  induction nodes as [|nodeInfo rest IH]; cbn [processOnDemandNodes].
  - apply quiet_atMostOneDrain. step_preserves.
  - apply quiet_then_atMostOneDrain; [step_preserves|intros ni].
    apply quiet_then_atMostOneDrain; [now apply ask_emitsOnly|intros now].
    apply quiet_then_atMostOneDrain;
      [now apply GetPodsForDeletionOnNodeDrain_emitsOnly|].
    intros [found [e|]]; cbn [snd fst].
    + apply quiet_then_atMostOneDrain; [now apply emit_emitsOnly|intros _].
      exact IH.
    + apply quiet_then_atMostOneDrain; [now apply emit_emitsOnly|intros _].
      destruct (length found <? 1)%nat.
      * apply quiet_then_atMostOneDrain; [now apply emit_emitsOnly|intros _].
        exact IH.
      * apply quiet_then_atMostOneDrain; [now apply emit_emitsOnly|intros _].
        apply quiet_then_atMostOneDrain;
          [now apply buildDrainPlan_emitsOnly|intros [e|]].
        -- apply quiet_then_atMostOneDrain; [now apply emit_emitsOnly|intros _].
           exact IH.
        -- apply quiet_then_atMostOneDrain; [now apply emit_emitsOnly|intros _].
           apply atMostOneDrain_then_quiet; [apply drainNode_atMostOneDrain|].
           intros [e|]; [now apply emit_emitsOnly|step_preserves].
Qed.

Lemma reschedule_atMostOneDrain nodeMap :
  preserves atMostOneDrain (reschedule podId flags env client pc nodeMap).
Proof.
  unfold reschedule.
  apply quiet_then_atMostOneDrain; [now apply emit_emitsOnly|intros _].
  apply quiet_then_atMostOneDrain; [now apply ask_emitsOnly|].
  intros [allPDBs [e|]]; cbn [snd fst].
  { apply quiet_atMostOneDrain. now apply emit_emitsOnly. }
  apply quiet_then_atMostOneDrain; [now apply updateSpotNodeMetrics_emitsOnly|].
  intros _.
  apply quiet_then_atMostOneDrain.
  { destruct (length (nodeMapGet nodeMap OnDemand) <? 1)%nat;
      [now apply emit_emitsOnly|step_preserves]. }
  intros _.
  apply atMostOneDrain_then_quiet;
    [apply processOnDemandNodes_atMostOneDrain|intros _].
  now apply emit_emitsOnly.
Qed.

Lemma processNodes_atMostOneDrain :
  preserves atMostOneDrain (processNodes podId flags env client pc).
Proof.
  unfold processNodes.
  apply quiet_then_atMostOneDrain; [now apply emit_emitsOnly|intros _].
  apply quiet_then_atMostOneDrain; [now apply ask_emitsOnly|].
  intros [allNodes [e|]]; cbn [snd fst].
  { apply quiet_atMostOneDrain. now apply emit_emitsOnly. }
  apply quiet_then_atMostOneDrain; [now apply NewNodeMap_emitsOnly|].
  intros [nodeMap [e|]]; cbn [snd fst].
  { apply quiet_atMostOneDrain. now apply emit_emitsOnly. }
  apply reschedule_atMostOneDrain.
Qed.

Lemma housekeeping_atMostOneDrain :
  preserves atMostOneDrain (housekeeping podId flags env client pc).
Proof.
  unfold housekeeping, timeUntil.
  apply quiet_then_atMostOneDrain; [step_preserves|intros t].
  apply quiet_then_atMostOneDrain.
  { apply preserves_bind; [typeclasses eauto|now apply ask_emitsOnly|intros now].
    step_preserves. }
  intros remaining. destruct (0 <? remaining).
  { apply quiet_atMostOneDrain.
    apply preserves_bind; [typeclasses eauto|step_preserves|intros t'].
    apply preserves_bind; [typeclasses eauto| |intros r'; now apply emit_emitsOnly].
    apply preserves_bind; [typeclasses eauto|now apply ask_emitsOnly|intros now].
    step_preserves. }
  apply quiet_then_atMostOneDrain; [now apply ask_emitsOnly|].
  intros [unschedulable err]; cbn [snd fst].
  apply quiet_then_atMostOneDrain.
  { destruct err; [now apply emit_emitsOnly|step_preserves]. }
  intros _. destruct (0 <? length unschedulable)%nat.
  { apply quiet_atMostOneDrain. now apply emit_emitsOnly. }
  apply processNodes_atMostOneDrain.
Qed.

End Cycle.

Lemma lookupPods_withEvents evs w pods :
  lookupPods (withEvents evs w) pods = lookupPods w pods.
Proof. induction pods as [|p pods IH]; [reflexivity|]. cbn. now rewrite IH. Qed.



Section Loop.
Variable podId : Pod -> string.
Variable flags : Flags.
Variable env : Environment.
Variable client : KubeClient.
Variable pc : PredicateChecker.
Variable spot : NodeInfoArray.
Variable pdbs : list PodDisruptionBudget.

Lemma processOnDemandNodes_head nodeInfo rest w ni vs :
  nodeInfoHeap w !! nodeInfo = Some ni ->
  lookupPods w (Pods ni) = Some vs ->
  processOnDemandNodes podId flags env client pc spot pdbs (nodeInfo :: rest) w =
  let found := fst (candidates env pdbs w ni vs) in
  match snd (candidates env pdbs w ni vs) with
  | Some e =>
      processOnDemandNodes podId flags env client pc spot pdbs rest
                           (filterFailed w ni e)
  | None =>
      if (length found <? 1)%nat then
        processOnDemandNodes podId flags env client pc spot pdbs rest (skipped flags w ni)
      else
        match buildDrainPlan podId client pc spot found (considered flags w ni found) with
        | Returns (Some e) w1 =>
            processOnDemandNodes podId flags env client pc spot pdbs rest
                                 (planFailed e w1)
        | Returns None w1 =>
            (err <- drainNode flags env client (Node_ ni) found
                      (wholeSeconds (maxGracefulTermination flags))
                      (podEvictionTimeout flags) ;;
             match err with
             | Some e => glogErrorf "Failed to drain node: %v" [AErr e]
             | None => ret tt
             end) (withEvents [willDrain ni] w1)
        | Panics w1 => Panics w1
        end
  end.
Proof.
  intros Hni Hvs. cbn [processOnDemandNodes].
  unfold bind at 1. unfold readNodeInfo at 1. rewrite Hni.
  unfold bind at 1. unfold ask at 1. unfold bind at 1. unfold emit at 1.
  unfold bind at 1. unfold getHistory at 1. unfold ret at 1. cbn [history].
  unfold bind at 1. unfold GetPodsForDeletionOnNodeDrain at 1.
  unfold bind at 1. rewrite traverse_readPod.
  change (lookupPods _ (Pods ni))
    with (lookupPods (withEvents [Request CallTimeNow] w) (Pods ni)).
  rewrite lookupPods_withEvents, Hvs.
  unfold bind at 1. unfold emit at 1. unfold ret at 1.
  cbn [history podHeap nodeInfoHeap nextDrainTime withEvents].
  fold (candidates env pdbs w ni vs).
  destruct (candidates env pdbs w ni vs) as [found [e|]]; cbn [snd fst].
  - unfold bind at 1. unfold glogErrorf, emit.
    cbn [history podHeap nodeInfoHeap nextDrainTime].
    unfold filterFailed, withEvents. now rewrite <- !app_assoc.
  - unfold bind at 1. unfold metricsUpdateNodePodsCount, emit.
    cbn [history podHeap nodeInfoHeap nextDrainTime].
    destruct found as [|p found].
    + cbn [length Nat.ltb Nat.leb]. unfold bind at 1. unfold glogInfof, emit.
      cbn [history podHeap nodeInfoHeap nextDrainTime].
      unfold skipped, withEvents. now rewrite <- !app_assoc.
    + cbn [length Nat.ltb Nat.leb]. unfold bind at 1.
      unfold glogInfof at 1, emit at 1.
      cbn [history podHeap nodeInfoHeap nextDrainTime].
      unfold bind at 1.
      replace (mkWorld (podHeap w) (nodeInfoHeap w) (nextDrainTime w) _)
        with (considered flags w ni (p :: found))
        by (unfold considered, withEvents; cbn [length];
            now rewrite <- !app_assoc).
      destruct (buildDrainPlan podId client pc spot (p :: found) _)
        as [[e|] w1|]; [| |reflexivity].
      * unfold bind at 1. unfold glogErrorf, emit. reflexivity.
      * unfold bind at 1. unfold glogInfof at 1, emit at 1. reflexivity.
Qed.

End Loop.
Lemma drainAttempts_withEvents evs w :
  drainAttempts (withEvents evs w) = (drainAttempts w + count isDrain evs)%nat.
Proof. unfold drainAttempts, withEvents. cbn [history]. apply count_app. Qed.





(** ** The gates of a cycle *)

Lemma timeSub_pos t u : (0 <? timeSub t u) = true <-> u < t.
Proof.
  unfold timeSub, minDuration, maxDuration.
  destruct (Z.ltb_spec (t - u) (-9223372036854775808));
    [|destruct (Z.ltb_spec 9223372036854775807 (t - u))];
    rewrite Z.ltb_lt; lia.
Qed.

Lemma timeSub_not_pos t u : (0 <? timeSub t u) = false <-> t <= u.
Proof.
  rewrite <- not_true_iff_false, timeSub_pos. lia.
Qed.

Section Gates.
Variable podId : Pod -> string.
Variable flags : Flags.
Variable env : Environment.
Variable client : KubeClient.
Variable pc : PredicateChecker.

Lemma housekeeping_cooldown w :
  cycleStart env w < nextDrainTime w ->
  housekeeping podId flags env client pc w = Returns tt (waited env w).
Proof.
  intros Hcool. apply timeSub_pos in Hcool. unfold cycleStart in Hcool.
  unfold housekeeping, timeUntil.
  unfold bind at 1. unfold getNextDrainTime at 1.
  unfold bind at 1. unfold bind at 1. unfold ask at 1.
  unfold bind at 1. unfold emit at 1. unfold bind at 1.
  unfold getHistory at 1. unfold ret at 1. unfold ret at 1.
  cbn [history nextDrainTime]. rewrite Hcool.
  cbv [bind getNextDrainTime ask emit getHistory ret glogInfof
       history podHeap nodeInfoHeap nextDrainTime].
  unfold waited, withEvents. now rewrite <- !app_assoc.
Qed.

Lemma housekeeping_open w :
  nextDrainTime w <= cycleStart env w ->
  housekeeping podId flags env client pc w =
  if (0 <? length (fst (unschedulableAt env w)))%nat
  then Returns tt (gated env w)
  else processNodes podId flags env client pc (pastGates env w).
Proof.
  intros Hopen. apply timeSub_not_pos in Hopen. unfold cycleStart in Hopen.
  unfold housekeeping, timeUntil.
  unfold bind at 1. unfold getNextDrainTime at 1.
  unfold bind at 1. unfold bind at 1. unfold ask at 1.
  unfold bind at 1. unfold emit at 1. unfold bind at 1.
  unfold getHistory at 1. unfold ret at 1. unfold ret at 1.
  cbn [history nextDrainTime]. rewrite Hopen.
  unfold bind at 1. unfold ask at 1. unfold bind at 1. unfold emit at 1.
  unfold bind at 1. unfold getHistory at 1. unfold ret at 1.
  cbn [history podHeap nodeInfoHeap nextDrainTime].
  rewrite <- app_assoc. cbn [app]. fold (unschedulableAt env w).
  unfold gated, pastGates.
  destruct (unschedulableAt env w) as [pods [e|]]; cbn [snd fst listingLog].
  - unfold bind at 1. unfold glogErrorf at 1, emit at 1.
    cbn [history podHeap nodeInfoHeap nextDrainTime].
    rewrite <- app_assoc. cbn [app].
    destruct (0 <? length pods)%nat; [|reflexivity].
    unfold glogInfof, emit, withEvents.
    cbn [history podHeap nodeInfoHeap nextDrainTime]. reflexivity.
  - unfold bind at 1. unfold ret at 1.
    destruct (0 <? length pods)%nat; [|reflexivity].
    unfold glogInfof, emit, withEvents.
    cbn [history podHeap nodeInfoHeap nextDrainTime]. reflexivity.
Qed.

End Gates.

Lemma count_withEvents f evs w :
  count f (history (withEvents evs w)) = (count f (history w) + count f evs)%nat.
Proof. unfold withEvents. cbn [history]. apply count_app. Qed.

Lemma mainLoop_cooldown podId flags env client pc n w :
  (forall h, timeNow env h < nextDrainTime w) ->
  exists w',
    mainLoop podId flags env client pc n w = Returns tt w' /\
    drainAttempts w' = drainAttempts w /\
    nextDrainTime w' = nextDrainTime w /\
    podHeap w' = podHeap w /\ nodeInfoHeap w' = nodeInfoHeap w.
Proof.
  revert w. induction n as [|n IH]; intros w Hclock.
  - exists w. repeat split; reflexivity.
  - cbn [mainLoop]. unfold bind at 1.
    rewrite (housekeeping_cooldown podId flags env client pc w)
      by (apply Hclock).
    destruct (IH (waited env w)) as (w' & Hrun & Hd & Ht & Hp & Hn).
    { intros h. apply Hclock. }
    exists w'. split; [exact Hrun|].
    rewrite Hd, Ht, Hp, Hn. unfold waited.
    rewrite drainAttempts_withEvents. cbn. repeat split; lia.
Qed.

(** C4. A drain attempt on allocated pods comes back, with the answer of the
    executor, and whatever that answer is the deadline it leaves is the clock
    reading taken when the attempt was over plus the configured delay.  A
    cycle whose clock reading is before the deadline only logs that it waits:
    it sends no drain request and leaves the deadline and both heaps as they
    were, whatever plan the cluster would allow.  So while the clock stays
    before the deadline, no number of cycles adds a drain request. *)
Theorem cooldown_follows_every_drain_attempt podId flags env client pc :
  (forall node pods seen grace timeout w,
     lookupPods w pods = Some seen ->
     exists w',
       drainNode flags env client node pods grace timeout w =
         Returns (drainNodeResult client
                    (history w ++ [drainRequest node pods seen grace timeout]))
                 w' /\
       drainAttempts w' = S (drainAttempts w) /\
       nextDrainTime w' = timeNow env (history w') + nodeDrainDelay flags) /\
  (forall w,
     cycleStart env w < nextDrainTime w ->
     housekeeping podId flags env client pc w = Returns tt (waited env w) /\
     drainAttempts (waited env w) = drainAttempts w /\
     nextDrainTime (waited env w) = nextDrainTime w /\
     podHeap (waited env w) = podHeap w /\
     nodeInfoHeap (waited env w) = nodeInfoHeap w) /\
  (forall n w,
     (forall h, timeNow env h < nextDrainTime w) ->
     exists w',
       mainLoop podId flags env client pc n w = Returns tt w' /\
       drainAttempts w' = drainAttempts w /\
       nextDrainTime w' = nextDrainTime w).
Proof.
  split; [|split].
  - intros node pods seen grace timeout w Hseen.
    exists (afterDrain flags env client node pods seen grace timeout w).
    split; [now apply drainNode_Returns|].
    split; [apply afterDrain_drainAttempts|reflexivity].
  - intros w Hcool. split; [now apply housekeeping_cooldown|].
    unfold waited. rewrite drainAttempts_withEvents. cbn. repeat split; lia.
  - intros n w Hclock.
    destruct (mainLoop_cooldown podId flags env client pc n w Hclock)
      as (w' & Hrun & Hd & Ht & _).
    exists w'. auto.
Qed.

(** On the example cluster the executor fails at time 5: the deadline is 5
    plus the ten minutes of the flag, and three cycles at time 5 drain
    nothing more. *)
Lemma cooldown_follows_every_drain_attempt_witness :
  let drained :=
    worldOf (drainNode Example.flags (Example.envAt 5 ([], None))
               Example.brokenClient Example.worker1 [0%nat; 1%nat] 120
               120000000000 Example.world0) in
  nextDrainTime drained = 600000000005 /\
  drainAttempts drained = 1%nat /\
  drainAttempts
    (worldOf (mainLoop Example.podId Example.flags (Example.envAt 5 ([], None))
                Example.okClient Example.cpuFits 3 drained)) = 1%nat.
Proof.
  intros drained.
  destruct (cooldown_follows_every_drain_attempt Example.podId Example.flags
              (Example.envAt 5 ([], None)) Example.brokenClient Example.cpuFits)
    as (H1 & _ & _).
  destruct (cooldown_follows_every_drain_attempt Example.podId Example.flags
              (Example.envAt 5 ([], None)) Example.okClient Example.cpuFits)
    as (_ & _ & H3).
  destruct (H1 Example.worker1 [0%nat; 1%nat] [Example.podA; Example.podB] 120
              120000000000 Example.world0 eq_refl) as (w' & Hrun & Hd & Ht).
  assert (Hw : drained = w')
    by exact (f_equal (fun o => worldOf o) Hrun).
  destruct (H3 3%nat drained ltac:(intros h; vm_compute; reflexivity))
    as (w'' & Hloop & Hd' & _).
  split; [vm_compute; reflexivity|].
  split; [rewrite Hw; exact Hd|].
  rewrite (f_equal (fun o => drainAttempts (worldOf o)) Hloop). cbn [worldOf].
  rewrite Hd', Hw. exact Hd.
Defined.

(** C6. When the cycle is past the cooldown check and the lister answers
    with unschedulable pods, the cycle ends after the listing: it asks for the
    pods of no node and counts no node map, copies no spot array for a plan,
    sends no drain request, and leaves the deadline and both heaps as they
    were, whatever the cluster holds. *)
Theorem unschedulable_pods_stop_the_cycle podId flags env client pc w :
  nextDrainTime w <= cycleStart env w ->
  fst (unschedulableAt env w) <> [] ->
  housekeeping podId flags env client pc w = Returns tt (gated env w) /\
  count isNodeMapBuild (history (gated env w)) = count isNodeMapBuild (history w) /\
  count isPlanning (history (gated env w)) = count isPlanning (history w) /\
  drainAttempts (gated env w) = drainAttempts w /\
  nextDrainTime (gated env w) = nextDrainTime w /\
  podHeap (gated env w) = podHeap w /\
  nodeInfoHeap (gated env w) = nodeInfoHeap w.
Proof.
  intros Hopen Hpods. rewrite (housekeeping_open _ _ _ _ _ _ Hopen).
  destruct (fst (unschedulableAt env w)) as [|p pods] eqn:E; [congruence|].
  cbn [length Nat.ltb Nat.leb]. split; [reflexivity|].
  unfold gated, pastGates, drainAttempts. rewrite !count_withEvents.
  destruct (snd (unschedulableAt env w)); cbn; repeat split; lia.
Qed.

Lemma unschedulable_pods_stop_the_cycle_witness :
  housekeeping Example.podId Example.flags
    (Example.envAt 5 ([Example.podB], None)) Example.okClient Example.cpuFits
    Example.world0 =
  Returns tt (gated (Example.envAt 5 ([Example.podB], None)) Example.world0).
Proof.
  apply (unschedulable_pods_stop_the_cycle Example.podId Example.flags
           (Example.envAt 5 ([Example.podB], None)) Example.okClient
           Example.cpuFits Example.world0).
  - vm_compute. discriminate.
  - vm_compute. discriminate.
Defined.

(** ** Listing errors *)

Section Listings.
Variable podId : Pod -> string.
Variable flags : Flags.
Variable env : Environment.
Variable client : KubeClient.
Variable pc : PredicateChecker.

Lemma processNodes_listed w :
  processNodes podId flags env client pc w =
  match snd (nodesAt env w) with
  | Some e =>
      Returns tt (withEvents [LogError "Failed to list nodes: %v" [AErr e]]
                             (listingNodes w))
  | None =>
      match NewNodeMap flags client (fst (nodesAt env w)) (listingNodes w) with
      | Returns (_, Some e) w2 =>
          Returns tt (withEvents [LogError "Failed to build node map; %v" [AErr e]]
                                 w2)
      | Returns (nodeMap, None) w2 => reschedule podId flags env client pc nodeMap w2
      | Panics w2 => Panics w2
      end
  end.
Proof.
  unfold processNodes.
  unfold bind at 1. unfold glogInfof at 1, emit at 1.
  unfold bind at 1. unfold ask at 1. unfold bind at 1. unfold emit at 1.
  unfold bind at 1. unfold getHistory at 1. unfold ret at 1.
  cbn [history podHeap nodeInfoHeap nextDrainTime].
  rewrite <- app_assoc. cbn [app].
  change (mkWorld (podHeap w) (nodeInfoHeap w) (nextDrainTime w) _)
    with (listingNodes w).
  change (nodeLister env _) with (nodesAt env w).
  destruct (nodesAt env w) as [nodes [e|]]; cbn [snd fst]; [reflexivity|].
  unfold bind at 1.
  destruct (NewNodeMap flags client nodes (listingNodes w))
    as [[nodeMap [e|]] w2|]; cbn [snd fst]; reflexivity.
Qed.

Lemma reschedule_listed nodeMap w :
  reschedule podId flags env client pc nodeMap w =
  match snd (pdbsAt env nodeMap w) with
  | Some e =>
      Returns tt (withEvents [LogError "Failed to list PDBs: %v" [AErr e]]
                             (listingPDBs nodeMap w))
  | None =>
      (updateSpotNodeMetrics flags env (nodeMapGet nodeMap Spot)
                             (fst (pdbsAt env nodeMap w)) ;;;
       (if (length (nodeMapGet nodeMap OnDemand) <? 1)%nat
        then glogInfof "No nodes to process." []
        else ret tt) ;;;
       processOnDemandNodes podId flags env client pc (nodeMapGet nodeMap Spot)
                            (fst (pdbsAt env nodeMap w)) (nodeMapGet nodeMap OnDemand) ;;;
       glogInfof "Finished processing nodes." []) (listingPDBs nodeMap w)
  end.
Proof.
  unfold reschedule.
  unfold bind at 1. unfold metricsUpdateNodesMap at 1, emit at 1.
  unfold bind at 1. unfold ask at 1. unfold bind at 1. unfold emit at 1.
  unfold bind at 1. unfold getHistory at 1. unfold ret at 1.
  cbn [history podHeap nodeInfoHeap nextDrainTime].
  rewrite <- app_assoc. cbn [app].
  change (mkWorld (podHeap w) (nodeInfoHeap w) (nextDrainTime w) _)
    with (listingPDBs nodeMap w).
  change (podDisruptionBudgetLister env _) with (pdbsAt env nodeMap w).
  destruct (pdbsAt env nodeMap w) as [pdbs [e|]]; cbn [snd fst]; reflexivity.
Qed.

End Listings.

#[local] Instance grows_preorder : PreOrder grows.
Proof.
  split.
  - intros w. split; exists []; now rewrite app_nil_r.
  - intros w1 w2 w3 [[ps Hp] [ns Hn]] [[ps' Hp'] [ns' Hn']]. split.
    + exists (ps ++ ps'). now rewrite Hp', Hp, app_assoc.
    + exists (ns ++ ns'). now rewrite Hn', Hn, app_assoc.
Qed.

Lemma emit_grows e : preserves grows (emit e).
Proof. intros w. split; exists []; cbn; now rewrite app_nil_r. Qed.

Lemma ask_grows {A} c (f : History -> A) : preserves grows (ask c f).
Proof.
  unfold ask. apply preserves_bind; [typeclasses eauto|apply emit_grows|intros _].
  step_preserves.
Qed.

Lemma allocPod_grows v : preserves grows (allocPod v).
Proof. intros w. split; [exists [v]|exists []]; cbn; now rewrite ?app_nil_r. Qed.

Lemma allocNodeInfo_grows v : preserves grows (allocNodeInfo v).
Proof. intros w. split; [exists []|exists [v]]; cbn; now rewrite ?app_nil_r. Qed.

Lemma buildNodeMap_grows flags client nodes : forall acc,
  preserves grows (buildNodeMap flags client nodes acc).
Proof.
  induction nodes as [|node rest IH]; intros acc; cbn [buildNodeMap];
    [step_preserves|].
  destruct (classify flags node) as [role|].
  - apply preserves_bind; [typeclasses eauto|apply ask_grows|].
    intros [listed [e|]]; cbn [snd fst]; [step_preserves|].
    apply preserves_bind; [typeclasses eauto| |intros pods].
    { apply preserves_traverse; [typeclasses eauto|intros v].
      apply allocPod_grows. }
    apply preserves_bind; [typeclasses eauto|apply allocNodeInfo_grows|intros r].
    apply IH.
  - apply preserves_bind; [typeclasses eauto|apply emit_grows|intros _].
    apply IH.
Qed.

Lemma buildNodeMap_keeps_nextDrainTime flags client nodes : forall acc,
  preserves (keeps nextDrainTime) (buildNodeMap flags client nodes acc).
Proof.
  induction nodes as [|node rest IH]; intros acc; cbn [buildNodeMap];
    [step_preserves|].
  destruct (classify flags node) as [role|].
  - apply preserves_bind; [typeclasses eauto|keeps_tac|].
    intros [listed [e|]]; cbn [snd fst]; [step_preserves|].
    apply preserves_bind; [typeclasses eauto| |intros pods].
    { apply preserves_traverse; [typeclasses eauto|intros v]. keeps_tac. }
    apply preserves_bind; [typeclasses eauto|keeps_tac|intros r].
    apply IH.
  - apply preserves_bind; [typeclasses eauto|keeps_tac|intros _].
    apply IH.
Qed.

(** C7. Of the four listings of a cycle, three end the cycle when they fail:
    a failed node listing and a failed budget listing leave only log lines
    and requests behind, and a failed node-map build leaves the deadline and
    every object of both heaps as they were and sends no drain request.  The
    first one does not: when the listing of unschedulable pods fails and hands
    back no pods, the cycle logs the error and goes on to process the nodes as
    if the listing had succeeded. *)
Theorem listing_errors_end_the_cycle_except_the_first podId flags env client pc :
  (forall w e,
     snd (nodesAt env w) = Some e ->
     processNodes podId flags env client pc w =
     Returns tt (withEvents [LogInfo "Starting node processing." [];
                             Request CallListNodes;
                             LogError "Failed to list nodes: %v" [AErr e]] w)) /\
  (forall w nodeMap e w2,
     snd (nodesAt env w) = None ->
     NewNodeMap flags client (fst (nodesAt env w)) (listingNodes w)
       = Returns (nodeMap, Some e) w2 ->
     processNodes podId flags env client pc w =
       Returns tt (withEvents [LogError "Failed to build node map; %v" [AErr e]]
                              w2) /\
     nextDrainTime w2 = nextDrainTime w /\
     grows w w2 /\
     drainAttempts w2 = drainAttempts w) /\
  (forall nodeMap w e,
     snd (pdbsAt env nodeMap w) = Some e ->
     reschedule podId flags env client pc nodeMap w =
     Returns tt (withEvents
                   [MetricUpdate (UpdateNodesMap (length (onDemandInfos nodeMap))
                                                 (length (spotInfos nodeMap)));
                    Request CallListPDBs;
                    LogError "Failed to list PDBs: %v" [AErr e]] w)) /\
  (forall w e,
     nextDrainTime w <= cycleStart env w ->
     unschedulableAt env w = ([], Some e) ->
     housekeeping podId flags env client pc w =
     processNodes podId flags env client pc
       (withEvents [Request CallTimeNow; Request CallListUnschedulablePods;
                    LogError "Failed to get unschedulable pods: %v" [AErr e]] w)).
Proof.
  split; [|split; [|split]].
  - intros w e He. rewrite processNodes_listed, He.
    unfold listingNodes, withEvents. cbn [history podHeap nodeInfoHeap nextDrainTime].
    now rewrite <- app_assoc.
  - intros w nodeMap e w2 Hlist Hbuild.
    rewrite processNodes_listed, Hlist, Hbuild. split; [reflexivity|].
    pose proof (buildNodeMap_keeps_nextDrainTime flags client
                  (fst (nodesAt env w)) (mkNodeMap [] []) (listingNodes w)) as Ht.
    pose proof (buildNodeMap_grows flags client
                  (fst (nodesAt env w)) (mkNodeMap [] []) (listingNodes w)) as Hg.
    pose proof (NewNodeMap_emitsOnly notDrain ltac:(reflexivity) ltac:(reflexivity)
                  flags client (fst (nodesAt env w)) (listingNodes w)) as Hq.
    unfold NewNodeMap in Hbuild. unfold NewNodeMap in Hq.
    rewrite Hbuild in Ht, Hg, Hq. cbn [worldOf] in Ht, Hg, Hq.
    split; [exact Ht|]. split; [exact Hg|].
    rewrite (notDrain_drainAttempts _ _ Hq). unfold listingNodes.
    rewrite drainAttempts_withEvents. cbn. lia.
  - intros nodeMap w e He. rewrite reschedule_listed, He.
    unfold listingPDBs, withEvents. cbn [history podHeap nodeInfoHeap nextDrainTime].
    now rewrite <- app_assoc.
  - intros w e Hopen He. rewrite (housekeeping_open _ _ _ _ _ _ Hopen).
    unfold pastGates. rewrite He. reflexivity.
Qed.

(** The example cluster at time 5, the deadline passed, the listing of
    unschedulable pods timing out: the cycle drains worker-1. *)
Lemma listing_errors_end_the_cycle_except_the_first_witness :
  drainAttempts
    (worldOf (housekeeping Example.podId Example.flags
                (Example.envAt 5 ([], Some (Errorf "request timed out" [])))
                Example.okClient Example.cpuFits (mkWorld [] [] 0 []))) = 1%nat.
Proof.
  destruct (listing_errors_end_the_cycle_except_the_first Example.podId
              Example.flags
              (Example.envAt 5 ([], Some (Errorf "request timed out" [])))
              Example.okClient Example.cpuFits) as (_ & _ & _ & H).
  rewrite (H (mkWorld [] [] 0 []) (Errorf "request timed out" [])
             ltac:(vm_compute; discriminate) eq_refl).
  vm_compute. reflexivity.
Defined.

(** * Metrics *)

Section Metrics.
Variable podId : Pod -> string.
Variable flags : Flags.
Variable env : Environment.
Variable client : KubeClient.
Variable pc : PredicateChecker.



Lemma allocated_withEvents evs w r :
  allocated (withEvents evs w) r = allocated w r.
Proof.
  unfold allocated. cbn [withEvents nodeInfoHeap].
  destruct (nodeInfoHeap w !! r) as [ni|]; [|reflexivity].
  now rewrite lookupPods_withEvents.
Qed.


End Metrics.

(** ** The node map holds objects that can be read *)

Lemma lookupPods_grows w w' pods vs :
  (exists ps, podHeap w' = podHeap w ++ ps) ->
  lookupPods w pods = Some vs -> lookupPods w' pods = Some vs.
Proof.
  intros [ps Hps]. revert vs.
  induction pods as [|p pods IH]; intros vs H; [exact H|].
  cbn [lookupPods] in *.
  destruct (podHeap w !! p) as [v|] eqn:Ev; [|discriminate].
  destruct (lookupPods w pods) as [vs'|]; [|discriminate].
  rewrite Hps, (lookup_app_l_Some _ _ _ _ Ev), (IH vs' eq_refl). exact H.
Qed.

Lemma allocated_grows w w' r :
  grows w w' -> allocated w r = true -> allocated w' r = true.
Proof.
  intros [Hp [ns Hn]]. unfold allocated.
  destruct (nodeInfoHeap w !! r) as [ni|] eqn:Eni; [|discriminate].
  rewrite Hn, (lookup_app_l_Some _ _ _ _ Eni).
  destruct (lookupPods w (Pods ni)) as [vs|] eqn:Evs; [|discriminate].
  now rewrite (lookupPods_grows _ _ _ _ Hp Evs).
Qed.

Lemma traverse_allocPod vs : forall w,
  exists pods w',
    traverse allocPod vs w = Returns pods w' /\
    podHeap w' = podHeap w ++ vs /\
    nodeInfoHeap w' = nodeInfoHeap w /\
    lookupPods w' pods = Some vs.
Proof.
  induction vs as [|v vs IH]; intros w.
  - exists [], w. cbn. now rewrite app_nil_r.
  - cbn [traverse]. unfold bind at 1. unfold allocPod at 1.
    destruct (IH (mkWorld (podHeap w ++ [v]) (nodeInfoHeap w) (nextDrainTime w)
                          (history w)))
      as (pods & w' & Hrun & Hp & Hn & Hl).
    cbn [podHeap nodeInfoHeap] in Hp, Hn.
    exists (length (podHeap w) :: pods), w'.
    unfold bind at 1. rewrite Hrun. split; [reflexivity|].
    rewrite <- app_assoc in Hp. cbn [app] in Hp.
    split; [exact Hp|]. split; [exact Hn|].
    cbn [lookupPods]. rewrite Hl, Hp, list_lookup_middle; reflexivity.
Qed.

Lemma mapAllocated_grows w w' m :
  grows w w' -> mapAllocated w m -> mapAllocated w' m.
Proof.
  intros Hg [Ho Hs].
  split; (eapply Forall_impl; [eassumption|]);
    intros r Hr; exact (allocated_grows _ _ _ Hg Hr).
Qed.

Lemma buildNodeMap_allocated flags client nodes : forall acc w nodeMap w2,
  mapAllocated w acc ->
  buildNodeMap flags client nodes acc w = Returns (nodeMap, None) w2 ->
  mapAllocated w2 nodeMap.
Proof.
  induction nodes as [|node rest IH]; intros acc w nodeMap w2 Hacc Hrun;
    cbn [buildNodeMap] in Hrun.
  - unfold ret in Hrun. now inversion Hrun; subst.
  - destruct (classify flags node) as [role|].
    + unfold bind at 1 in Hrun. unfold ask at 1 in Hrun.
      unfold bind at 1 in Hrun. unfold emit at 1 in Hrun.
      unfold bind at 1 in Hrun. unfold getHistory at 1 in Hrun.
      unfold ret at 1 in Hrun. cbn [history] in Hrun.
      destruct (podsOnNode client _ (nodeName node)) as [listed [e|]];
        cbn [snd fst] in Hrun; [discriminate|].
      unfold bind at 1 in Hrun.
      match type of Hrun with
      | context [traverse allocPod listed ?w1] =>
          destruct (traverse_allocPod listed w1)
            as (pods & w' & Hpods & Hp & Hn & Hl);
          assert (Hg : grows w w')
            by (split; [exists listed; exact Hp|
                        exists []; rewrite Hn; cbn; now rewrite app_nil_r])
      end.
      rewrite Hpods in Hrun.
      unfold bind at 1 in Hrun. unfold allocNodeInfo at 1 in Hrun.
      set (w'' := mkWorld (podHeap w') (nodeInfoHeap w' ++ [mkNodeInfo node pods])
                          (nextDrainTime w') (history w')) in Hrun.
      assert (Hg' : grows w' w'').
      { split; [exists []; cbn; now rewrite app_nil_r|
                exists [mkNodeInfo node pods]; reflexivity]. }
      assert (Hnew : allocated w'' (length (nodeInfoHeap w')) = true).
      { unfold allocated, w''. cbn [nodeInfoHeap].
        rewrite list_lookup_middle by reflexivity. cbn [Pods].
        erewrite lookupPods_grows; [reflexivity| |exact Hl].
        exists []. cbn. now rewrite app_nil_r. }
      eapply IH; [|exact Hrun].
      pose proof (mapAllocated_grows _ _ _ Hg' (mapAllocated_grows _ _ _ Hg Hacc))
        as [Ho Hs].
      destruct role; split; cbn [onDemandInfos spotInfos];
        try assumption; apply Forall_app; split; try assumption;
        now constructor.
    + unfold bind at 1 in Hrun. unfold glogInfof at 1, emit at 1 in Hrun.
      eapply IH; [|exact Hrun].
      apply (mapAllocated_grows w); [|exact Hacc].
      split; exists []; cbn; now rewrite app_nil_r.
Qed.


Section CycleMetrics.
Variable podId : Pod -> string.
Variable flags : Flags.
Variable env : Environment.
Variable client : KubeClient.
Variable pc : PredicateChecker.





End CycleMetrics.




(** * Further properties of the code *)

(** ** The search for a spot node *)

(** However the search ends, the world it leaves is the one it started in
    or that one with the node name of the pod cleared. *)
Lemma findSpotNodeForPod_worldOf client pc nodeInfos pod : forall w o,
  findSpotNodeForPod client pc nodeInfos pod w = o ->
  worldOf o = w \/ worldOf o = clearNodeName pod w.
Proof.
  induction nodeInfos as [|r rest IH]; intros w o H; [subst o; now left|].
  cbn [findSpotNodeForPod] in H. unfold bind at 1 in H. unfold readNodeInfo in H.
  destruct (nodeInfoHeap w !! r) as [ni|]; [|subst o; now left].
  unfold bind at 1 in H. unfold NewNodeInfo, bind at 1 in H.
  rewrite traverse_readPod in H.
  destruct (lookupPods w (Pods ni)) as [vs0|]; [|subst o; now left].
  unfold ret at 1 in H. unfold bind at 1 in H.
  rewrite writePodNodeName_clear in H.
  destruct (podHeap w !! pod) as [v|] eqn:Ep; [|subst o; now left].
  unfold bind at 1 in H. unfold CheckPredicates, bind at 1 in H.
  unfold readPod in H. rewrite (clearNodeName_lookup _ _ _ Ep) in H.
  unfold bind at 1 in H. rewrite traverse_readPod in H.
  cbn [kniPods kniNode SetNode] in H.
  destruct (lookupPods (clearNodeName pod w) (Pods ni)) as [vs|];
    [|subst o; now right].
  unfold ret at 1 in H. cbn beta iota in H.
  destruct (pc (setSpecNodeName v "") (Node_ ni) vs) as [e|];
    [|subst o; now right].
  right. destruct (IH _ _ H) as [-> | ->];
    [reflexivity|apply clearNodeName_idem].
Qed.

(** X1. The search writes nothing but the node name of the pod it is given:
    however it ends, the NodeInfo objects, the log and the deadline are as
    they were, no pod object was added or removed, every other pod object is
    untouched, and the pod itself differs from what it was in its node name
    at most. *)
Theorem findSpotNodeForPod_writes_only_the_node_name
    client pc (nodeInfos : NodeInfoArray) (pod : PodRef) (w : World) :
  let w' := worldOf (findSpotNodeForPod client pc nodeInfos pod w) in
  nodeInfoHeap w' = nodeInfoHeap w /\
  history w' = history w /\
  nextDrainTime w' = nextDrainTime w /\
  length (podHeap w') = length (podHeap w) /\
  (forall p, p <> pod -> podHeap w' !! p = podHeap w !! p) /\
  (forall v, podHeap w !! pod = Some v ->
             exists v', podHeap w' !! pod = Some v' /\ sameButNodeName v v').
Proof.
  intros w'. subst w'.
  destruct (findSpotNodeForPod_worldOf client pc nodeInfos pod w _ eq_refl)
    as [-> | ->].
  - repeat split; try reflexivity.
    intros v Hv. exists v. split; [exact Hv|now left].
  - unfold clearNodeName. destruct (podHeap w !! pod) as [v0|] eqn:Ep.
    + cbn [nodeInfoHeap history nextDrainTime podHeap].
      repeat split; try reflexivity.
      * apply length_insert.
      * intros p Hp. now apply list_lookup_insert_ne.
      * intros v Hv. inversion Hv; subst. exists (setSpecNodeName v "").
        split; [|now right].
        apply list_lookup_insert_eq. eapply lookup_lt_Some, Ep.
    + repeat split; try reflexivity. intros v Hv. discriminate.
Qed.

Lemma lookupPods_clearNodeName pod w ps vs :
  lookupPods w ps = Some vs ->
  exists vs', lookupPods (clearNodeName pod w) ps = Some vs'.
Proof.
  revert vs. induction ps as [|p ps IH]; intros vs H; [now exists []|].
  cbn [lookupPods] in *.
  destruct (podHeap w !! p) as [v|] eqn:Ev; [|discriminate].
  destruct (lookupPods w ps) as [vs0|]; [|discriminate].
  destruct (IH vs0 eq_refl) as [vs' ->].
  destruct (decide (p = pod)) as [Heq|Hne].
  - subst p. rewrite (clearNodeName_lookup _ _ _ Ev). eauto.
  - rewrite (clearNodeName_lookup_ne _ _ _ Hne), Ev. eauto.
Qed.

Lemma allocated_clearNodeName pod w r :
  allocated w r = true -> allocated (clearNodeName pod w) r = true.
Proof.
  unfold allocated. rewrite clearNodeName_nodeInfoHeap.
  destruct (nodeInfoHeap w !! r) as [ni|]; [|discriminate].
  destruct (lookupPods w (Pods ni)) as [vs|] eqn:E; [|discriminate].
  destruct (lookupPods_clearNodeName pod _ _ _ E) as [vs' ->]. reflexivity.
Qed.

Lemma clearNodeName_is_Some pod w p :
  is_Some (podHeap w !! p) -> is_Some (podHeap (clearNodeName pod w) !! p).
Proof.
  intros [v Hv]. destruct (decide (p = pod)) as [Heq|Hne].
  - subst p. exists (setSpecNodeName v ""). now apply clearNodeName_lookup.
  - exists v. rewrite <- Hv. now apply clearNodeName_lookup_ne.
Qed.

Lemma findSpotNodeForPod_allocated client pc nodeInfos pod : forall w,
  is_Some (podHeap w !! pod) ->
  Forall (fun r => allocated w r = true) nodeInfos ->
  findSpotNodeForPod client pc nodeInfos pod w =
  Returns (firstFeasible pc (clearNodeName pod w) pod nodeInfos)
          (match nodeInfos with [] => w | _ :: _ => clearNodeName pod w end).
Proof.
  induction nodeInfos as [|r rest IH]; intros w [v Ep] Hall; [reflexivity|].
  inversion Hall as [|? ? Hr Hrest]; subst.
  pose proof (allocated_clearNodeName pod _ _ Hr) as Hr'.
  unfold allocated in Hr, Hr'. rewrite clearNodeName_nodeInfoHeap in Hr'.
  destruct (nodeInfoHeap w !! r) as [ni|] eqn:Er; [|discriminate].
  destruct (lookupPods w (Pods ni)) as [vs0|] eqn:Evs0; [|discriminate].
  destruct (lookupPods (clearNodeName pod w) (Pods ni)) as [vs|] eqn:Evs;
    [|discriminate].
  cbn [findSpotNodeForPod firstFeasible].
  unfold bind at 1. unfold readNodeInfo. rewrite Er.
  unfold bind at 1. unfold NewNodeInfo, bind at 1. rewrite traverse_readPod, Evs0.
  unfold ret at 1. unfold bind at 1. rewrite writePodNodeName_clear, Ep.
  unfold bind at 1. unfold CheckPredicates, bind at 1. unfold readPod.
  rewrite (clearNodeName_lookup _ _ _ Ep).
  unfold bind at 1. rewrite traverse_readPod. cbn [kniPods kniNode SetNode].
  rewrite Evs. unfold ret at 1. cbn beta iota.
  assert (Hf : feasible pc (clearNodeName pod w) pod r =
               match pc (setSpecNodeName v "") (Node_ ni) vs with
               | None => true | Some _ => false end).
  { unfold feasible. rewrite clearNodeName_nodeInfoHeap, Er.
    rewrite (clearNodeName_lookup _ _ _ Ep), Evs. reflexivity. }
  rewrite Hf. destruct (pc (setSpecNodeName v "") (Node_ ni) vs) as [e|];
    [|reflexivity].
  rewrite IH.
  - rewrite clearNodeName_idem. now destruct rest.
  - apply clearNodeName_is_Some. eauto.
  - eapply Forall_impl; [exact Hrest|].
    intros r' Hr''. now apply allocated_clearNodeName.
Qed.

(** X2. Given a pod that is allocated and NodeInfos that can be read, with
    pods that can be read, the search comes back (no nil dereference), with
    the first NodeInfo of the array that the predicates accept for the pod
    with its node name cleared, or with nil when they accept none, and it
    leaves the world with nothing but that node name cleared. *)
Theorem findSpotNodeForPod_first_fit_on_allocated
    client pc (nodeInfos : NodeInfoArray) (pod : PodRef) (w : World) :
  is_Some (podHeap w !! pod) ->
  nodeInfos <> [] ->
  Forall (fun r => allocated w r = true) nodeInfos ->
  findSpotNodeForPod client pc nodeInfos pod w =
    Returns (firstFeasible pc (clearNodeName pod w) pod nodeInfos)
            (clearNodeName pod w) /\
  (firstFeasible pc (clearNodeName pod w) pod nodeInfos = None <->
   Forall (fun r => feasible pc (clearNodeName pod w) pod r = false) nodeInfos).
Proof.
  intros Hpod Hne Hall. split.
  - rewrite findSpotNodeForPod_allocated by assumption.
    destruct nodeInfos; [congruence|reflexivity].
  - split; [apply firstFeasible_None|].
    clear. induction nodeInfos as [|r rest IH]; [reflexivity|].
    intros H. inversion H as [|? ? Hr Hrest]; subst.
    cbn [firstFeasible]. rewrite Hr. now apply IH.
Qed.

Lemma findSpotNodeForPod_first_fit_on_allocated_witness :
  findSpotNodeForPod Example.okClient Example.cpuFits [3%nat; 4%nat] 1%nat
                     Example.placedA =
  Returns (Some 4%nat) (clearNodeName 1%nat Example.placedA).
Proof.
  destruct (findSpotNodeForPod_first_fit_on_allocated Example.okClient
              Example.cpuFits [3%nat; 4%nat] 1%nat Example.placedA) as [H _].
  - vm_compute. eexists. reflexivity.
  - discriminate.
  - repeat constructor.
  - exact H.
Defined.

Lemma withNodeName_lookup pod s w v :
  podHeap w !! pod = Some v ->
  podHeap (withNodeName pod s w) !! pod = Some (setSpecNodeName v s).
Proof.
  intros Hv. unfold withNodeName. rewrite Hv. cbn [podHeap].
  apply list_lookup_insert_eq. eapply lookup_lt_Some, Hv.
Qed.

Lemma withNodeName_lookup_ne pod s w p :
  p <> pod -> podHeap (withNodeName pod s w) !! p = podHeap w !! p.
Proof.
  intros Hne. unfold withNodeName.
  destruct (podHeap w !! pod); [|reflexivity].
  cbn [podHeap]. now apply list_lookup_insert_ne.
Qed.

Lemma lookupPods_withNodeName pod s w ps vs :
  lookupPods w ps = Some vs ->
  exists vs', lookupPods (withNodeName pod s w) ps = Some vs'.
Proof.
  revert vs. induction ps as [|p ps IH]; intros vs H; [now exists []|].
  cbn [lookupPods] in *.
  destruct (podHeap w !! p) as [v|] eqn:Ev; [|discriminate].
  destruct (lookupPods w ps) as [vs0|]; [|discriminate].
  destruct (IH vs0 eq_refl) as [vs' ->].
  destruct (decide (p = pod)) as [Heq|Hne].
  - subst p. rewrite (withNodeName_lookup _ s _ _ Ev). eauto.
  - rewrite (withNodeName_lookup_ne _ s _ _ Hne), Ev. eauto.
Qed.

Lemma clearNodeName_withNodeName pod s w :
  clearNodeName pod (withNodeName pod s w) = clearNodeName pod w.
Proof.
  destruct (podHeap w !! pod) as [v|] eqn:Ev.
  - unfold clearNodeName at 1. rewrite (withNodeName_lookup _ s _ _ Ev).
    unfold withNodeName, clearNodeName. rewrite Ev.
    cbn [podHeap nodeInfoHeap nextDrainTime history].
    now rewrite list_insert_insert_eq.
  - unfold withNodeName. now rewrite Ev.
Qed.

(** X3. What the search answers does not depend on the node the pod is
    bound to when the search starts: started with any other node name in the
    pod, it returns the same NodeInfo (or nil) and leaves the same world.  In
    particular, run again in the world it left, it answers the same and
    changes nothing. *)
Theorem findSpotNodeForPod_ignores_current_node_name
    client pc (nodeInfos : NodeInfoArray) (pod : PodRef) (s : string)
    (w : World) (res : option NodeInfoRef) (w' : World) :
  nodeInfos <> [] ->
  findSpotNodeForPod client pc nodeInfos pod w = Returns res w' ->
  findSpotNodeForPod client pc nodeInfos pod (withNodeName pod s w)
    = Returns res w' /\
  findSpotNodeForPod client pc nodeInfos pod w' = Returns res w'.
Proof.
  intros Hne H.
  assert (Hgen : forall s', findSpotNodeForPod client pc nodeInfos pod
                              (withNodeName pod s' w) = Returns res w').
  { intros s'. destruct nodeInfos as [|r rest]; [congruence|]. clear Hne.
    cbn [findSpotNodeForPod] in H |- *.
    unfold bind at 1 in H. unfold readNodeInfo in H.
    destruct (nodeInfoHeap w !! r) as [ni|] eqn:Er; [|discriminate].
    unfold bind at 1 in H. unfold NewNodeInfo, bind at 1 in H.
    rewrite traverse_readPod in H.
    destruct (lookupPods w (Pods ni)) as [vs0|] eqn:Evs0; [|discriminate].
    unfold ret at 1 in H. unfold bind at 1 in H.
    rewrite writePodNodeName_clear in H.
    destruct (podHeap w !! pod) as [v|] eqn:Ep; [|discriminate].
    unfold bind at 1. unfold readNodeInfo.
    assert (Hn : nodeInfoHeap (withNodeName pod s' w) = nodeInfoHeap w).
    { unfold withNodeName. now rewrite Ep. }
    rewrite Hn, Er.
    unfold bind at 1. unfold NewNodeInfo, bind at 1. rewrite traverse_readPod.
    destruct (lookupPods_withNodeName pod s' _ _ _ Evs0) as [vs1 ->].
    unfold ret at 1. unfold bind at 1. rewrite writePodNodeName_clear.
    rewrite (withNodeName_lookup _ s' _ _ Ep), clearNodeName_withNodeName.
    exact H. }
  split; [apply Hgen|].
  pose proof (findSpotNodeForPod_Returns _ _ _ _ _ _ _ H) as [_ Hw].
  destruct nodeInfos as [|r rest]; [congruence|]. destruct Hw as [Hw _].
  specialize (Hgen ""). unfold withNodeName in Hgen.
  unfold clearNodeName in Hw. rewrite <- Hw in Hgen. exact Hgen.
Qed.

Lemma findSpotNodeForPod_ignores_current_node_name_witness :
  findSpotNodeForPod Example.okClient Example.cpuFits [1%nat; 2%nat] 0%nat
    (withNodeName 0%nat "spot-2" Example.world0)
  = Returns (Some 1%nat) (clearNodeName 0%nat Example.world0).
Proof.
  apply (findSpotNodeForPod_ignores_current_node_name Example.okClient
           Example.cpuFits [1%nat; 2%nat] 0%nat "spot-2" Example.world0
           (Some 1%nat) (clearNodeName 0%nat Example.world0)).
  - discriminate.
  - vm_compute. reflexivity.
Defined.

(** ** What a plan does to the pods *)

#[local] Instance touchesOnly_preorder pods : PreOrder (touchesOnly pods).
Proof.
  split.
  - intros w. split; [reflexivity|]. intros p v Hv. exists v.
    split; [exact Hv|]. split; [now left|reflexivity].
  - intros w1 w2 w3 [Hl12 H12] [Hl23 H23]. split; [congruence|].
    intros p v Hv. destruct (H12 p v Hv) as (v' & Hv' & Hs & Hn).
    destruct (H23 p v' Hv') as (v'' & Hv'' & Hs' & Hn').
    exists v''. split; [exact Hv''|]. split.
    + destruct Hs as [->| ->]; [exact Hs'|].
      right. destruct Hs' as [->| ->]; reflexivity.
    + intros Hp. rewrite (Hn' Hp). exact (Hn Hp).
Qed.

Lemma keeps_touchesOnly {A} pods (m : M A) :
  preserves (keeps podHeap) m -> preserves (touchesOnly pods) m.
Proof.
  intros Hm w. specialize (Hm w). unfold keeps in Hm. split; [now rewrite Hm|].
  intros p v Hv. exists v. rewrite Hm. split; [exact Hv|].
  split; [now left|reflexivity].
Qed.

Lemma clearNodeName_touchesOnly pods pod w :
  In pod pods -> touchesOnly pods w (clearNodeName pod w).
Proof.
  intros Hin. unfold clearNodeName.
  destruct (podHeap w !! pod) as [v0|] eqn:Ep; [|reflexivity].
  split; cbn [podHeap]; [apply length_insert|].
  intros p v Hv. destruct (decide (p = pod)) as [Heq|Hne].
  - subst p. exists (setSpecNodeName v ""). split; [|split].
    + assert (v0 = v) as -> by congruence.
      apply list_lookup_insert_eq. eapply lookup_lt_Some, Ep.
    + now right.
    + intros Hp. contradiction.
  - exists v. split; [|split; [now left|reflexivity]].
    rewrite <- Hv. now apply list_lookup_insert_ne.
Qed.

Lemma findSpotNodeForPod_touchesOnly pods client pc nodeInfos pod :
  In pod pods ->
  preserves (touchesOnly pods) (findSpotNodeForPod client pc nodeInfos pod).
Proof.
  intros Hin w.
  destruct (findSpotNodeForPod_worldOf client pc nodeInfos pod w _ eq_refl)
    as [-> | ->]; [reflexivity|now apply clearNodeName_touchesOnly].
Qed.

Lemma planPods_touchesOnly pods podId client pc nodePlan candidates :
  (forall p, In p candidates -> In p pods) ->
  preserves (touchesOnly pods) (planPods podId client pc nodePlan candidates).
Proof.
  induction candidates as [|pod rest IH]; intros Hincl; cbn [planPods];
    [step_preserves|].
  apply preserves_bind; [typeclasses eauto| |intros [n|]].
  - apply findSpotNodeForPod_touchesOnly, Hincl. now left.
  - apply preserves_bind; [typeclasses eauto|step_preserves|intros v].
    apply preserves_bind; [typeclasses eauto|step_preserves|intros ni].
    apply preserves_bind; [typeclasses eauto| |intros _].
    { apply keeps_touchesOnly. keeps_tac. }
    apply preserves_bind; [typeclasses eauto| |intros _].
    { apply keeps_touchesOnly. unfold AddPod. keeps_tac. }
    apply IH. intros p Hp. apply Hincl. now right.
  - step_preserves.
Qed.

Lemma buildDrainPlan_touchesOnly podId client pc nodeInfos pods :
  preserves (touchesOnly pods) (buildDrainPlan podId client pc nodeInfos pods).
Proof.
  unfold buildDrainPlan.
  apply preserves_bind; [typeclasses eauto| |intros [arr [e|]]]; cbn [snd fst].
  - apply keeps_touchesOnly. unfold CopyNodeInfos.
    apply preserves_bind; [typeclasses eauto|keeps_prim|intros [e|]];
      [keeps_tac|].
    apply preserves_bind; [typeclasses eauto| |intros arr; keeps_tac].
    apply preserves_traverse; [typeclasses eauto|intros r].
    unfold copyNodeInfo. keeps_tac.
  - step_preserves.
  - now apply planPods_touchesOnly.
Qed.

(** X4. Whatever buildDrainPlan does and however it ends, it adds and
    removes no pod object, it leaves every pod that is not among its
    candidates exactly as it was, and a candidate differs from what it was in
    its node name at most. *)
Theorem buildDrainPlan_touches_only_node_names
    podId client pc (nodeInfos : NodeInfoArray) (pods : list PodRef) (w : World) :
  let w' := worldOf (buildDrainPlan podId client pc nodeInfos pods w) in
  length (podHeap w') = length (podHeap w) /\
  forall p v,
    podHeap w !! p = Some v ->
    exists v', podHeap w' !! p = Some v' /\ sameButNodeName v v' /\
               (~ In p pods -> v' = v).
Proof.
  intros w'. subst w'.
  exact (buildDrainPlan_touchesOnly podId client pc nodeInfos pods w).
Qed.

Lemma buildDrainPlan_touches_only_node_names_witness :
  exists v',
    podHeap (worldOf (buildDrainPlan Example.podId Example.okClient
                        Example.cpuFits [1%nat; 2%nat] [0%nat; 1%nat]
                        Example.world0)) !! 2%nat = Some v' /\
    sameButNodeName Example.podS v' /\
    (~ In 2%nat [0%nat; 1%nat] -> v' = Example.podS).
Proof.
  apply (buildDrainPlan_touches_only_node_names Example.podId Example.okClient
           Example.cpuFits [1%nat; 2%nat] [0%nat; 1%nat] Example.world0).
  reflexivity.
Defined.

(** ** The copy of the spot array *)

Lemma traverse_copyNodeInfo arr : forall w out w',
  Forall (fun r => is_Some (nodeInfoHeap w !! r)) arr ->
  traverse copyNodeInfo arr w = Returns out w' ->
  out = seq (length (nodeInfoHeap w)) (length arr) /\
  podHeap w' = podHeap w /\
  (exists ns, nodeInfoHeap w' = nodeInfoHeap w ++ ns /\ length ns = length arr) /\
  Forall2 (fun r c => nodeInfoHeap w' !! c = nodeInfoHeap w !! r) arr out.
Proof.
  induction arr as [|r rest IH]; intros w out w' Hsome H.
  - cbn in H. inversion H; subst. split; [reflexivity|]. split; [reflexivity|].
    split; [exists []; now rewrite app_nil_r|constructor].
  - inversion Hsome as [|? ? _ Hrest]; subst.
    cbn [traverse] in H. unfold bind at 1 in H.
    unfold copyNodeInfo at 1 in H. unfold bind at 1 in H.
    unfold readNodeInfo at 1 in H.
    destruct (nodeInfoHeap w !! r) as [ni|] eqn:Er; [|discriminate].
    unfold allocNodeInfo at 1 in H. unfold bind at 1 in H.
    match type of H with
    | context [traverse copyNodeInfo rest ?w1] =>
        destruct (traverse copyNodeInfo rest w1) as [out' w''|] eqn:E;
          [|discriminate]
    end.
    unfold ret in H. inversion H; subst. clear H.
    apply IH in E.
    2:{ cbn [nodeInfoHeap]. eapply Forall_impl; [exact Hrest|].
        intros r' [ni' Hr']. exists ni'. now apply lookup_app_l_Some. }
    cbn [nodeInfoHeap podHeap] in E.
    destruct E as (-> & Hp & (ns & Hn & Hlen) & Hall).
    rewrite length_app in *. cbn [length] in *.
    replace (length (nodeInfoHeap w) + 1)%nat with (S (length (nodeInfoHeap w)))
      in * by lia.
    split; [reflexivity|]. split; [exact Hp|]. split.
    + exists (mkNodeInfo (Node_ ni) (Pods ni) :: ns).
      rewrite Hn, <- app_assoc. split; [reflexivity|]. cbn. now rewrite Hlen.
    + constructor.
      * rewrite Hn, <- app_assoc. cbn [app].
        rewrite list_lookup_middle by reflexivity. now destruct ni.
      * clear IH Hsome Hlen. revert Hall Hrest.
        generalize (S (length (nodeInfoHeap w))). intros n Hall Hrest.
        induction Hall as [|r' c rest' out' Hc _ IH']; [constructor|].
        inversion Hrest as [|? ? [ni' Hr'] Hrest']; subst.
        constructor; [|now apply IH'].
        rewrite Hc, Hr'. now apply lookup_app_l_Some.
Qed.

Lemma CopyNodeInfos_Returns client arr w out w' :
  Forall (fun r => is_Some (nodeInfoHeap w !! r)) arr ->
  CopyNodeInfos client arr w = Returns (out, None) w' ->
  out = seq (length (nodeInfoHeap w)) (length arr) /\
  podHeap w' = podHeap w /\
  Forall2 (fun r c => nodeInfoHeap w' !! c = nodeInfoHeap w !! r) arr out.
Proof.
  intros Hsome H. unfold CopyNodeInfos in H.
  unfold bind at 1 in H. unfold ask at 1 in H. unfold bind at 1 in H.
  unfold emit at 1 in H. unfold bind at 1 in H. unfold getHistory at 1 in H.
  unfold ret at 1 in H. cbn [history] in H.
  destruct (copyNodeInfosError client _) as [e|]; [discriminate|].
  unfold bind at 1 in H.
  match type of H with
  | context [traverse copyNodeInfo arr ?w1] =>
      destruct (traverse copyNodeInfo arr w1) as [out' w''|] eqn:E;
        [|discriminate]
  end.
  unfold ret in H. inversion H; subst. clear H.
  apply traverse_copyNodeInfo in E; [|exact Hsome].
  cbn [nodeInfoHeap podHeap] in E. destruct E as (Hout & Hp & _ & Hall).
  auto.
Qed.

Lemma totalPods_ext w w' arr :
  nodeInfoHeap w' = nodeInfoHeap w -> totalPods w' arr = totalPods w arr.
Proof.
  intros H. induction arr as [|r arr IH]; [reflexivity|].
  cbn [totalPods fold_right]. fold (totalPods w' arr). fold (totalPods w arr).
  unfold podsOf. now rewrite H, IH.
Qed.

Lemma totalPods_copies w w' arr out :
  Forall2 (fun r c => nodeInfoHeap w' !! c = nodeInfoHeap w !! r) arr out ->
  totalPods w' out = totalPods w arr.
Proof.
  induction 1 as [|r c arr out Hc _ IH]; [reflexivity|].
  cbn [totalPods fold_right]. fold (totalPods w' out). fold (totalPods w arr).
  unfold podsOf. now rewrite Hc, IH.
Qed.

Lemma totalPods_placePod_notin n pod w arr :
  ~ In n arr -> totalPods (placePod n pod w) arr = totalPods w arr.
Proof.
  intros Hn. unfold placePod.
  destruct (nodeInfoHeap w !! n) as [ni|]; [|reflexivity].
  induction arr as [|r arr IH]; [reflexivity|].
  cbn [totalPods fold_right].
  fold (totalPods (mkWorld (podHeap w)
                           (<[n := mkNodeInfo (Node_ ni) (Pods ni ++ [pod])]>
                              (nodeInfoHeap w))
                           (nextDrainTime w) (history w)) arr).
  fold (totalPods w arr).
  rewrite IH by (intros Hin; apply Hn; now right).
  unfold podsOf. cbn [nodeInfoHeap].
  rewrite list_lookup_insert_ne; [reflexivity|].
  intros Heq. apply Hn. now left.
Qed.

Lemma totalPods_placePod n pod w arr ni :
  NoDup arr -> In n arr -> nodeInfoHeap w !! n = Some ni ->
  totalPods (placePod n pod w) arr = S (totalPods w arr).
Proof.
  intros Hnd Hin Hni. induction Hnd as [|r arr Hr Hnd IH]; [contradiction|].
  cbn [totalPods fold_right].
  fold (totalPods (placePod n pod w) arr). fold (totalPods w arr).
  destruct (decide (r = n)) as [Heq|Hne].
  - subst r. rewrite totalPods_placePod_notin
      by (intros Hin'; apply Hr; now apply list_elem_of_In).
    unfold podsOf, placePod. rewrite Hni. cbn [nodeInfoHeap].
    rewrite list_lookup_insert_eq by (eapply lookup_lt_Some, Hni).
    cbn [Pods]. rewrite length_app. cbn [length]. lia.
  - destruct Hin as [Heq|Hin]; [congruence|]. rewrite (IH Hin).
    unfold podsOf at 1. unfold placePod. rewrite Hni. cbn [nodeInfoHeap].
    rewrite list_lookup_insert_ne by congruence.
    unfold podsOf. rewrite Nat.add_succ_r. reflexivity.
Qed.

Lemma planPods_totalPods podId client pc nodePlan pods :
  NoDup nodePlan ->
  forall w w',
    planPods podId client pc nodePlan pods w = Returns None w' ->
    totalPods w' nodePlan = (totalPods w nodePlan + length pods)%nat.
Proof.
  intros Hnd. induction pods as [|pod rest IH]; intros w w' H.
  - cbn in H. inversion H; subst. cbn. lia.
  - destruct (findSpotNodeForPod client pc nodePlan pod w) as [[n|] w1|] eqn:E.
    + destruct (planPods_placed podId client pc nodePlan pod rest w n w1 E)
        as (v & ni & Hv & Hni & Hstep).
      rewrite Hstep in H. apply IH in H. rewrite H.
      rewrite (totalPods_placePod n pod _ nodePlan ni Hnd).
      * rewrite (totalPods_ext w (withEvent (placementLine podId v ni) w1)).
        -- cbn [length]. lia.
        -- unfold withEvent. cbn [nodeInfoHeap].
           pose proof (findSpotNodeForPod_keeps_nodeInfoHeap client pc nodePlan
                         pod w) as Hk.
           rewrite E in Hk. exact Hk.
      * apply list_elem_of_In. eapply findSpotNodeForPod_elem, E.
      * exact Hni.
    + cbn [planPods] in H. unfold bind at 1 in H. rewrite E in H.
      unfold bind, readPod, ret in H.
      destruct (podHeap w1 !! pod); discriminate.
    + cbn [planPods] in H. unfold bind at 1 in H. rewrite E in H. discriminate.
Qed.

(** X5. When buildDrainPlan returns nil, every candidate was entered once
    in the copy of the spot array: the copies, which are the NodeInfo objects
    allocated by the call, hold together as many pods as the NodeInfos of the
    real array held, plus one for each candidate.  (With CopyNodeInfos and
    AddPod as the spec describes them.) *)
Theorem buildDrainPlan_places_every_candidate_once
    podId client pc (nodeInfos : NodeInfoArray) (pods : list PodRef)
    (w w' : World) :
  Forall (fun r => is_Some (nodeInfoHeap w !! r)) nodeInfos ->
  buildDrainPlan podId client pc nodeInfos pods w = Returns None w' ->
  totalPods w' (seq (length (nodeInfoHeap w)) (length nodeInfos)) =
  (totalPods w nodeInfos + length pods)%nat.
Proof.
  intros Hsome H. unfold buildDrainPlan in H. unfold bind at 1 in H.
  destruct (CopyNodeInfos client nodeInfos w) as [[out [e|]] w0|] eqn:E;
    cbn [snd fst] in H; [discriminate| |discriminate].
  destruct (CopyNodeInfos_Returns _ _ _ _ _ Hsome E) as (-> & _ & Hall).
  apply planPods_totalPods in H; [|apply NoDup_seq].
  rewrite H. now rewrite (totalPods_copies _ _ _ _ Hall).
Qed.

Lemma buildDrainPlan_places_every_candidate_once_witness :
  totalPods (worldOf (buildDrainPlan Example.podId Example.okClient
                        Example.cpuFits [1%nat; 2%nat] [0%nat; 1%nat]
                        Example.world0)) [3%nat; 4%nat] = 3%nat.
Proof.
  apply (buildDrainPlan_places_every_candidate_once Example.podId
           Example.okClient Example.cpuFits [1%nat; 2%nat] [0%nat; 1%nat]
           Example.world0).
  - repeat constructor; vm_compute; eexists; reflexivity.
  - vm_compute. reflexivity.
Defined.

(** ** A plan on allocated objects comes back *)

Lemma lookupPods_ext w w' ps :
  podHeap w' = podHeap w -> lookupPods w' ps = lookupPods w ps.
Proof.
  intros H. induction ps as [|p ps IH]; [reflexivity|].
  cbn [lookupPods]. now rewrite H, IH.
Qed.

Lemma allocated_ext w w' r :
  podHeap w' = podHeap w -> nodeInfoHeap w' = nodeInfoHeap w ->
  allocated w' r = allocated w r.
Proof.
  intros Hp Hn. unfold allocated. rewrite Hn.
  destruct (nodeInfoHeap w !! r) as [ni|]; [|reflexivity].
  now rewrite (lookupPods_ext _ _ _ Hp).
Qed.

Lemma allocated_is_Some w r :
  allocated w r = true -> is_Some (nodeInfoHeap w !! r).
Proof.
  unfold allocated. destruct (nodeInfoHeap w !! r) as [ni|]; [eauto|discriminate].
Qed.

Lemma lookupPods_snoc w ps p vs v :
  lookupPods w ps = Some vs -> podHeap w !! p = Some v ->
  lookupPods w (ps ++ [p]) = Some (vs ++ [v]).
Proof.
  revert vs. induction ps as [|q ps IH]; intros vs Hvs Hv.
  - cbn in Hvs. inversion Hvs; subst. cbn. now rewrite Hv.
  - cbn [lookupPods app] in *.
    destruct (podHeap w !! q) as [u|]; [|discriminate].
    destruct (lookupPods w ps) as [us|]; [|discriminate].
    inversion Hvs; subst. now rewrite (IH us eq_refl Hv).
Qed.

Lemma allocated_placePod n pod w r :
  is_Some (podHeap w !! pod) ->
  allocated w r = true -> allocated (placePod n pod w) r = true.
Proof.
  intros [v Hv] Hr. unfold placePod.
  destruct (nodeInfoHeap w !! n) as [ni|] eqn:En; [|exact Hr].
  set (ni1 := mkNodeInfo (Node_ ni) (Pods ni ++ [pod])).
  unfold allocated in *. cbn [nodeInfoHeap].
  destruct (decide (r = n)) as [Heq|Hne].
  - subst r.
    assert (Hl : <[n := ni1]> (nodeInfoHeap w) !! n = Some ni1)
      by (apply list_lookup_insert_eq; eapply lookup_lt_Some, En).
    rewrite Hl. rewrite En in Hr. cbn [Pods ni1].
    destruct (lookupPods w (Pods ni)) as [vs|] eqn:Evs; [|discriminate].
    rewrite (lookupPods_ext w) by reflexivity.
    now rewrite (lookupPods_snoc _ _ _ _ _ Evs Hv).
  - assert (Hl : <[n := ni1]> (nodeInfoHeap w) !! r = nodeInfoHeap w !! r)
      by (apply list_lookup_insert_ne; congruence).
    rewrite Hl.
    destruct (nodeInfoHeap w !! r) as [ni'|]; [|discriminate].
    rewrite (lookupPods_ext w) by reflexivity. exact Hr.
Qed.

Lemma traverse_copyNodeInfo_returns arr : forall w,
  Forall (fun r => is_Some (nodeInfoHeap w !! r)) arr ->
  exists out w', traverse copyNodeInfo arr w = Returns out w'.
Proof.
  induction arr as [|r rest IH]; intros w Hsome; [cbn; eauto|].
  inversion Hsome as [|? ? [ni Hr] Hrest]; subst.
  cbn [traverse]. unfold bind at 1. unfold copyNodeInfo at 1.
  unfold bind at 1. unfold readNodeInfo at 1. rewrite Hr.
  unfold allocNodeInfo at 1. unfold bind at 1.
  match goal with
  | |- context [traverse copyNodeInfo rest ?w1] =>
      destruct (IH w1) as (out & w' & ->)
  end.
  - cbn [nodeInfoHeap]. eapply Forall_impl; [exact Hrest|].
    intros r' [ni' Hr']. exists ni'. now apply lookup_app_l_Some.
  - unfold ret. eauto.
Qed.

Lemma planPods_returns podId client pc nodePlan pods : forall w,
  Forall (fun r => allocated w r = true) nodePlan ->
  Forall (fun p => is_Some (podHeap w !! p)) pods ->
  exists err w', planPods podId client pc nodePlan pods w = Returns err w'.
Proof.
  induction pods as [|pod rest IH]; intros w Hplan Hpods; [cbn; eauto|].
  inversion Hpods as [|? ? Hpod Hrest]; subst.
  pose proof (findSpotNodeForPod_allocated client pc nodePlan pod w Hpod Hplan)
    as Hfind.
  set (w1 := match nodePlan with [] => w | _ :: _ => clearNodeName pod w end)
    in Hfind.
  assert (Hplan1 : Forall (fun r => allocated w1 r = true) nodePlan).
  { subst w1. destruct nodePlan; [exact Hplan|].
    eapply Forall_impl; [exact Hplan|].
    intros r Hr. now apply allocated_clearNodeName. }
  assert (Hpods1 : Forall (fun p => is_Some (podHeap w1 !! p)) (pod :: rest)).
  { subst w1. destruct nodePlan; [exact Hpods|].
    eapply Forall_impl; [exact Hpods|].
    intros p Hp. now apply clearNodeName_is_Some. }
  inversion Hpods1 as [|? ? [v Hv] Hrest1]; subst.
  destruct (firstFeasible pc (clearNodeName pod w) pod nodePlan) as [n|] eqn:Ef.
  - destruct (planPods_placed podId client pc nodePlan pod rest w n w1 Hfind)
      as (v' & ni & Hv' & Hni & ->).
    apply IH.
    + eapply Forall_impl; [exact Hplan1|]. intros r Hr. cbn beta.
      apply allocated_placePod.
      * unfold withEvent. cbn [podHeap]. eauto.
      * rewrite (allocated_ext w1) by reflexivity. exact Hr.
    + eapply Forall_impl; [exact Hrest1|]. intros p Hp. cbn beta.
      unfold placePod, withEvent. cbn [nodeInfoHeap].
      destruct (nodeInfoHeap w1 !! n); exact Hp.
  - rewrite (planPods_unplaceable podId client pc nodePlan pod rest w w1 v
               Hfind Hv). eauto.
Qed.

Lemma buildDrainPlan_returns
    podId client pc (nodeInfos : NodeInfoArray) (pods : list PodRef) (w : World) :
  Forall (fun r => allocated w r = true) nodeInfos ->
  Forall (fun p => is_Some (podHeap w !! p)) pods ->
  exists err w',
    buildDrainPlan podId client pc nodeInfos pods w = Returns err w'.
Proof.
  intros Hall Hpods.
  assert (Hsome : Forall (fun r => is_Some (nodeInfoHeap w !! r)) nodeInfos).
  { eapply Forall_impl; [exact Hall|]. intros r. apply allocated_is_Some. }
  unfold buildDrainPlan. unfold bind at 1.
  destruct (CopyNodeInfos client nodeInfos w) as [[out [e|]] w0|] eqn:E;
    cbn [snd fst].
  - unfold ret. eauto.
  - destruct (CopyNodeInfos_Returns _ _ _ _ _ Hsome E) as (_ & Hp & Hcopies).
    apply planPods_returns.
    + clear E. induction Hcopies as [|r c arr out' Hc _ IH]; [constructor|].
      inversion Hall as [|? ? Hr Hall']; subst.
      inversion Hsome as [|? ? _ Hsome']; subst.
      constructor; [|now apply IH].
      unfold allocated in *. rewrite Hc.
      destruct (nodeInfoHeap w !! r) as [ni|]; [|discriminate].
      now rewrite (lookupPods_ext _ _ _ Hp).
    + eapply Forall_impl; [exact Hpods|]. intros p Hpod. cbn beta.
      now rewrite Hp.
  - exfalso. unfold CopyNodeInfos in E.
    unfold bind at 1 in E. unfold ask at 1 in E. unfold bind at 1 in E.
    unfold emit at 1 in E. unfold bind at 1 in E. unfold getHistory at 1 in E.
    unfold ret at 1 in E. cbn [history] in E.
    destruct (copyNodeInfosError client _) as [e|]; [discriminate|].
    unfold bind at 1 in E.
    match type of E with
    | context [traverse copyNodeInfo nodeInfos ?w1] =>
        destruct (traverse_copyNodeInfo_returns nodeInfos w1 Hsome)
          as (out & w' & Hrun)
    end.
    rewrite Hrun in E. discriminate.
Qed.

(** X6. buildDrainPlan comes back, with nil or with an error and without a
    nil dereference, whenever every NodeInfo of the array it is given can be
    read together with its pods and every candidate is an allocated pod.
    (With CopyNodeInfos and AddPod as the spec describes them.) *)
Theorem buildDrainPlan_returns_on_allocated
    podId client pc (nodeInfos : NodeInfoArray) (pods : list PodRef) (w : World) :
  Forall (fun r => allocated w r = true) nodeInfos ->
  Forall (fun p => is_Some (podHeap w !! p)) pods ->
  exists err w',
    buildDrainPlan podId client pc nodeInfos pods w = Returns err w'.
Proof. exact (buildDrainPlan_returns podId client pc nodeInfos pods w). Qed.

Lemma buildDrainPlan_returns_on_allocated_witness :
  exists err w',
    buildDrainPlan Example.podId Example.okClient Example.cpuFits
                   [1%nat; 2%nat] [0%nat; 1%nat] Example.world0
    = Returns err w'.
Proof.
  apply (buildDrainPlan_returns_on_allocated Example.podId Example.okClient
           Example.cpuFits [1%nat; 2%nat] [0%nat; 1%nat] Example.world0).
  - repeat constructor.
  - repeat constructor; vm_compute; eexists; reflexivity.
Defined.

(** ** What every cycle keeps *)

#[local] Instance calm_preorder : PreOrder calm.
Proof.
  split.
  - intros w. split; reflexivity.
  - intros w1 w2 w3 [H12 T12] [H23 T23]. split; [|congruence].
    etransitivity; eassumption.
Qed.

#[local] Instance balanced_preorder : PreOrder balanced.
Proof.
  split.
  - intros w. unfold balanced. lia.
  - intros w1 w2 w3. unfold balanced. lia.
Qed.

#[local] Instance cooled_preorder flags env : PreOrder (cooled flags env).
Proof.
  split.
  - intros w. unfold cooled. repeat split; [lia|lia].
  - intros w1 w2 w3 (L12 & S12 & D12) (L23 & S23 & D23).
    split; [lia|]. split.
    + intros Heq. rewrite S23 by lia. apply S12. lia.
    + intros Hlt.
      destruct (decide (drainAttempts w2 = drainAttempts w3)) as [Heq|Hne].
      * rewrite S23 by lia. apply D12. lia.
      * apply D23. lia.
Qed.

Lemma calm_intro {A} (m : M A) :
  preserves (emitsOnly calmEvent) m -> preserves (keeps nextDrainTime) m ->
  preserves calm m.
Proof. intros He Hk w. split; [apply He|apply Hk]. Qed.

Lemma calm_counts w w' :
  calm w w' ->
  drainAttempts w' = drainAttempts w /\
  count isDrainCount (history w') = count isDrainCount (history w) /\
  nextDrainTime w' = nextDrainTime w.
Proof.
  intros [He Ht]. split; [|split; [|exact Ht]].
  - apply (emitsOnly_count calmEvent isDrain _ _); [|exact He].
    intros e H. unfold calmEvent in H. apply andb_true_iff in H as [H _].
    now apply negb_true_iff.
  - apply (emitsOnly_count calmEvent isDrainCount _ _); [|exact He].
    intros e H. unfold calmEvent in H. apply andb_true_iff in H as [_ H].
    now apply negb_true_iff.
Qed.

Lemma emit_calm e : calmEvent e = true -> preserves calm (emit e).
Proof.
  intros He. apply calm_intro; [now apply emit_emitsOnly|keeps_prim].
Qed.

Lemma ask_calm {A} c (f : History -> A) :
  calmEvent (Request c) = true -> preserves calm (ask c f).
Proof.
  intros He. apply calm_intro; [now apply ask_emitsOnly|].
  unfold ask. keeps_tac.
Qed.

Lemma GetPodsForDeletionOnNodeDrain_keeps_nextDrainTime env pods pdbs now :
  preserves (keeps nextDrainTime)
            (GetPodsForDeletionOnNodeDrain env pods pdbs now).
Proof. unfold GetPodsForDeletionOnNodeDrain. keeps_tac. Qed.

Lemma updateSpotNodeMetrics_keeps_nextDrainTime flags env spot pdbs :
  preserves (keeps nextDrainTime) (updateSpotNodeMetrics flags env spot pdbs).
Proof.
  induction spot as [|r spot IH]; cbn [updateSpotNodeMetrics]; [step_preserves|].
  apply preserves_bind; [typeclasses eauto|step_preserves|intros ni].
  apply preserves_bind; [typeclasses eauto|unfold ask; keeps_tac|intros now].
  apply preserves_bind;
    [typeclasses eauto|apply GetPodsForDeletionOnNodeDrain_keeps_nextDrainTime|].
  intros [found [e|]]; cbn [snd fst];
    (apply preserves_bind; [typeclasses eauto|keeps_tac|intros _; exact IH]).
Qed.

Section CycleSteps.
Variable podId : Pod -> string.
Variable flags : Flags.
Variable env : Environment.
Variable client : KubeClient.
Variable pc : PredicateChecker.
Variable R : relation World.
Context `{!PreOrder R}.
Hypothesis emit_R : forall e, calmEvent e = true -> preserves R (emit e).
Hypothesis ask_R :
  forall A c (f : History -> A),
    calmEvent (Request c) = true -> preserves R (ask c f).
Hypothesis filter_R :
  forall pods pdbs now,
    preserves R (GetPodsForDeletionOnNodeDrain env pods pdbs now).
Hypothesis plan_R :
  forall spot pods, preserves R (buildDrainPlan podId client pc spot pods).
Hypothesis spot_R :
  forall spot pdbs, preserves R (updateSpotNodeMetrics flags env spot pdbs).
Hypothesis map_R : forall nodes, preserves R (NewNodeMap flags client nodes).
Hypothesis drainNode_R :
  forall node pods grace timeout,
    preserves R (drainNode flags env client node pods grace timeout).

Lemma processOnDemandNodes_steps spot pdbs nodes :
  preserves R (processOnDemandNodes podId flags env client pc spot pdbs nodes).
Proof.
  induction nodes as [|nodeInfo rest IH]; cbn [processOnDemandNodes];
    [step_preserves|].
  apply preserves_bind; [typeclasses eauto|step_preserves|intros ni].
  apply preserves_bind;
    [typeclasses eauto|now apply ask_R|intros now].
  apply preserves_bind; [typeclasses eauto|apply filter_R|].
  intros [found [e|]]; cbn [snd fst].
  - apply preserves_bind;
      [typeclasses eauto|now apply emit_R|intros _].
    exact IH.
  - apply preserves_bind;
      [typeclasses eauto|now apply emit_R|intros _].
    destruct (length found <? 1)%nat.
    + apply preserves_bind;
        [typeclasses eauto|now apply emit_R|intros _].
      exact IH.
    + apply preserves_bind;
        [typeclasses eauto|now apply emit_R|intros _].
      apply preserves_bind; [typeclasses eauto|apply plan_R|intros [e|]].
      * apply preserves_bind;
          [typeclasses eauto|now apply emit_R|intros _].
        exact IH.
      * apply preserves_bind;
          [typeclasses eauto|now apply emit_R|intros _].
        apply preserves_bind; [typeclasses eauto|apply drainNode_R|intros [e|]];
          [now apply emit_R|step_preserves].
Qed.

Lemma reschedule_steps nodeMap :
  preserves R (reschedule podId flags env client pc nodeMap).
Proof.
  unfold reschedule.
  apply preserves_bind;
    [typeclasses eauto|now apply emit_R|intros _].
  apply preserves_bind;
    [typeclasses eauto|now apply ask_R|].
  intros [allPDBs [e|]]; cbn [snd fst];
    [now apply emit_R|].
  apply preserves_bind; [typeclasses eauto|apply spot_R|intros _].
  apply preserves_bind; [typeclasses eauto| |intros _].
  { destruct (length (nodeMapGet nodeMap OnDemand) <? 1)%nat;
      [now apply emit_R|step_preserves]. }
  apply preserves_bind;
    [typeclasses eauto|apply processOnDemandNodes_steps|intros _].
  now apply emit_R.
Qed.

Lemma processNodes_steps :
  preserves R (processNodes podId flags env client pc).
Proof.
  unfold processNodes.
  apply preserves_bind;
    [typeclasses eauto|now apply emit_R|intros _].
  apply preserves_bind;
    [typeclasses eauto|now apply ask_R|].
  intros [allNodes [e|]]; cbn [snd fst];
    [now apply emit_R|].
  apply preserves_bind; [typeclasses eauto|apply map_R|].
  intros [nodeMap [e|]]; cbn [snd fst];
    [now apply emit_R|].
  apply reschedule_steps.
Qed.

Lemma housekeeping_steps :
  preserves R (housekeeping podId flags env client pc).
Proof.
  unfold housekeeping, timeUntil.
  apply preserves_bind; [typeclasses eauto|step_preserves|intros t].
  apply preserves_bind; [typeclasses eauto| |intros remaining].
  { apply preserves_bind;
      [typeclasses eauto|now apply ask_R|intros now].
    step_preserves. }
  destruct (0 <? remaining).
  { apply preserves_bind; [typeclasses eauto|step_preserves|intros t'].
    apply preserves_bind;
      [typeclasses eauto| |intros r'; now apply emit_R].
    apply preserves_bind;
      [typeclasses eauto|now apply ask_R|intros now].
    step_preserves. }
  apply preserves_bind;
    [typeclasses eauto|now apply ask_R|].
  intros [unschedulable err]; cbn [snd fst].
  apply preserves_bind; [typeclasses eauto| |intros _].
  { destruct err; [now apply emit_R|step_preserves]. }
  destruct (0 <? length unschedulable)%nat;
    [now apply emit_R|].
  apply processNodes_steps.
Qed.

Lemma mainLoop_steps n :
  preserves R (mainLoop podId flags env client pc n).
Proof.
  induction n as [|n IH]; cbn [mainLoop]; [step_preserves|].
  apply preserves_bind; [typeclasses eauto|apply housekeeping_steps|].
  intros _. exact IH.
Qed.

End CycleSteps.

(** The same for a relation that holds across every calm step. *)
Section CycleInvariant.
Variable podId : Pod -> string.
Variable flags : Flags.
Variable env : Environment.
Variable client : KubeClient.
Variable pc : PredicateChecker.
Variable R : relation World.
Context `{!PreOrder R}.
Hypothesis calm_R : forall w w', calm w w' -> R w w'.
Hypothesis drainNode_R :
  forall node pods grace timeout,
    preserves R (drainNode flags env client node pods grace timeout).

Lemma calm_step {A} (m : M A) : preserves calm m -> preserves R m.
Proof. intros H w. apply calm_R, H. Qed.

Lemma housekeeping_invariant :
  preserves R (housekeeping podId flags env client pc).
Proof.
  apply housekeeping_steps; try assumption.
  - intros e He. apply calm_step. now apply emit_calm.
  - intros A c f Hc. apply calm_step. now apply ask_calm.
  - intros pods pdbs now. apply calm_step, calm_intro;
      [now apply GetPodsForDeletionOnNodeDrain_emitsOnly
      |apply GetPodsForDeletionOnNodeDrain_keeps_nextDrainTime].
  - intros spot pods. apply calm_step, calm_intro;
      [now apply buildDrainPlan_emitsOnly
      |apply buildDrainPlan_keeps_nextDrainTime].
  - intros spot pdbs. apply calm_step, calm_intro;
      [now apply updateSpotNodeMetrics_emitsOnly
      |apply updateSpotNodeMetrics_keeps_nextDrainTime].
  - intros nodes. apply calm_step, calm_intro;
      [now apply NewNodeMap_emitsOnly|apply buildNodeMap_keeps_nextDrainTime].
Qed.

Lemma mainLoop_invariant n :
  preserves R (mainLoop podId flags env client pc n).
Proof.
  induction n as [|n IH]; cbn [mainLoop]; [step_preserves|].
  apply preserves_bind; [typeclasses eauto|apply housekeeping_invariant|].
  intros _. exact IH.
Qed.

End CycleInvariant.

Lemma calm_balanced w w' : calm w w' -> balanced w w'.
Proof.
  intros H. destruct (calm_counts _ _ H) as (Hd & Hc & _).
  unfold balanced. lia.
Qed.

Lemma drainNode_balanced flags env client node pods grace timeout :
  preserves balanced (drainNode flags env client node pods grace timeout).
Proof.
  intros w. destruct (lookupPods w pods) as [seen|] eqn:E.
  - rewrite (drainNode_Returns _ _ _ _ _ _ _ _ _ E). cbn [worldOf].
    unfold balanced. rewrite afterDrain_drainAttempts.
    unfold afterDrain. cbn [history]. rewrite !count_app.
    cbn [count isDrainCount drainRequest]. lia.
  - rewrite (drainNode_Panics _ _ _ _ _ _ _ _ E). reflexivity.
Qed.

Lemma calm_cooled flags env w w' : calm w w' -> cooled flags env w w'.
Proof.
  intros H. destruct (calm_counts _ _ H) as (Hd & _ & Ht).
  unfold cooled. split; [lia|]. split; [auto|lia].
Qed.

Lemma drainNode_cooled flags env client node pods grace timeout :
  preserves (cooled flags env)
            (drainNode flags env client node pods grace timeout).
Proof.
  intros w. destruct (lookupPods w pods) as [seen|] eqn:E.
  - rewrite (drainNode_Returns _ _ _ _ _ _ _ _ _ E). cbn [worldOf].
    unfold cooled. rewrite afterDrain_drainAttempts.
    split; [lia|]. split; [lia|]. intros _.
    unfold afterDrain. cbn [nextDrainTime]. eauto.
  - rewrite (drainNode_Panics _ _ _ _ _ _ _ _ E). reflexivity.
Qed.

(** X7. The drain metric counts the drain requests: over any number of
    cycles, and over one cycle, as many drain counts are written as drain
    requests are sent, however the run ends. *)
Theorem every_drain_attempt_is_counted podId flags env client pc :
  (forall w,
     let w' := worldOf (housekeeping podId flags env client pc w) in
     (drainAttempts w' + count isDrainCount (history w) =
      drainAttempts w + count isDrainCount (history w'))%nat) /\
  (forall n w,
     let w' := worldOf (mainLoop podId flags env client pc n w) in
     (drainAttempts w' + count isDrainCount (history w) =
      drainAttempts w + count isDrainCount (history w'))%nat).
Proof.
  split.
  - intros w.
    apply (housekeeping_invariant podId flags env client pc balanced
             calm_balanced (drainNode_balanced flags env client)).
  - intros n w.
    apply (mainLoop_invariant podId flags env client pc balanced
             calm_balanced (drainNode_balanced flags env client)).
Qed.

(** X8. The deadline moves only with a drain attempt: over any number of
    cycles, and over one cycle, no drain request is taken out of the
    history; when none was added the deadline is what it was, and when one
    was added the deadline is a reading of the clock plus the drain delay. *)
Theorem deadline_moves_only_with_a_drain_attempt podId flags env client pc :
  (forall w, cooled flags env w
               (worldOf (housekeeping podId flags env client pc w))) /\
  (forall n w, cooled flags env w
                 (worldOf (mainLoop podId flags env client pc n w))).
Proof.
  split.
  - intros w.
    apply (housekeeping_invariant podId flags env client pc (cooled flags env)
             (calm_cooled flags env) (drainNode_cooled flags env client)).
  - intros n w.
    apply (mainLoop_invariant podId flags env client pc (cooled flags env)
             (calm_cooled flags env) (drainNode_cooled flags env client)).
Qed.

Lemma deadline_moves_only_with_a_drain_attempt_witness :
  let w := mkWorld [] [] 0 [] in
  let w' := worldOf (housekeeping Example.podId Example.flags
                       (Example.envAt 5 ([], None)) Example.okClient
                       Example.cpuFits w) in
  exists h, nextDrainTime w' =
            timeNow (Example.envAt 5 ([], None)) h
            + nodeDrainDelay Example.flags.
Proof.
  intros w w'.
  destruct (deadline_moves_only_with_a_drain_attempt Example.podId
              Example.flags (Example.envAt 5 ([], None)) Example.okClient
              Example.cpuFits) as [H _].
  destruct (H w) as (_ & _ & Hd). apply Hd. vm_compute. lia.
Defined.

Lemma mainLoop_atMostOneDrain_in_a_window podId flags env client pc :
  (forall h h', timeNow env h < timeNow env h' + nodeDrainDelay flags) ->
  forall n w,
    (drainAttempts (worldOf (mainLoop podId flags env client pc n w))
     <= drainAttempts w + 1)%nat.
Proof.
  intros Hclock. induction n as [|n IH]; intros w; [cbn; lia|].
  cbn [mainLoop]. unfold bind at 1.
  pose proof (housekeeping_atMostOneDrain podId flags env client pc w) as H1.
  pose proof (housekeeping_invariant podId flags env client pc (cooled flags env)
                (calm_cooled flags env) (drainNode_cooled flags env client) w)
    as (Hle & Hsame & Hdrained).
  unfold atMostOneDrain in H1.
  destruct (housekeeping podId flags env client pc w) as [[] w1|w1];
    cbn [worldOf] in *; [|exact H1].
  destruct (decide (drainAttempts w1 = drainAttempts w)) as [Heq|Hne].
  - rewrite <- Heq. apply IH.
  - destruct Hdrained as [h Hh]; [lia|].
    destruct (mainLoop_cooldown podId flags env client pc n w1)
      as (w' & -> & Hd & _).
    { intros h'. rewrite Hh. apply Hclock. }
    cbn [worldOf]. lia.
Qed.

(** X9. While the readings of the clock stay within a window shorter than
    the drain delay, a run of any number of cycles sends at most one drain
    request, whatever the cluster would allow. *)
Theorem at_most_one_drain_attempt_per_drain_delay
    podId flags env client pc (n : nat) (w : World) :
  (forall h h', timeNow env h < timeNow env h' + nodeDrainDelay flags) ->
  (drainAttempts (worldOf (mainLoop podId flags env client pc n w))
   <= drainAttempts w + 1)%nat.
Proof.
  intros Hclock. now apply mainLoop_atMostOneDrain_in_a_window.
Qed.

Lemma at_most_one_drain_attempt_per_drain_delay_witness :
  let w := mkWorld [] [] 0 [] in
  let w' := worldOf (mainLoop Example.podId Example.flags
                       (Example.envAt 5 ([], None)) Example.okClient
                       Example.cpuFits 3 w) in
  (drainAttempts w' <= drainAttempts w + 1)%nat.
Proof.
  intros w w'.
  apply (at_most_one_drain_attempt_per_drain_delay Example.podId Example.flags
           (Example.envAt 5 ([], None)) Example.okClient Example.cpuFits 3 w).
  intros h h'. vm_compute. reflexivity.
Defined.

(** ** The pod counts of the spot nodes *)

Lemma updateSpotNodeMetrics_Returns
    flags env (pdbs : list PodDisruptionBudget) (spot : NodeInfoArray) :
  forall w,
    Forall (fun r => allocated w r = true) spot ->
    exists evs,
      updateSpotNodeMetrics flags env spot pdbs w = Returns tt (withEvents evs w) /\
      count isFilterRequest evs = length spot /\
      (count isPodCount evs + count isSpotFailure evs)%nat = length spot /\
      count isDrain evs = 0%nat.
Proof.
  induction spot as [|r spot IH]; intros w Hall.
  - exists []. split; [|repeat split].
    cbn. unfold ret, withEvents. rewrite app_nil_r. now destruct w.
  - inversion Hall as [|? ? Hr Hrest]; subst. unfold allocated in Hr.
    destruct (nodeInfoHeap w !! r) as [ni|] eqn:Eni; [|discriminate].
    destruct (lookupPods w (Pods ni)) as [vs|] eqn:Evs; [|discriminate].
    cbn [updateSpotNodeMetrics].
    unfold bind at 1. unfold readNodeInfo at 1. rewrite Eni.
    unfold bind at 1. unfold ask at 1. unfold bind at 1. unfold emit at 1.
    unfold bind at 1. unfold getHistory at 1. unfold ret at 1. cbn [history].
    unfold bind at 1. unfold GetPodsForDeletionOnNodeDrain at 1.
    unfold bind at 1. rewrite traverse_readPod.
    change (lookupPods _ (Pods ni))
      with (lookupPods (withEvents [Request CallTimeNow] w) (Pods ni)).
    rewrite lookupPods_withEvents, Evs.
    unfold bind at 1. unfold emit at 1. unfold ret at 1.
    cbn [history podHeap nodeInfoHeap nextDrainTime withEvents].
    destruct (podsForDeletionOnNodeDrain env _ pdbs _) as [found [e|]];
      cbn [snd fst];
      unfold bind at 1;
      [unfold glogErrorf at 1, emit at 1
      |unfold metricsUpdateNodePodsCount at 1, emit at 1];
      cbn [history podHeap nodeInfoHeap nextDrainTime];
      rewrite <- !app_assoc; cbn [app];
      match goal with
      | |- context [mkWorld _ _ _ (history w ++ ?evs)] =>
          change (mkWorld (podHeap w) (nodeInfoHeap w) (nextDrainTime w)
                          (history w ++ evs))
            with (withEvents evs w);
          destruct (IH (withEvents evs w))
            as (evs' & Hrun & Hreq & Hcnt & Hdr);
          [ eapply Forall_impl; [exact Hrest|];
            intros r' Hr'; cbn beta; now rewrite allocated_withEvents
          | exists (evs ++ evs'); rewrite Hrun; split;
            [ unfold withEvents;
              cbn [history podHeap nodeInfoHeap nextDrainTime];
              now rewrite app_assoc
            | rewrite !count_app, Hreq, Hdr; cbn; split; [lia|split; lia] ] ]
      end.
Qed.



(** ** The cycle of the earlier version *)

#[local] Instance still_preorder : PreOrder still.
Proof.
  split.
  - intros w. split; reflexivity.
  - intros w1 w2 w3 [H12 T12] [H23 T23]. split; [|congruence].
    etransitivity; eassumption.
Qed.

Lemma still_intro {A} (m : M A) :
  preserves (emitsOnly stillEvent) m -> preserves (keeps nextDrainTime) m ->
  preserves still m.
Proof. intros He Hk w. split; [apply He|apply Hk]. Qed.

Lemma still_counts w w' :
  still w w' ->
  drainAttempts w' = drainAttempts w /\
  count isMetric (history w') = count isMetric (history w) /\
  nextDrainTime w' = nextDrainTime w.
Proof.
  intros [He Ht]. split; [|split; [|exact Ht]].
  - apply (emitsOnly_count stillEvent isDrain _ _); [|exact He].
    intros e H. unfold stillEvent in H. apply andb_true_iff in H as [H _].
    now apply negb_true_iff.
  - apply (emitsOnly_count stillEvent isMetric _ _); [|exact He].
    intros e H. unfold stillEvent in H. apply andb_true_iff in H as [_ H].
    now apply negb_true_iff.
Qed.

Lemma still_stillButOneDrain {A} (m : M A) :
  preserves still m -> preserves stillButOneDrain m.
Proof.
  intros Hm w. destruct (still_counts _ _ (Hm w)) as (Hd & Hc & Ht).
  unfold stillButOneDrain. rewrite Hd, Hc, Ht. repeat split; lia.
Qed.

Lemma still_then_stillButOneDrain {A B} (m : M A) (f : A -> M B) :
  preserves still m ->
  (forall a, preserves stillButOneDrain (f a)) ->
  preserves stillButOneDrain (bind m f).
Proof.
  intros Hm Hf w. unfold bind.
  destruct (still_counts _ _ (Hm w)) as (Hd & Hc & Ht).
  destruct (m w) as [a w1|w1]; cbn [worldOf] in *.
  - destruct (Hf a w1) as (Hd' & Hc' & Ht').
    unfold stillButOneDrain. repeat split; [lia|congruence|congruence].
  - unfold stillButOneDrain. repeat split; [lia|congruence|congruence].
Qed.

Lemma stillButOneDrain_then_still {A B} (m : M A) (f : A -> M B) :
  preserves stillButOneDrain m ->
  (forall a, preserves still (f a)) ->
  preserves stillButOneDrain (bind m f).
Proof.
  intros Hm Hf w. unfold bind. destruct (Hm w) as (Hd & Hc & Ht).
  destruct (m w) as [a w1|w1]; cbn [worldOf] in *.
  - destruct (still_counts _ _ (Hf a w1)) as (Hd' & Hc' & Ht').
    unfold stillButOneDrain. repeat split; [lia|congruence|congruence].
  - unfold stillButOneDrain. repeat split; [lia|congruence|congruence].
Qed.

Lemma emit_still e : stillEvent e = true -> preserves still (emit e).
Proof.
  intros He. apply still_intro; [now apply emit_emitsOnly|keeps_prim].
Qed.

Lemma ask_still {A} c (f : History -> A) :
  stillEvent (Request c) = true -> preserves still (ask c f).
Proof.
  intros He. apply still_intro; [now apply ask_emitsOnly|].
  unfold ask. keeps_tac.
Qed.

Lemma DrainNode_stillButOneDrain client node pods grace timeout :
  preserves stillButOneDrain (DrainNode client node pods grace timeout).
Proof.
  intros w. unfold DrainNode, bind. rewrite traverse_readPod.
  destruct (lookupPods w pods) as [seen|].
  - unfold ask, bind, emit, getHistory, ret. cbn [worldOf].
    unfold stillButOneDrain, drainAttempts. cbn [history nextDrainTime].
    rewrite !count_app. cbn. repeat split; lia.
  - cbn [worldOf]. unfold stillButOneDrain. repeat split; lia.
Qed.

Section LegacyCycle.
Variable podId : Pod -> string.
Variable env : Environment.
Variable MaxPodEvictionTime : Duration.
Variable client : KubeClient.
Variable pc : PredicateChecker.

Lemma considerPods_still nodePlan pods :
  preserves still (Legacy.considerPods podId client pc nodePlan pods).
Proof.
  induction pods as [|pod rest IH]; cbn [Legacy.considerPods];
    [step_preserves|].
  apply preserves_bind; [typeclasses eauto| |intros [n|]].
  - change (Legacy.findSpotNodeForPod client pc nodePlan pod)
      with (findSpotNodeForPod client pc nodePlan pod).
    apply still_intro;
      [now apply findSpotNodeForPod_emitsOnly
      |apply findSpotNodeForPod_keeps_nextDrainTime].
  - apply preserves_bind; [typeclasses eauto|step_preserves|intros v].
    apply preserves_bind; [typeclasses eauto|step_preserves|intros ni].
    apply preserves_bind; [typeclasses eauto|now apply emit_still|intros _].
    apply preserves_bind; [typeclasses eauto| |intros _; exact IH].
    apply still_intro; [|unfold Legacy.addPod; keeps_tac].
    apply keeps_emitsOnly. unfold Legacy.addPod. keeps_tac.
  - apply preserves_bind; [typeclasses eauto|step_preserves|intros v].
    apply preserves_bind; [typeclasses eauto|now apply emit_still|intros _].
    step_preserves.
Qed.

Lemma copyNodeInfos_still spot :
  preserves still (Legacy.copyNodeInfos client spot).
Proof.
  change (Legacy.copyNodeInfos client spot) with (CopyNodeInfos client spot).
  apply still_intro; [now apply CopyNodeInfos_emitsOnly|].
  unfold CopyNodeInfos.
  apply preserves_bind; [typeclasses eauto|unfold ask; keeps_tac|intros [e|]];
    [keeps_tac|].
  apply preserves_bind; [typeclasses eauto| |intros arr; keeps_tac].
  apply preserves_traverse; [typeclasses eauto|intros r].
  unfold copyNodeInfo. keeps_tac.
Qed.

Lemma Legacy_processOnDemandNodes_stillButOneDrain spot pdbs nodes :
  preserves stillButOneDrain
    (Legacy.processOnDemandNodes podId env MaxPodEvictionTime client pc spot
                                 pdbs nodes).
Proof.
  induction nodes as [|nodeInfo rest IH]; cbn [Legacy.processOnDemandNodes].
  - apply still_stillButOneDrain. step_preserves.
  - apply still_then_stillButOneDrain; [apply copyNodeInfos_still|].
    intros [nodePlan [e|]]; cbn [snd fst].
    + apply still_then_stillButOneDrain; [now apply emit_still|intros _].
      exact IH.
    + apply still_then_stillButOneDrain; [step_preserves|intros ni].
      apply still_then_stillButOneDrain; [now apply ask_still|intros now].
      apply still_then_stillButOneDrain.
      { apply still_intro;
          [now apply GetPodsForDeletionOnNodeDrain_emitsOnly
          |apply GetPodsForDeletionOnNodeDrain_keeps_nextDrainTime]. }
      intros [found [e|]]; cbn [snd fst].
      * apply still_then_stillButOneDrain; [now apply emit_still|intros _].
        exact IH.
      * destruct (length found <? 1)%nat.
        -- apply still_then_stillButOneDrain; [now apply emit_still|intros _].
           exact IH.
        -- apply still_then_stillButOneDrain; [now apply emit_still|intros _].
           apply still_then_stillButOneDrain; [apply considerPods_still|].
           intros [|]; cbn [negb]; [exact IH|].
           apply still_then_stillButOneDrain; [now apply emit_still|intros _].
           apply stillButOneDrain_then_still;
             [apply DrainNode_stillButOneDrain|].
           intros [e|]; [now apply emit_still|step_preserves].
Qed.

Lemma Legacy_housekeeping_stillButOneDrain :
  preserves stillButOneDrain
    (Legacy.housekeeping podId env MaxPodEvictionTime client pc).
Proof.
  unfold Legacy.housekeeping.
  apply still_then_stillButOneDrain; [now apply emit_still|intros _].
  apply still_then_stillButOneDrain; [now apply ask_still|].
  intros [allNodes [e|]]; cbn [snd fst].
  { apply still_stillButOneDrain. now apply emit_still. }
  apply still_then_stillButOneDrain.
  { unfold Legacy.newNodeMap. apply still_intro;
      [now apply buildNodeMap_emitsOnly|apply buildNodeMap_keeps_nextDrainTime]. }
  intros [nodeMap [e|]]; cbn [snd fst].
  { apply still_stillButOneDrain. now apply emit_still. }
  apply still_then_stillButOneDrain; [now apply ask_still|].
  intros [allPDBs [e|]]; cbn [snd fst].
  { apply still_stillButOneDrain. now apply emit_still. }
  apply still_then_stillButOneDrain.
  { destruct (length (nodeMapGet nodeMap OnDemand) <? 1)%nat;
      [now apply emit_still|step_preserves]. }
  intros _.
  apply stillButOneDrain_then_still;
    [apply Legacy_processOnDemandNodes_stillButOneDrain|intros _].
  now apply emit_still.
Qed.

End LegacyCycle.

(** X11. The cycle of the earlier version of the loop also sends at most
    one drain request, however it ends; it writes no metric and never moves
    the deadline, so that over [n] cycles the deadline is still what it was
    and up to [n] drain requests may have been sent. *)
Theorem earlier_version_drains_once_per_cycle
    podId env MaxPodEvictionTime client pc :
  (forall w,
     let w' := worldOf (Legacy.housekeeping podId env MaxPodEvictionTime
                                            client pc w) in
     (drainAttempts w' <= drainAttempts w + 1)%nat /\
     count isMetric (history w') = count isMetric (history w) /\
     nextDrainTime w' = nextDrainTime w) /\
  (forall n w,
     let w' := worldOf (Legacy.mainLoop podId env MaxPodEvictionTime
                                        client pc n w) in
     (drainAttempts w' <= drainAttempts w + n)%nat /\
     count isMetric (history w') = count isMetric (history w) /\
     nextDrainTime w' = nextDrainTime w).
Proof.
  split.
  - intros w. apply Legacy_housekeeping_stillButOneDrain.
  - intros n w w'. subst w'.
    generalize (eq_refl (Legacy.mainLoop podId env MaxPodEvictionTime client pc
                                         n w)).
    generalize (Legacy.mainLoop podId env MaxPodEvictionTime client pc n w) at 2 3 4 5.
    intros o Ho. revert w o Ho.
    induction n as [|n IH]; intros w o Ho.
    { cbn in Ho. subst o. cbn. repeat split; lia. }
    cbn [Legacy.mainLoop] in Ho. unfold bind at 1 in Ho.
    destruct (Legacy_housekeeping_stillButOneDrain podId env MaxPodEvictionTime
                client pc w) as (Hd & Hc & Ht).
    destruct (Legacy.housekeeping podId env MaxPodEvictionTime client pc w)
      as [[] w1|w1]; cbn [worldOf] in *.
    + destruct (IH w1 o Ho) as (Hd' & Hc' & Ht').
      split; [lia|]. split; congruence.
    + subst o. cbn [worldOf]. split; [lia|]. split; assumption.
Qed.

(** ** What no cycle changes *)

#[local] Instance kept_preorder : PreOrder kept.
Proof.
  split.
  - intros w. split; [auto|]. intros p v Hv. exists v. split; [exact Hv|now left].
  - intros w1 w2 w3 [N12 P12] [N23 P23]. split; [auto|].
    intros p v Hv. destruct (P12 p v Hv) as (v' & Hv' & Hs).
    destruct (P23 p v' Hv') as (v'' & Hv'' & Hs').
    exists v''. split; [exact Hv''|].
    destruct Hs as [->| ->]; [exact Hs'|].
    right. destruct Hs' as [->| ->]; reflexivity.
Qed.



Lemma buildDrainPlan_kept podId client pc nodeInfos pods :
  preserves kept (buildDrainPlan podId client pc nodeInfos pods).
Proof.
  intros w. split.
  - intros r ni Hr.
    pose proof (buildDrainPlan_frames (length (nodeInfoHeap w)) podId client pc
                  nodeInfos pods w ltac:(lia) ltac:(lia)) as [_ Ht].
    rewrite (take_ge (nodeInfoHeap w)) in Ht by lia. rewrite <- Ht in Hr.
    rewrite lookup_take_Some in Hr. now destruct Hr.
  - intros p v Hv.
    destruct (buildDrainPlan_touchesOnly podId client pc nodeInfos pods w)
      as [_ H].
    destruct (H p v Hv) as (v' & Hv' & Hs & _). eauto.
Qed.





(** ** More NodeInfos to choose from *)

Lemma findSpotNodeForPod_app client pc front back pod : forall w,
  findSpotNodeForPod client pc (front ++ back) pod w =
  match findSpotNodeForPod client pc front pod w with
  | Returns None w1 => findSpotNodeForPod client pc back pod w1
  | other => other
  end.
Proof.
  induction front as [|r front IH]; intros w; [reflexivity|].
  cbn [app findSpotNodeForPod]. unfold bind.
  destruct (readNodeInfo r w) as [ni w1|]; [|reflexivity].
  destruct (NewNodeInfo (Pods ni) w1) as [k w2|]; [|reflexivity].
  destruct (writePodNodeName pod "" w2) as [[] w3|]; [|reflexivity].
  destruct (CheckPredicates pc pod (SetNode k (Node_ ni)) w3) as [[e|] w4|];
    [apply IH|reflexivity|reflexivity].
Qed.

Lemma planPods_more_nodes podId client pc nodePlan extra pods : forall w w',
  planPods podId client pc nodePlan pods w = Returns None w' ->
  planPods podId client pc (nodePlan ++ extra) pods w = Returns None w'.
Proof.
  induction pods as [|pod rest IH]; intros w w' H; [exact H|].
  destruct (findSpotNodeForPod client pc nodePlan pod w) as [[n|] w1|] eqn:E.
  - assert (E' : findSpotNodeForPod client pc (nodePlan ++ extra) pod w
                 = Returns (Some n) w1)
      by (now rewrite findSpotNodeForPod_app, E).
    destruct (planPods_placed podId client pc nodePlan pod rest w n w1 E)
      as (v & ni & Hv & Hni & Hstep).
    destruct (planPods_placed podId client pc (nodePlan ++ extra) pod rest w n
                w1 E') as (v' & ni' & Hv' & Hni' & Hstep').
    assert (v' = v) by congruence. assert (ni' = ni) by congruence. subst.
    rewrite Hstep'. apply IH. now rewrite <- Hstep.
  - cbn [planPods] in H. unfold bind at 1 in H. rewrite E in H.
    unfold bind, readPod, ret in H. destruct (podHeap w1 !! pod); discriminate.
  - cbn [planPods] in H. unfold bind at 1 in H. rewrite E in H. discriminate.
Qed.

(** X13. The search over an array that is two arrays one after the other
    is the search over the first and, only when that finds nothing, the
    search over the second in the world the first left.  So more NodeInfos at
    the end of the array never spoil a plan: when the loop over the pods
    places every pod with the array [nodePlan], it places every pod, on the
    same NodeInfos and leaving the same world, with [nodePlan ++ extra]. *)
Theorem more_nodes_never_spoil_a_plan
    podId client pc (nodePlan extra : NodeInfoArray) :
  (forall pod w,
     findSpotNodeForPod client pc (nodePlan ++ extra) pod w =
     match findSpotNodeForPod client pc nodePlan pod w with
     | Returns None w1 => findSpotNodeForPod client pc extra pod w1
     | other => other
     end) /\
  (forall pods w w',
     planPods podId client pc nodePlan pods w = Returns None w' ->
     planPods podId client pc (nodePlan ++ extra) pods w = Returns None w').
Proof.
  split.
  - intros pod w. apply findSpotNodeForPod_app.
  - intros pods w w'. apply planPods_more_nodes.
Qed.

Lemma more_nodes_never_spoil_a_plan_witness :
  planPods Example.podId Example.okClient Example.cpuFits
           ([3%nat; 4%nat] ++ [2%nat]) [0%nat; 1%nat] Example.copied =
  planPods Example.podId Example.okClient Example.cpuFits
           [3%nat; 4%nat] [0%nat; 1%nat] Example.copied.
Proof.
  destruct (more_nodes_never_spoil_a_plan Example.podId Example.okClient
              Example.cpuFits [3%nat; 4%nat] [2%nat]) as [_ H].
  transitivity
    (@Returns error None
       (worldOf (planPods Example.podId Example.okClient Example.cpuFits
                   [3%nat; 4%nat] [0%nat; 1%nat] Example.copied))).
  - apply (H [0%nat; 1%nat] Example.copied). vm_compute. reflexivity.
  - vm_compute. reflexivity.
Defined.

(** ** No nil dereference in a cycle *)

Lemma lookupPods_Some w ps vs :
  lookupPods w ps = Some vs ->
  Forall (fun p => is_Some (podHeap w !! p)) ps /\ length vs = length ps.
Proof.
  revert vs. induction ps as [|p ps IH]; intros vs H.
  - cbn in H. inversion H; subst. split; [constructor|reflexivity].
  - cbn [lookupPods] in H.
    destruct (podHeap w !! p) as [v|] eqn:Ev; [|discriminate].
    destruct (lookupPods w ps) as [vs'|]; [|discriminate].
    inversion H; subst. destruct (IH vs' eq_refl) as [Hall Hlen].
    split; [constructor; eauto|cbn; now rewrite Hlen].
Qed.

Lemma lookupPods_of_Forall w ps :
  Forall (fun p => is_Some (podHeap w !! p)) ps ->
  exists vs, lookupPods w ps = Some vs.
Proof.
  induction 1 as [|p ps [v Hv] _ [vs IH]]; [now exists []|].
  exists (v :: vs). cbn [lookupPods]. now rewrite Hv, IH.
Qed.

Lemma map_fst_combine {A B} (xs : list A) (ys : list B) :
  length ys = length xs -> map fst (combine xs ys) = xs.
Proof.
  revert ys. induction xs as [|x xs IH]; intros [|y ys] H;
    try discriminate; [reflexivity|].
  cbn. f_equal. apply IH. now inversion H.
Qed.

Lemma allocated_kept w w' r :
  kept w w' -> allocated w r = true -> allocated w' r = true.
Proof.
  intros [Hn Hp] Hr. unfold allocated in *.
  destruct (nodeInfoHeap w !! r) as [ni|] eqn:Er; [|discriminate].
  assert (Er' : nodeInfoHeap w' !! r = Some ni) by (apply Hn; exact Er).
  rewrite Er'.
  destruct (lookupPods w (Pods ni)) as [vs|] eqn:Evs; [|discriminate].
  destruct (lookupPods_Some _ _ _ Evs) as [Hall _].
  destruct (lookupPods_of_Forall w' (Pods ni)) as [vs' ->]; [|reflexivity].
  eapply Forall_impl; [exact Hall|]. intros p [v Hv].
  destruct (Hp p v Hv) as (v' & Hv' & _). eauto.
Qed.

Lemma buildNodeMap_returns flags client nodes : forall acc w,
  exists res w', buildNodeMap flags client nodes acc w = Returns res w'.
Proof.
  induction nodes as [|node rest IH]; intros acc w; cbn [buildNodeMap];
    [unfold ret; eauto|].
  destruct (classify flags node) as [role|].
  - unfold bind at 1. unfold ask at 1. unfold bind at 1. unfold emit at 1.
    unfold bind at 1. unfold getHistory at 1. unfold ret at 1. cbn [history].
    destruct (podsOnNode client _ (nodeName node)) as [listed [e|]];
      cbn [snd fst]; [unfold ret; eauto|].
    unfold bind at 1.
    match goal with
    | |- context [traverse allocPod listed ?w1] =>
        destruct (traverse_allocPod listed w1) as (pods & w' & -> & _)
    end.
    unfold bind at 1. unfold allocNodeInfo at 1. apply IH.
  - unfold bind at 1. unfold glogInfof at 1, emit at 1. apply IH.
Qed.

Lemma withEvents_nil w : withEvents [] w = w.
Proof. unfold withEvents. rewrite app_nil_r. now destruct w. Qed.

Section NoPanic.
Variable podId : Pod -> string.
Variable flags : Flags.
Variable env : Environment.
Variable client : KubeClient.
Variable pc : PredicateChecker.
Hypothesis honest : honestFilter env.

Lemma processOnDemandNodes_returns spot pdbs nodes : forall w,
  Forall (fun r => allocated w r = true) spot ->
  Forall (fun r => allocated w r = true) nodes ->
  exists w',
    processOnDemandNodes podId flags env client pc spot pdbs nodes w
    = Returns tt w'.
Proof.
  induction nodes as [|nodeInfo rest IH]; intros w Hspot Hnodes;
    [cbn; unfold ret; eauto|].
  inversion Hnodes as [|? ? Hr Hrest]; subst. unfold allocated in Hr.
  destruct (nodeInfoHeap w !! nodeInfo) as [ni|] eqn:Eni; [|discriminate].
  destruct (lookupPods w (Pods ni)) as [vs|] eqn:Evs; [|discriminate].
  rewrite (processOnDemandNodes_head podId flags env client pc spot pdbs
             nodeInfo rest w ni vs Eni Evs). cbn zeta.
  assert (Hev : forall evs arr,
             Forall (fun r => allocated w r = true) arr ->
             Forall (fun r => allocated (withEvents evs w) r = true) arr).
  { intros evs arr H. eapply Forall_impl; [exact H|].
    intros r Hr'. cbn beta. now rewrite allocated_withEvents. }
  destruct (snd (candidates env pdbs w ni vs)) as [e|] eqn:Eerr.
  { apply IH; unfold filterFailed; now apply Hev. }
  destruct (length (fst (candidates env pdbs w ni vs)) <? 1)%nat.
  { apply IH; unfold skipped; now apply Hev. }
  set (found := fst (candidates env pdbs w ni vs)).
  assert (Hfound : Forall (fun p => is_Some (podHeap w !! p)) found).
  { destruct (lookupPods_Some _ _ _ Evs) as [Hall Hlen].
    apply Forall_forall. intros p Hp. apply list_elem_of_In in Hp.
    unfold found, candidates in Hp. apply honest in Hp.
    rewrite (map_fst_combine _ _ Hlen) in Hp.
    rewrite Forall_forall in Hall. apply Hall. now apply list_elem_of_In. }
  destruct (buildDrainPlan_returns podId client pc spot found
              (considered flags w ni found)) as (err & w1 & Hplan).
  { unfold considered. now apply Hev. }
  { eapply Forall_impl; [exact Hfound|]. intros p Hp. exact Hp. }
  pose proof (buildDrainPlan_kept podId client pc spot found
                (considered flags w ni found)) as Hkept.
  rewrite Hplan in *. cbn [worldOf] in Hkept.
  assert (Hk : forall arr,
             Forall (fun r => allocated w r = true) arr ->
             Forall (fun r => allocated w1 r = true) arr).
  { intros arr H. eapply Forall_impl; [exact H|].
    intros r Hr'. cbn beta. apply (allocated_kept _ _ _ Hkept).
    unfold considered. now rewrite allocated_withEvents. }
  destruct err as [e|].
  - apply IH; unfold planFailed.
    + eapply Forall_impl; [exact (Hk _ Hspot)|].
      intros r Hr'. cbn beta. now rewrite allocated_withEvents.
    + eapply Forall_impl; [exact (Hk _ Hrest)|].
      intros r Hr'. cbn beta. now rewrite allocated_withEvents.
  - destruct (lookupPods_of_Forall (withEvents [willDrain ni] w1) found)
      as [seen Hseen].
    { eapply Forall_impl; [exact Hfound|]. intros p [v Hv]. cbn beta.
      destruct Hkept as [_ Hp]. unfold considered in Hp.
      destruct (Hp p v Hv) as (v' & Hv' & _). cbn [withEvents podHeap]. eauto. }
    unfold bind at 1.
    rewrite (drainNode_Returns flags env client _ _ seen _ _ _ Hseen).
    destruct (drainNodeResult client _); unfold glogErrorf, emit, ret; eauto.
Qed.

Lemma reschedule_returns nodeMap w :
  mapAllocated w nodeMap ->
  exists w', reschedule podId flags env client pc nodeMap w = Returns tt w'.
Proof.
  intros [Hon Hspot]. rewrite reschedule_listed.
  destruct (snd (pdbsAt env nodeMap w)) as [e|]; [eauto|].
  destruct (updateSpotNodeMetrics_Returns flags env (fst (pdbsAt env nodeMap w))
              (spotInfos nodeMap) (listingPDBs nodeMap w))
    as (evs & Hrun & _).
  { eapply Forall_impl; [exact Hspot|]. intros r Hr. cbn beta.
    unfold listingPDBs. now rewrite allocated_withEvents. }
  unfold bind at 1. cbn [nodeMapGet]. rewrite Hrun.
  assert (Hloop : forall w0,
             Forall (fun r => allocated w0 r = true) (spotInfos nodeMap) ->
             Forall (fun r => allocated w0 r = true) (onDemandInfos nodeMap) ->
             exists w',
               (processOnDemandNodes podId flags env client pc
                  (spotInfos nodeMap) (fst (pdbsAt env nodeMap w))
                  (onDemandInfos nodeMap) ;;;
                glogInfof "Finished processing nodes." []) w0 = Returns tt w').
  { intros w0 Hs Ho.
    destruct (processOnDemandNodes_returns (spotInfos nodeMap)
                (fst (pdbsAt env nodeMap w)) (onDemandInfos nodeMap) w0 Hs Ho)
      as [w' Hw'].
    unfold bind at 1. rewrite Hw'. unfold glogInfof, emit. eauto. }
  assert (Hev : forall evs0 arr,
             Forall (fun r => allocated w r = true) arr ->
             Forall (fun r => allocated
                                (withEvents evs0 (withEvents evs
                                                    (listingPDBs nodeMap w))) r
                              = true) arr).
  { intros evs0 arr H. eapply Forall_impl; [exact H|].
    intros r Hr. cbn beta. unfold listingPDBs.
    now rewrite !allocated_withEvents. }
  unfold bind at 1.
  destruct (length (onDemandInfos nodeMap) <? 1)%nat.
  - unfold glogInfof at 1, emit at 1.
    apply (Hloop (withEvents [LogInfo "No nodes to process." []]
                             (withEvents evs (listingPDBs nodeMap w))));
      now apply Hev.
  - unfold ret at 1.
    rewrite <- (withEvents_nil (withEvents evs (listingPDBs nodeMap w))).
    apply Hloop; now apply Hev.
Qed.

Lemma processNodes_returns w :
  exists w', processNodes podId flags env client pc w = Returns tt w'.
Proof.
  rewrite processNodes_listed.
  destruct (snd (nodesAt env w)) as [e|]; [eauto|].
  destruct (buildNodeMap_returns flags client (fst (nodesAt env w))
              (mkNodeMap [] []) (listingNodes w)) as ([nodeMap err] & w2 & Hmap).
  unfold NewNodeMap. rewrite Hmap. destruct err as [e|]; [eauto|].
  apply reschedule_returns.
  eapply buildNodeMap_allocated; [|exact Hmap]. split; constructor.
Qed.

Lemma housekeeping_returns w :
  exists w', housekeeping podId flags env client pc w = Returns tt w'.
Proof.
  destruct (Z_lt_le_dec (cycleStart env w) (nextDrainTime w)) as [Hcool|Hopen].
  - rewrite (housekeeping_cooldown _ _ _ _ _ _ Hcool). eauto.
  - rewrite (housekeeping_open _ _ _ _ _ _ Hopen).
    destruct (0 <? length (fst (unschedulableAt env w)))%nat; [eauto|].
    apply processNodes_returns.
Qed.

Lemma mainLoop_returns n : forall w,
  exists w', mainLoop podId flags env client pc n w = Returns tt w'.
Proof.
  induction n as [|n IH]; intros w; [cbn; unfold ret; eauto|].
  cbn [mainLoop]. unfold bind at 1.
  destruct (housekeeping_returns w) as [w1 ->]. apply IH.
Qed.

End NoPanic.

(** X14. No cycle runs into a nil dereference: when the filter of eviction
    candidates answers only with pods it was given, every cycle, started in
    any world, comes back, and so does every run of cycles.  (With the node
    map, the copy of the spot array, AddPod and the drain executor as the
    spec describes them.) *)
Theorem cycles_never_dereference_nil podId flags env client pc :
  honestFilter env ->
  (forall w,
     exists w', housekeeping podId flags env client pc w = Returns tt w') /\
  (forall n w,
     exists w', mainLoop podId flags env client pc n w = Returns tt w').
Proof.
  intros Hhonest. split.
  - now apply housekeeping_returns.
  - intros n w. now apply mainLoop_returns.
Qed.

Lemma cycles_never_dereference_nil_witness :
  exists w',
    mainLoop Example.podId Example.flags (Example.envAt 5 ([], None))
             Example.okClient Example.cpuFits 2 Example.world0 = Returns tt w'.
Proof.
  apply (cycles_never_dereference_nil Example.podId Example.flags
           (Example.envAt 5 ([], None)) Example.okClient Example.cpuFits).
  intros pods pdbs now p Hp. exact Hp.
Defined.

(** ** No spot node, no drain *)

Lemma buildDrainPlan_no_spot podId client pc pods w w' :
  pods <> [] ->
  buildDrainPlan podId client pc [] pods w = Returns None w' -> False.
Proof.
  intros Hne H. unfold buildDrainPlan, CopyNodeInfos in H.
  unfold bind at 1 in H. unfold bind at 1 in H. unfold ask at 1 in H.
  unfold bind at 1 in H. unfold emit at 1 in H. unfold bind at 1 in H.
  unfold getHistory at 1 in H. unfold ret at 1 in H. cbn [history] in H.
  destruct (copyNodeInfosError client _) as [e|].
  - unfold ret at 1 in H. cbn [snd fst] in H. discriminate.
  - cbn [traverse] in H. unfold bind at 1 in H. unfold ret at 1 2 in H.
    cbn [snd fst] in H. destruct pods as [|pod rest]; [congruence|].
    cbn [planPods findSpotNodeForPod] in H.
    unfold bind, ret, readPod in H.
    match type of H with
    | context [podHeap ?w0 !! pod] => destruct (podHeap w0 !! pod)
    end; discriminate.
Qed.

Section NoSpot.
Variable podId : Pod -> string.
Variable flags : Flags.
Variable env : Environment.
Variable client : KubeClient.
Variable pc : PredicateChecker.

Lemma processOnDemandNodes_no_spot pdbs nodes :
  preserves calm (processOnDemandNodes podId flags env client pc [] pdbs nodes).
Proof.
  induction nodes as [|nodeInfo rest IH]; cbn [processOnDemandNodes];
    [step_preserves|].
  apply preserves_bind; [typeclasses eauto|step_preserves|intros ni].
  apply preserves_bind; [typeclasses eauto|now apply ask_calm|intros now].
  apply preserves_bind; [typeclasses eauto| |].
  { apply calm_intro;
      [now apply GetPodsForDeletionOnNodeDrain_emitsOnly
      |apply GetPodsForDeletionOnNodeDrain_keeps_nextDrainTime]. }
  intros [found [e|]]; cbn [snd fst].
  - apply preserves_bind; [typeclasses eauto|now apply emit_calm|intros _].
    exact IH.
  - apply preserves_bind; [typeclasses eauto|now apply emit_calm|intros _].
    destruct (length found <? 1)%nat eqn:El.
    + apply preserves_bind; [typeclasses eauto|now apply emit_calm|intros _].
      exact IH.
    + apply preserves_bind; [typeclasses eauto|now apply emit_calm|intros _].
      apply preserves_bind_dep; [typeclasses eauto| |].
      { apply calm_intro;
          [now apply buildDrainPlan_emitsOnly
          |apply buildDrainPlan_keeps_nextDrainTime]. }
      intros [e|] w w1 Hplan.
      * apply preserves_bind; [typeclasses eauto|now apply emit_calm|intros _].
        exact IH.
      * exfalso. eapply buildDrainPlan_no_spot; [|exact Hplan].
        intros ->. discriminate.
Qed.

End NoSpot.

(** X15. Without a spot node nothing is drained: given an empty spot array,
    the loop over the on-demand nodes, whatever nodes and pods it is given
    and however it ends, sends no drain request, counts no drain and leaves
    the deadline where it was.  (With CopyNodeInfos as the spec describes
    it.) *)
Theorem no_spot_node_no_drain
    podId flags env client pc (pdbs : list PodDisruptionBudget)
    (nodes : NodeInfoArray) (w : World) :
  let w' := worldOf (processOnDemandNodes podId flags env client pc [] pdbs
                                          nodes w) in
  drainAttempts w' = drainAttempts w /\
  count isDrainCount (history w') = count isDrainCount (history w) /\
  nextDrainTime w' = nextDrainTime w.
Proof.
  intros w'. apply calm_counts.
  apply processOnDemandNodes_no_spot.
Qed.
